(** * Timeline: the interval-activation scheduler of src/play/game/timeline.ts

    A shallow embedding of [Timeline] (constructor, [update] and its three
    private cursor methods) and of [AudioObjectTimeline.seek], followed by
    the properties of the specification that concern them.

    Times are milliseconds.  The source compares them and, in the audio
    layer, adds and subtracts them; they are modelled as integers [Z], a
    totally ordered domain on which those operations are exact.  Positions
    in seconds handed to the sound handle are rationals [Q].

    Further parts cover the rest of the audio layer and the display-object
    layer of the same file, the clock and the cursor of
    src/play/game/standard_game.ts, whose times are products and quotients
    of numbers and are modelled as rationals, and the sample loader of
    src/play/loader/sample-loader.ts. *)

From Stdlib Require Import ZArith List Bool Lia QArith Permutation Sorted.
From Stdlib Require String.
From Stdlib Require Import Lqa Qround.
Import ListNotations.
Open Scope Z_scope.

Set Implicit Arguments.

(** ** Outcomes of a call

    [TypeError] is what JavaScript raises on a property read from
    [undefined]; [Diverged] is a loop that has used up the iteration budget
    of the model. *)

Inductive Completion (A : Type) : Type :=
| Normal (a : A)
| TypeError
| Diverged.

Arguments Normal {A} a.
Arguments TypeError {A}.
Arguments Diverged {A}.

(** ** Arrays read by a numeric index: [arr[i]] is [undefined] out of range *)

Definition elementAt {A : Type} (arr : list A) (i : Z) : option A :=
  if i <? 0 then None else nth_error arr (Z.to_nat i).

Definition len {A : Type} (arr : list A) : Z := Z.of_nat (length arr).

(** ** [Map<number, V>]: keys are unique and iteration follows insertion order *)

Module JsMap.

Definition t (V : Type) : Type := list (Z * V).

Definition has {V} (k : Z) (m : t V) : bool :=
  existsb (fun p => fst p =? k) m.

Fixpoint replace {V} (k : Z) (v : V) (m : t V) : t V :=
  match m with
  | [] => []
  | (k', v') :: m' =>
      if k' =? k then (k', v) :: m' else (k', v') :: replace k v m'
  end.

(** [set] on a present key keeps the key's place in the iteration order. *)
Definition set {V} (k : Z) (v : V) (m : t V) : t V :=
  if has k m then replace k v m else m ++ [(k, v)].

Definition delete {V} (k : Z) (m : t V) : t V :=
  filter (fun p => negb (fst p =? k)) m.

Definition keys {V} (m : t V) : list Z := map fst m.

End JsMap.

(** ** BinarySearch.findIndex *)

(** Modelled from the spec: [BinarySearch.findIndex] belongs to the external
    package osu-classes and is not part of the sources.  The specification
    says that the search "finds, over the sorted array, the first index"
    satisfying the predicate and yields "no index" otherwise; the caller's
    test [found >= 0] shows that "no index" is a negative number, taken here
    to be [-1]. *)
Fixpoint findIndexFrom {A : Type} (i : Z) (arr : list A) (predicate : A -> bool) : Z :=
  match arr with
  | [] => -1
  | x :: rest => if predicate x then i else findIndexFrom (i + 1) rest predicate
  end.

(** Modelled from the spec: [BinarySearch.findIndex(arr, predicate)], the
    first index whose element satisfies the predicate, [-1] when there is
    none. *)
Definition findIndex {A : Type} (arr : list A) (predicate : A -> bool) : Z :=
  findIndexFrom 0 arr predicate.

(** ** The engine *)

Section TimelineEngine.

Variable Instance : Type.

(** interface TimelineElement<Instance> extends IDurable *)
Record TimelineElement : Type := {
  startTimeMs : Z;
  endTimeMs : Z;
  build : unit -> Instance
}.

(** interface TimelineElementState<Instance> extends IDurable *)
Record TimelineElementState : Type := {
  stateStartTimeMs : Z;
  stateEndTimeMs : Z;
  instance : Instance
}.

(** What a call does to its collaborators, in order.  [Build] is the call
    of a descriptor's factory; the other three are calls of the hooks, and
    are recorded only when the hook is installed.  The index of the
    descriptor is carried along to tell the payloads apart. *)
Inductive Event : Type :=
| Build (index : Z)
| CreateElement (index : Z) (inst : Instance) (timeMs : Z)
| UpdateElement (index : Z) (inst : Instance) (timeMs : Z)
| DestroyElement (index : Z) (inst : Instance) (timeMs : Z).

(** interface TimelineOptions<Instance>: a hook is [true] when a callback
    is given; [optAllowSkippingElements] is [None] when the option is
    left out. *)
Record TimelineOptions : Type := {
  optElements : list TimelineElement;
  optCreateElement : bool;
  optUpdateElement : bool;
  optDestroyElement : bool;
  optAllowSkippingElements : option bool
}.

(** class Timeline<Instance>.  [lastTimeMs] and [nextElementIndex] are
    declared without a value: they are [undefined] ([None]) until the
    first [update]. *)
Record Timeline : Type := {
  elements : list TimelineElement;
  activeElements : JsMap.t TimelineElementState;
  lastTimeMs : option Z;
  nextElementIndex : option Z;
  createElement : bool;
  updateElement : bool;
  destroyElement : bool;
  allowSkippingElements : bool
}.

(** [Array.prototype.sort] with the comparator [a.startTimeMs -
    b.startTimeMs]: a stable sort by start time. *)
Fixpoint insertByStart (x : TimelineElement) (sorted : list TimelineElement)
  : list TimelineElement :=
  match sorted with
  | [] => [x]
  | y :: rest =>
      if startTimeMs y <=? startTimeMs x
      then y :: insertByStart x rest
      else x :: y :: rest
  end.

Definition sortByStart (arr : list TimelineElement) : list TimelineElement :=
  fold_left (fun sorted x => insertByStart x sorted) arr [].

(** The object that the constructor initialises. *)
Definition newTimeline (options : TimelineOptions) : Timeline :=
  {| elements := sortByStart (optElements options);
     activeElements := [];
     lastTimeMs := None;
     nextElementIndex := None;
     createElement := optCreateElement options;
     updateElement := optUpdateElement options;
     destroyElement := optDestroyElement options;
     allowSkippingElements :=
       match optAllowSkippingElements options with
       | Some b => b
       | None => false
       end |}.

(** public constructor(options): it has no statement that can raise. *)
Definition constructor (options : TimelineOptions) : Completion Timeline :=
  Normal (newTimeline options).

(** A comparison with [undefined] is false. *)
Definition ltUndef (a : Z) (b : option Z) : bool :=
  match b with Some b' => a <? b' | None => false end.

Definition gtUndef (a : Z) (b : option Z) : bool :=
  match b with Some b' => b' <? a | None => false end.

Definition geUndef (a : Z) (b : option Z) : bool :=
  match b with Some b' => b' <=? a | None => false end.

Definition leUndef (a : Z) (b : option Z) : bool :=
  match b with Some b' => a <=? b' | None => false end.

Definition isSome {A : Type} (o : option A) : bool :=
  match o with Some _ => true | None => false end.

Section Methods.

Variable this : Timeline.

(** The predicate handed to the binary search. *)
Definition searchPredicate (timeMs : Z) (forward : bool)
           (element : TimelineElement) : bool :=
  if forward
  then timeMs <? endTimeMs element
  else startTimeMs element <? timeMs.

(** The guard of the early return of [setInitialElementIndex]: the cursor
    is kept when the clock did not move against the direction, the element
    at the cursor has not been left behind, and there is such an element. *)
Definition cursorIsFresh (index : Z) (timeMs : Z) (forward : bool) : bool :=
  let nextElement := elementAt (elements this) index in
  let isSeekingBackwards :=
    if forward
    then ltUndef timeMs (lastTimeMs this)
    else gtUndef timeMs (lastTimeMs this) in
  let isSeekingForward :=
    if forward
    then geUndef timeMs (option_map endTimeMs nextElement)
    else leUndef timeMs (option_map startTimeMs nextElement) in
  negb isSeekingBackwards && negb isSeekingForward && isSome nextElement.

(** private setInitialElementIndex: the methods below are called by
    [update] only, after [??=] has given the cursor a value; they take
    that value, [this.nextElementIndex], as [index] and return the new
    one. *)
Definition setInitialElementIndex (index : Z) (timeMs : Z) (forward : bool) : Z :=
  if cursorIsFresh index timeMs forward then index
  else
    let found := findIndex (elements this) (searchPredicate timeMs forward) in
    if forward then (if 0 <=? found then found else 0) else found.

(** private shouldAddNextElement: the read of [startTimeMs] or
    [endTimeMs] raises if there is no element at the cursor. *)
Definition shouldAddNextElement (index : Z) (timeMs : Z) (forward : bool)
  : Completion bool :=
  let elementExists :=
    if forward then index <? len (elements this) else 0 <=? index in
  if negb elementExists then Normal false
  else
    match elementAt (elements this) index with
    | None => TypeError
    | Some e =>
        Normal (if forward
                then startTimeMs e <? timeMs
                else timeMs <? endTimeMs e)
    end.

(** private setNextElementIndex *)
Definition setNextElementIndex (index : Z) (forward : bool) : Z :=
  index + (if forward then 1 else -1).

Definition callHook (installed : bool) (e : Event) : list Event :=
  if installed then [e] else [].

(** The body of the scan loop. *)
Definition scanBody (index : Z) (timeMs : Z)
           (active : JsMap.t TimelineElementState)
  : Completion (JsMap.t TimelineElementState * list Event) :=
  match elementAt (elements this) index with
  | None => TypeError
  | Some nextElement =>
      let hasEnded := endTimeMs nextElement <=? timeMs in
      let isActive := JsMap.has index active in
      if negb (allowSkippingElements this) || (negb hasEnded && negb isActive)
      then
        let nextElementState := {|
          stateStartTimeMs := startTimeMs nextElement;
          stateEndTimeMs := endTimeMs nextElement;
          instance := build nextElement tt
        |} in
        Normal (JsMap.set index nextElementState active,
                Build index
                :: callHook (createElement this)
                     (CreateElement index (instance nextElementState) timeMs))
      else Normal (active, [])
  end.

(** The first loop of [update], from the cursor on: test, body, step. *)
Fixpoint scanLoop (fuel : nat) (index : Z) (timeMs : Z) (forward : bool)
         (active : JsMap.t TimelineElementState) (log : list Event)
  : Completion (Z * JsMap.t TimelineElementState * list Event) :=
  match fuel with
  | O => Diverged
  | S fuel' =>
      match shouldAddNextElement index timeMs forward with
      | TypeError => TypeError
      | Diverged => Diverged
      | Normal false => Normal (index, active, log)
      | Normal true =>
          match scanBody index timeMs active with
          | TypeError => TypeError
          | Diverged => Diverged
          | Normal (active', events) =>
              scanLoop fuel' (setNextElementIndex index forward)
                       timeMs forward active' (log ++ events)
          end
      end
  end.

Definition inWindow (timeMs : Z) (element : TimelineElementState) : bool :=
  (stateStartTimeMs element <=? timeMs) && (timeMs <? stateEndTimeMs element).

(** The second loop of [update]: the entries of the map are visited in
    insertion order; deleting the entry being visited does not disturb
    the iteration. *)
Fixpoint reconcileLoop (entries : list (Z * TimelineElementState)) (timeMs : Z)
         (active : JsMap.t TimelineElementState) (log : list Event)
  : JsMap.t TimelineElementState * list Event :=
  match entries with
  | [] => (active, log)
  | (index, element) :: rest =>
      if inWindow timeMs element
      then reconcileLoop rest timeMs active
             (log ++ callHook (updateElement this)
                              (UpdateElement index (instance element) timeMs))
      else reconcileLoop rest timeMs (JsMap.delete index active)
             (log ++ callHook (destroyElement this)
                              (DestroyElement index (instance element) timeMs))
  end.

(** public update(timeMs, forward = true).  Every pass of the first loop
    moves the cursor by one inside the array, so the length of the
    array plus one bounds the number of tests. *)
Definition update (timeMs : Z) (forward : bool)
  : Completion (Timeline * list Event) :=
  let index0 :=
    match nextElementIndex this with
    | Some i => i
    | None => if forward then 0 else len (elements this) - 1
    end in
  let index1 := setInitialElementIndex index0 timeMs forward in
  match scanLoop (S (length (elements this))) index1 timeMs forward
                 (activeElements this) [] with
  | TypeError => TypeError
  | Diverged => Diverged
  | Normal (index2, active, log1) =>
      let '(active', log2) := reconcileLoop active timeMs active [] in
      Normal ({|
                elements := elements this;
                activeElements := active';
                lastTimeMs := Some timeMs;
                nextElementIndex := Some index2;
                createElement := createElement this;
                updateElement := updateElement this;
                destroyElement := destroyElement this;
                allowSkippingElements := allowSkippingElements this
              |}, log1 ++ log2)
  end.

End Methods.

(** A sequence of [update] calls in one direction: the object and the
    events after each call. *)
Fixpoint run (this : Timeline) (forward : bool) (times : list Z)
  : Completion (list (Timeline * list Event)) :=
  match times with
  | [] => Normal []
  | timeMs :: rest =>
      match update this timeMs forward with
      | TypeError => TypeError
      | Diverged => Diverged
      | Normal (this', events) =>
          match run this' forward rest with
          | TypeError => TypeError
          | Diverged => Diverged
          | Normal trace => Normal ((this', events) :: trace)
          end
      end
  end.

(** The indices whose factory a list of events calls. *)
Fixpoint builtIndices (events : list Event) : list Z :=
  match events with
  | [] => []
  | Build index :: rest => index :: builtIndices rest
  | _ :: rest => builtIndices rest
  end.

End TimelineEngine.


Arguments Build {Instance} index.

(** ** The two specialisations *)

(** DisplayObjectTimeline: the three hooks, skipping allowed. *)
Definition displayObjectOptions {Instance : Type}
           (elements : list (TimelineElement Instance)) : TimelineOptions Instance :=
  {| optElements := elements;
     optCreateElement := true;
     optUpdateElement := true;
     optDestroyElement := true;
     optAllowSkippingElements := Some true |}.

Module AudioLayer.

(** StoryboardSample (osu-classes), as far as the layer reads it. *)
Record StoryboardSample : Type := {
  startTime : Z;
  volume : Z
}.

(** A Howl seen through one voice: [duration] is [sound.duration(soundId)],
    in seconds, and [playing] is [sound.playing(soundId)]. *)
Record Howl : Type := {
  duration : Q;
  playing : bool
}.

(** interface AudioTimelineInstance *)
Record AudioTimelineInstance : Type := {
  sample : StoryboardSample;
  sampleVolume : Q;
  sound : option Howl;
  soundId : option Z
}.

(** The calls made on the sound handle. *)
Inductive SoundCommand : Type :=
| Seek (seconds : Q) (id : option Z)
| Stop (id : option Z).

(** class AudioObjectTimeline *)
Record AudioObjectTimeline : Type := {
  timeline : Timeline AudioTimelineInstance;
  lastTimeMs : Z
}.

Definition audioOptions (elements : list (TimelineElement AudioTimelineInstance))
  : TimelineOptions AudioTimelineInstance :=
  {| optElements := elements;
     optCreateElement := false;
     optUpdateElement := false;
     optDestroyElement := true;
     optAllowSkippingElements := Some true |}.

(** constructor(elements): the engine with the on-deactivate hook and
    skipping allowed; [lastTimeMs = 0]. *)
Definition constructor (elements : list (TimelineElement AudioTimelineInstance))
  : Completion AudioObjectTimeline :=
  match constructor (audioOptions elements) with
  | Normal engine => Normal {| timeline := engine; lastTimeMs := 0 |}
  | TypeError => TypeError
  | Diverged => Diverged
  end.

(** The relative position [seekTimeMs] that [seek] computes for a voice. *)
Definition seekTimeMs (lastTime timeMs : Z) (inst : AudioTimelineInstance) : Z :=
  let timeRelativeMs := timeMs - startTime (sample inst) in
  let seekOffsetMs := timeMs - lastTime in
  timeRelativeMs + seekOffsetMs.

Definition sampleDurationMs (snd : Howl) : Q := (duration snd * 1000)%Q.

(** The callback that [seek] runs on one active entry. *)
Definition seekElement (lastTime timeMs : Z) (inst : AudioTimelineInstance)
  : list SoundCommand :=
  match sound inst with
  | None => []
  | Some snd =>
      let position := seekTimeMs lastTime timeMs inst in
      let sampleEndTimeMs := (inject_Z (startTime (sample inst)) + sampleDurationMs snd)%Q in
      Seek (inject_Z position / 1000)%Q (soundId inst)
      :: (if (position <? 0)%Z || Qle_bool sampleEndTimeMs (inject_Z position)
          then (if playing snd then [Stop (soundId inst)] else [])
          else if (20 <? Z.abs (timeMs - lastTime))%Z
               then [Seek (inject_Z position / 1000)%Q (soundId inst)]
               else [])
  end.

(** public seek(timeMs): [forEach] over the active entries. *)
Definition seek (this : AudioObjectTimeline) (timeMs : Z) : list SoundCommand :=
  flat_map (fun entry => seekElement (lastTimeMs this) timeMs (instance (snd entry)))
           (activeElements (timeline this)).

(** public update(timeMs) *)
Definition update (this : AudioObjectTimeline) (timeMs : Z)
  : Completion (AudioObjectTimeline * list (Event AudioTimelineInstance)) :=
  match update (timeline this) timeMs true with
  | TypeError => TypeError
  | Diverged => Diverged
  | Normal (timeline', events) =>
      Normal ({| timeline := timeline'; lastTimeMs := timeMs |}, events)
  end.

Definition isStop (c : SoundCommand) : bool :=
  match c with Stop _ => true | Seek _ _ => false end.

End AudioLayer.

(** ** Data of the scenarios *)

Definition descriptor (startMs endMs : Z) (payload : nat) : TimelineElement nat :=
  {| startTimeMs := startMs; endTimeMs := endMs; build := fun _ => payload |}.

(** A[0,1000) B[500,1500) C[2000,3000) *)
Definition scenarioABC : list (TimelineElement nat) :=
  [descriptor 0 1000 1; descriptor 500 1500 2; descriptor 2000 3000 3].

(** The engine as it is used without options: the three hooks, no
    skipping. *)
Definition plainOptions {Instance : Type}
           (elements : list (TimelineElement Instance)) : TimelineOptions Instance :=
  {| optElements := elements;
     optCreateElement := true;
     optUpdateElement := true;
     optDestroyElement := true;
     optAllowSkippingElements := None |}.

(** The object after a sequence of calls. *)
Definition stateAfter {Instance : Type} (this : Timeline Instance) (forward : bool)
           (times : list Z) : Timeline Instance :=
  fold_left (fun s t => match update s t forward with
                        | Normal (s', _) => s'
                        | _ => s
                        end) times this.

(** Three windows with gaps between them. *)
Definition scenarioGaps : list (TimelineElement nat) :=
  [descriptor 0 10 1; descriptor 20 30 2; descriptor 40 50 3].

(** A long window over a short one. *)
Definition scenarioNested : list (TimelineElement nat) :=
  [descriptor 0 1000 1; descriptor 100 200 2].

(** A window of no duration, alone and before another one. *)
Definition scenarioInstant : list (TimelineElement nat) :=
  [descriptor 10 10 1].

Definition scenarioInstantThen : list (TimelineElement nat) :=
  [descriptor 10 10 1; descriptor 20 30 2].

(** A descriptor that ends before it starts. *)
Definition scenarioMalformed : list (TimelineElement nat) :=
  [descriptor 10 5 1].

(** A voice of a one-second sample that starts at 5000 ms and is playing,
    and a voice of a ten-second sample that starts at 0 ms. *)
Definition shortVoice : AudioLayer.AudioTimelineInstance :=
  {| AudioLayer.sample := {| AudioLayer.startTime := 5000; AudioLayer.volume := 100 |};
     AudioLayer.sampleVolume := 1;
     AudioLayer.sound := Some {| AudioLayer.duration := 1; AudioLayer.playing := true |};
     AudioLayer.soundId := Some 1 |}.

Definition longVoice : AudioLayer.AudioTimelineInstance :=
  {| AudioLayer.sample := {| AudioLayer.startTime := 0; AudioLayer.volume := 100 |};
     AudioLayer.sampleVolume := 1;
     AudioLayer.sound := Some {| AudioLayer.duration := 10; AudioLayer.playing := true |};
     AudioLayer.soundId := Some 2 |}.

Definition shortVoiceElement : TimelineElement AudioLayer.AudioTimelineInstance :=
  {| startTimeMs := 5000; endTimeMs := 6000; build := fun _ => shortVoice |}.

Definition longVoiceElement : TimelineElement AudioLayer.AudioTimelineInstance :=
  {| startTimeMs := 0; endTimeMs := 10000; build := fun _ => longVoice |}.

(** The audio layer after [update(timeMs)] on a new layer. *)
Definition audioAfter (elements : list (TimelineElement AudioLayer.AudioTimelineInstance))
           (timeMs : Z) : AudioLayer.AudioObjectTimeline :=
  {| AudioLayer.timeline := stateAfter (newTimeline (AudioLayer.audioOptions elements)) true [timeMs];
     AudioLayer.lastTimeMs := timeMs |}.

(** ** Vocabulary of the statements *)

Section Vocabulary.

Variable Instance : Type.

(** The entry that the scan makes from a descriptor. *)
Definition entryOf (e : TimelineElement Instance) : TimelineElementState Instance :=
  {| stateStartTimeMs := startTimeMs e;
     stateEndTimeMs := endTimeMs e;
     instance := build e tt |}.

(** The window of a descriptor is half open; [strictlyInside] leaves the
    start out as well. *)
Definition windowContains (e : TimelineElement Instance) (timeMs : Z) : Prop :=
  startTimeMs e <= timeMs < endTimeMs e.

Definition strictlyInside (e : TimelineElement Instance) (timeMs : Z) : Prop :=
  startTimeMs e < timeMs < endTimeMs e.

(** The cursor positions a scan has gone through, from [first] up or down
    to [current], which is not among them. *)
Definition cursorBetween (forward : bool) (first current : Z) : Prop :=
  if forward then first <= current else current <= first.

Definition visited (forward : bool) (first current k : Z) : Prop :=
  if forward then first <= k < current else current < k <= first.

(** The test of the scan body, read against the map the call started with. *)
Definition buildCondition (this : Timeline Instance)
           (active0 : JsMap.t (TimelineElementState Instance))
           (timeMs k : Z) (e : TimelineElement Instance) : Prop :=
  allowSkippingElements this = false \/
  (timeMs < endTimeMs e /\ JsMap.has k active0 = false).

(** The boundary test of the loop. *)
Definition crossed (forward : bool) (e : TimelineElement Instance) (timeMs : Z) : Prop :=
  if forward then startTimeMs e < timeMs else timeMs < endTimeMs e.

(** The events of a scan: factory calls for the indices in [built], and
    calls of the on-activate hook for their payloads. *)
Definition scanEvent (this : Timeline Instance) (timeMs : Z)
           (built : list Z) (ev : Event Instance) : Prop :=
  match ev with
  | Build k => In k built
  | CreateElement k x t =>
      createElement this = true /\ t = timeMs /\ In k built /\
      exists e, elementAt (elements this) k = Some e /\ x = build e tt
  | UpdateElement _ _ _ => False
  | DestroyElement _ _ _ => False
  end.

(** What holds of the scan when the cursor has gone from [first] to
    [index], having started with the map [active0]. *)
Definition scanInvariant (this : Timeline Instance) (timeMs : Z) (forward : bool)
           (first : Z) (active0 : JsMap.t (TimelineElementState Instance))
           (index : Z) (active : JsMap.t (TimelineElementState Instance))
           (log : list (Event Instance)) : Prop :=
  cursorBetween forward first index /\
  (forall k, In k (builtIndices log) -> visited forward first index k) /\
  (forall k, visited forward first index k ->
             exists e, elementAt (elements this) k = Some e /\
                       crossed forward e timeMs /\
                       (In k (builtIndices log) <-> buildCondition this active0 timeMs k e)) /\
  (forall k, JsMap.has k active = true <->
             JsMap.has k active0 = true \/ In k (builtIndices log)) /\
  NoDup (builtIndices log) /\
  (forall k st, In (k, st) active ->
                In (k, st) active0 \/
                (In k (builtIndices log) /\
                 exists e, elementAt (elements this) k = Some e /\ st = entryOf e)) /\
  (forall k, In k (builtIndices log) ->
             exists e, elementAt (elements this) k = Some e /\
                       In (k, entryOf e) active /\
                       (createElement this = true ->
                        In (CreateElement k (build e tt) timeMs) log)) /\
  (forall ev, In ev log -> scanEvent this timeMs (builtIndices log) ev) /\
  (forall k st, In (k, st) active0 -> ~ In k (builtIndices log) -> In (k, st) active).

(** The events of the reconciliation of the entries [entries]. *)
Definition reconcileEvent (this : Timeline Instance) (timeMs : Z)
           (entries : list (Z * TimelineElementState Instance))
           (ev : Event Instance) : Prop :=
  match ev with
  | Build _ => False
  | CreateElement _ _ _ => False
  | UpdateElement k x t =>
      updateElement this = true /\ t = timeMs /\
      exists st, In (k, st) entries /\ inWindow timeMs st = true /\ x = instance st
  | DestroyElement k x t =>
      destroyElement this = true /\ t = timeMs /\
      exists st, In (k, st) entries /\ inWindow timeMs st = false /\ x = instance st
  end.

(** The entries of the active set are those of their descriptors. *)
Definition entriesAgree (this : Timeline Instance) : Prop :=
  forall k st, In (k, st) (activeElements this) ->
               exists e, elementAt (elements this) k = Some e /\
                         stateStartTimeMs st = startTimeMs e /\
                         stateEndTimeMs st = endTimeMs e.

(** The order of the constructor's sort. *)
Definition startLe (a b : TimelineElement Instance) : Prop :=
  startTimeMs a <= startTimeMs b.

(** The array is in ascending order of start time. *)
Definition sortedByStart (arr : list (TimelineElement Instance)) : Prop :=
  forall i j ei ej, i <= j ->
                    elementAt arr i = Some ei -> elementAt arr j = Some ej ->
                    startTimeMs ei <= startTimeMs ej.

(** Whether a time that may be [undefined] lies strictly inside a window. *)
Definition insideAt (e : TimelineElement Instance) (time : option Z) : Prop :=
  match time with
  | Some t => strictlyInside e t
  | None => False
  end.

(** The state of a timeline that allows skipping and has only been played
    forward by a clock that never went back: either nothing was played, or
    the cursor separates the descriptors whose start the last time has
    passed from the others, and the active set holds the descriptors the
    last time is strictly inside of. *)
Definition forwardInvariant (this : Timeline Instance) : Prop :=
  allowSkippingElements this = true /\
  sortedByStart (elements this) /\
  entriesAgree this /\
  match lastTimeMs this with
  | None => nextElementIndex this = None /\ activeElements this = []
  | Some t =>
      exists c, nextElementIndex this = Some c /\
                0 <= c <= len (elements this) /\
                (forall j e, c <= j -> elementAt (elements this) j = Some e ->
                             t <= startTimeMs e) /\
                (forall j e, j < c -> elementAt (elements this) j = Some e ->
                             startTimeMs e < t \/ endTimeMs e <= t) /\
                (forall j e, elementAt (elements this) j = Some e ->
                             (JsMap.has j (activeElements this) = true <->
                              strictlyInside e t))
  end.

(** The time of a call is not before the time of the call before it. *)
Definition notBefore (last : option Z) (timeMs : Z) : Prop :=
  match last with
  | Some t => t <= timeMs
  | None => True
  end.

(** The time of the call before the [n]-th call of a sequence that starts
    from [this]. *)
Definition prevTime (this : Timeline Instance) (times : list Z) (n : nat) : option Z :=
  match n with
  | O => lastTimeMs this
  | S m => nth_error times m
  end.

(** The object as the [n]-th call of a sequence finds it: [this] for the
    first call, then the object that the call before has left. *)
Definition stateBefore (this : Timeline Instance)
           (trace : list (Timeline Instance * list (Event Instance))) (n : nat)
  : option (Timeline Instance) :=
  match n with
  | O => Some this
  | S m => option_map fst (nth_error trace m)
  end.

(** The state of a timeline that allows skipping, as forward calls of a
    clock that never goes back keep it whatever cursor they start from:
    every descriptor in the active set has the last time strictly inside
    its window. *)
Definition activeInside (this : Timeline Instance) : Prop :=
  allowSkippingElements this = true /\
  entriesAgree this /\
  forall j e, elementAt (elements this) j = Some e ->
              JsMap.has j (activeElements this) = true ->
              insideAt e (lastTimeMs this).

(** The end times follow the order of the array: no descriptor ends
    before one that stands before it.  On such an array the test
    [timeMs < endTimeMs] of the forward search, once true, stays true. *)
Definition endLe (a b : TimelineElement Instance) : Prop :=
  endTimeMs a <= endTimeMs b.

Definition endsInOrder (arr : list (TimelineElement Instance)) : Prop :=
  StronglySorted endLe arr.

End Vocabulary.

(** A clock that never goes back. *)
Fixpoint nondecreasing (times : list Z) : Prop :=
  match times with
  | [] => True
  | t :: rest =>
      match rest with
      | [] => True
      | t' :: _ => t <= t' /\ nondecreasing rest
      end
  end.

(** ** The broadcasts of the audio layer and the storyboard samples *)

(** The engine's forward call [timeline.update(timeMs)] made by the layer. *)
Definition engineForward {Instance : Type} (this : Timeline Instance) (timeMs : Z)
           (this' : Timeline Instance) (events : list (Event Instance)) : Prop :=
  update this timeMs true = Normal (this', events).

Module AudioCalls.

Import AudioLayer.

(** The calls on a sound handle besides the seeks.  An identifier that is
    left out or [undefined] is [None]; [Rate] and the [Volume] of the
    broadcast are called without one. *)
Inductive HowlCall : Type :=
| Play (id : option Z)
| Pause (id : option Z)
| Stop (id : option Z)
| Rate (rate : Q)
| Volume (volume : Q) (id : option Z).

(** [instance.sound?.method(...)]: nothing is called on a missing handle. *)
Definition onSound (inst : AudioTimelineInstance) (call : HowlCall) : list HowlCall :=
  match sound inst with
  | Some _ => [call]
  | None => []
  end.

(** [activeElements.forEach]: the calls, each with the key of its entry. *)
Definition forEachActive (this : AudioObjectTimeline)
           (callback : AudioTimelineInstance -> list HowlCall) : list (Z * HowlCall) :=
  flat_map (fun entry => map (pair (fst entry)) (callback (instance (snd entry))))
           (activeElements (timeline this)).

(** public play() *)
Definition play (this : AudioObjectTimeline) : list (Z * HowlCall) :=
  forEachActive this (fun inst => onSound inst (Play (soundId inst))).

(** public pause() *)
Definition pause (this : AudioObjectTimeline) : list (Z * HowlCall) :=
  forEachActive this (fun inst => onSound inst (Pause (soundId inst))).

(** public rate(rate) *)
Definition rate (this : AudioObjectTimeline) (r : Q) : list (Z * HowlCall) :=
  forEachActive this (fun inst => onSound inst (Rate r)).

(** public volume(volume) *)
Definition volume (this : AudioObjectTimeline) (v : Q) : list (Z * HowlCall) :=
  forEachActive this (fun inst => onSound inst (Volume (sampleVolume inst * v)%Q None)).

(** private destroyElement, the on-deactivate hook of the layer. *)
Definition destroyElement (inst : AudioTimelineInstance) : list HowlCall :=
  onSound inst (Stop (soundId inst)).

(** The calls that the hook makes during an [update] with the events
    [events]. *)
Definition destroyCalls (events : list (Event AudioTimelineInstance))
  : list (Z * HowlCall) :=
  flat_map (fun ev => match ev with
                      | DestroyElement k inst _ => map (pair k) (destroyElement inst)
                      | _ => []
                      end) events.

(** A storyboard sample with the path of its file, a loaded sound with the
    identifier that its next [play()] returns, and [Map<string, Howl>]. *)
Record SampleObject : Type := {
  object : StoryboardSample;
  filePath : String.string
}.

Record LoadedHowl : Type := {
  handle : Howl;
  nextSoundId : Z
}.

Definition samplesGet (samples : list (String.string * LoadedHowl))
           (path : String.string) : option LoadedHowl :=
  match find (fun entry => String.eqb (fst entry) path) samples with
  | Some entry => Some (snd entry)
  | None => None
  end.

(** class PlayableStoryboardSample: the constructor returns the instance
    and the calls it has made on the sound. *)
Definition playableStoryboardSample (o : SampleObject)
           (samples : list (String.string * LoadedHowl))
  : AudioTimelineInstance * list HowlCall :=
  let sampleVolume := (inject_Z (AudioLayer.volume (object o)) / 100)%Q in
  match samplesGet samples (filePath o) with
  | None =>
      ({| sample := object o;
          sampleVolume := sampleVolume;
          sound := None;
          soundId := None |}, [])
  | Some loaded =>
      ({| sample := object o;
          sampleVolume := sampleVolume;
          sound := Some (handle loaded);
          soundId := Some (nextSoundId loaded) |},
       [Play None; Volume sampleVolume (Some (nextSoundId loaded))])
  end.

(** An entry that has a sound. *)
Definition audible (entry : Z * TimelineElementState AudioTimelineInstance) : bool :=
  isSome (sound (instance (snd entry))).

(** A broadcast addresses every audible active entry once, with the call
    [call] of its instance, and no other entry. *)
Definition addressesAudible (this : AudioObjectTimeline)
           (call : AudioTimelineInstance -> HowlCall)
           (calls : list (Z * HowlCall)) : Prop :=
  calls = map (fun entry => (fst entry, call (instance (snd entry))))
              (filter audible (activeElements (timeline this))) /\
  NoDup (map fst calls).

End AudioCalls.

(** ** The autoplay cursor (class CursorAutoplay, the version with the
    binary search)

    The times of the hit objects and of the calls are numbers; they are
    modelled as rationals, with exact arithmetic. *)

Module CursorAutoplay.

(** The classes of hit object that [getCursorState] tells apart with
    [instanceof]; [Unknown] is any other object. *)
Inductive HitKind : Type := Circle | Slider | Spinner | Unknown.

(** StandardHitObject (osu-standard-stable), as far as the cursor reads its
    times.  [endTime] is read of sliders and spinners, [duration] of
    sliders. *)
Record StandardHitObject : Type := {
  kind : HitKind;
  startTime : Q;
  endTime : Q;
  duration : Q;
  timePreempt : Q
}.

(** The position of the cursor, as the expression that computes it: the
    stacked start or end position of a hit object, a point of the path of
    a slider at the progress [timeRelativeMs / duration], or the
    interpolation between two hit objects at the eased progress
    [elapsedMs / travelDuration].  The quotients are left unevaluated. *)
Inductive CursorPosition : Type :=
| StackedStart (index : Z)
| StackedEnd (index : Z)
| OnPath (index : Z) (timeRelativeMs : Q) (durationMs : Q)
| Travelling (elapsedMs : Q) (travelDuration : Q) (from to : Z).

Record CursorState : Type := {
  pos : CursorPosition;
  expanded : bool;
  warned : bool
}.

Record Cursor : Type := {
  hitObjects : list StandardHitObject;
  nextHitObjectIndex : Z
}.

Definition MAX_CLICK_PROPORTION : Q := 1 # 2.
Definition MAX_CLICK_DURATION : Q := 50.

Definition mathMin (a b : Q) : Q := if Qle_bool a b then a else b.

(** [a < b] on numbers. *)
Definition lessThan (a b : Q) : bool := negb (Qle_bool b a).

(** private getNextHitObjectIndex *)
Definition getNextHitObjectIndex (this : Cursor) (timeMs : Q) : Completion Z :=
  let index := nextHitObjectIndex this in
  let keep :=
    if index =? 0 then Normal false
    else match elementAt (hitObjects this) (index - 1) with
         | None => TypeError
         | Some h => Normal (Qle_bool (startTime h) timeMs)
         end in
  match keep with
  | TypeError => TypeError
  | Diverged => Diverged
  | Normal true => Normal index
  | Normal false =>
      let found := findIndex (hitObjects this) (fun h => lessThan timeMs (startTime h)) in
      Normal (if 0 <=? found then found else 0)
  end.

(** The loop of [getCursorState]: the cursor moves on while it is inside
    the array and the object at it has started. *)
Fixpoint advance (fuel : nat) (objects : list StandardHitObject) (index : Z) (timeMs : Q)
  : Completion Z :=
  match fuel with
  | O => Diverged
  | S fuel' =>
      if index <? len objects
      then match elementAt objects index with
           | None => TypeError
           | Some h =>
               if Qle_bool (startTime h) timeMs
               then advance fuel' objects (index + 1) timeMs
               else Normal index
           end
      else Normal index
  end.

Definition currentEndTime (h : StandardHitObject) : Q * bool :=
  match kind h with
  | Slider => (endTime h, false)
  | Spinner => (endTime h, false)
  | Circle => (startTime h, false)
  | Unknown => (startTime h, true)
  end.

Definition isSlider (h : StandardHitObject) : bool :=
  match kind h with Slider => true | _ => false end.

(** The state for the cursor [index] that the loop has left. *)
Definition stateAt (objects : list StandardHitObject) (index : Z) (timeMs : Q)
  : Completion CursorState :=
  let nextHitObject := elementAt objects index in
  if index =? 0
  then match nextHitObject with
       | None => TypeError
       | Some _ => Normal {| pos := StackedStart 0; expanded := false; warned := false |}
       end
  else
    match elementAt objects (index - 1) with
    | None => TypeError
    | Some currentHitObject =>
        let '(currentEnd, warning) := currentEndTime currentHitObject in
        if lessThan timeMs currentEnd
        then
          if isSlider currentHitObject
          then Normal {| pos := OnPath (index - 1)
                                       (timeMs - startTime currentHitObject)
                                       (duration currentHitObject);
                         expanded := true; warned := warning |}
          else Normal {| pos := StackedEnd (index - 1);
                         expanded := true; warned := warning |}
        else
          match nextHitObject with
          | Some next =>
              let clickDuration :=
                if isSlider currentHitObject then 0%Q
                else mathMin MAX_CLICK_DURATION
                             ((startTime next - currentEnd) * MAX_CLICK_PROPORTION) in
              let clickEnd := (currentEnd + clickDuration)%Q in
              let travelEnd := startTime next in
              let travelDuration :=
                mathMin (timePreempt next) (travelEnd - currentEnd) in
              let travelStart := (travelEnd - travelDuration)%Q in
              Normal {| pos := Travelling (timeMs - travelStart) travelDuration
                                          (index - 1) index;
                        expanded := lessThan timeMs clickEnd;
                        warned := warning |}
          | None =>
              Normal {| pos := StackedEnd (index - 1);
                        expanded := false; warned := warning |}
          end
    end.

(** getCursorState(timeMs): the cursor is stored, the state returned. *)
Definition getCursorState (this : Cursor) (timeMs : Q) : Completion (Cursor * CursorState) :=
  match getNextHitObjectIndex this timeMs with
  | TypeError => TypeError
  | Diverged => Diverged
  | Normal first =>
      match advance (S (length (hitObjects this))) (hitObjects this) first timeMs with
      | TypeError => TypeError
      | Diverged => Diverged
      | Normal index =>
          match stateAt (hitObjects this) index timeMs with
          | TypeError => TypeError
          | Diverged => Diverged
          | Normal state =>
              Normal ({| hitObjects := hitObjects this; nextHitObjectIndex := index |},
                      state)
          end
      end
  end.

(** update(timeMs): the state of the cursor is computed, which may raise;
    its position and [expanded] are written to the sprite, and the update
    of the superclass follows.  The result is the cursor and the state
    written. *)
Definition update (this : Cursor) (timeMs : Q) : Completion (Cursor * CursorState) :=
  match getCursorState this timeMs with
  | TypeError => TypeError
  | Diverged => Diverged
  | Normal (this', cursorState) => Normal (this', cursorState)
  end.

(** The constructor: the cursor starts at 0. *)
Definition constructor (objects : list StandardHitObject) : Cursor :=
  {| hitObjects := objects; nextHitObjectIndex := 0 |}.

(** The hit objects are in ascending order of start time. *)
Definition sortedHits (objects : list StandardHitObject) : Prop :=
  forall i j hi hj, i <= j ->
                    elementAt objects i = Some hi -> elementAt objects j = Some hj ->
                    (startTime hi <= startTime hj)%Q.

(** The index that separates the objects that have started from the
    others. *)
Definition separates (objects : list StandardHitObject) (timeMs : Q) (index : Z) : Prop :=
  0 <= index <= len objects /\
  (forall j h, j < index -> elementAt objects j = Some h -> (startTime h <= timeMs)%Q) /\
  (forall j h, index <= j -> elementAt objects j = Some h -> (timeMs < startTime h)%Q).

Definition circleAt (t : Q) : StandardHitObject :=
  {| kind := Circle; startTime := t; endTime := t; duration := 0; timePreempt := 600 |}.

Definition sliderAt (t e : Q) : StandardHitObject :=
  {| kind := Slider; startTime := t; endTime := e; duration := e - t; timePreempt := 600 |}.

(** A circle at 1000, a slider from 2000 to 2500, a circle at 4000. *)
Definition sampleMap : list StandardHitObject :=
  [circleAt 1000; sliderAt 2000 2500; circleAt 4000].

End CursorAutoplay.

(** ** The game clock (class StandardGame)

    The times of the game are sums and products of frame times and rates;
    they are modelled as rationals, with exact arithmetic. *)

Module StandardGame.

Local Open Scope Q_scope.

(** The collaborators that the game drives: the storyboard video and its
    four layers, the hit objects, the autoplay cursor, the progress graph. *)
Inductive Target : Type :=
| Video | Background | Pass | Foreground | Overlay
| HitObjects | CursorAuto | ProgressGraph.

(** The calls of the game on its collaborators and on the audio. *)
Inductive Call : Type :=
| Update (target : Target) (timeMs : Q)
| Seek (target : Target) (timeMs : Q)
| Rate (target : Target) (rate : Q)
| Pause (target : Target)
| Play (target : Target)
| Volume (target : Target) (volume : Q)
| AudioPlay
| AudioPause
| AudioStop
| AudioSeek (seconds : Q)
| AudioRate (rate : Q)
| AudioVolume (volume : Q)
| MoveCursor (cursorState : CursorAutoplay.CursorState)
| Rescale
| ScheduleSeek
| Log (percentiles : list Q) (min max mean : Q).

(** The fields of the game that the clock uses; [tickerSpeed] is
    [app.ticker.speed], [cursorAutoplay] the cursor made by the
    constructor from the hit objects of the beatmap. *)
Record Game : Type := {
  cursorAutoplay : CursorAutoplay.Cursor;
  isAudioStarted : bool;
  isPaused : bool;
  timeElapsedMs : Q;
  lastTimeElapsedMs : option Q;
  unfocusedTimeMs : option Q;
  startTimeMs : Q;
  endTimeMs : Q;
  frameTimes : list Q;
  tickerSpeed : Q
}.

(** The audio as a call finds it: [duration()], [playing()] and the
    position [seek()]. *)
Record Audio : Type := {
  duration : Q;
  playing : bool;
  position : Q
}.

(** What a frame reads from outside: [app.ticker.elapsedMS], [Date.now()]. *)
Record Frame : Type := {
  elapsedMS : Q;
  now : Q
}.

Definition GAME_MIN_RATE : Q := 1 # 4.
Definition GAME_MAX_RATE : Q := 3.

Definition layers : list Target := [Video; Background; Pass; Foreground; Overlay].

(** The collaborators that [tick] updates after the cursor. *)
Definition updatedAfterCursor : list Target :=
  [Video; Background; Pass; Foreground; Overlay; ProgressGraph].

Definition setTime (this : Game) (t : Q) : Game :=
  {| cursorAutoplay := cursorAutoplay this;
     isAudioStarted := isAudioStarted this; isPaused := isPaused this;
     timeElapsedMs := t; lastTimeElapsedMs := lastTimeElapsedMs this;
     unfocusedTimeMs := unfocusedTimeMs this; startTimeMs := startTimeMs this;
     endTimeMs := endTimeMs this; frameTimes := frameTimes this;
     tickerSpeed := tickerSpeed this |}.

Definition setLastTime (this : Game) (t : option Q) : Game :=
  {| cursorAutoplay := cursorAutoplay this;
     isAudioStarted := isAudioStarted this; isPaused := isPaused this;
     timeElapsedMs := timeElapsedMs this; lastTimeElapsedMs := t;
     unfocusedTimeMs := unfocusedTimeMs this; startTimeMs := startTimeMs this;
     endTimeMs := endTimeMs this; frameTimes := frameTimes this;
     tickerSpeed := tickerSpeed this |}.

Definition setUnfocused (this : Game) (u : option Q) : Game :=
  {| cursorAutoplay := cursorAutoplay this;
     isAudioStarted := isAudioStarted this; isPaused := isPaused this;
     timeElapsedMs := timeElapsedMs this; lastTimeElapsedMs := lastTimeElapsedMs this;
     unfocusedTimeMs := u; startTimeMs := startTimeMs this;
     endTimeMs := endTimeMs this; frameTimes := frameTimes this;
     tickerSpeed := tickerSpeed this |}.

Definition setAudioStarted (this : Game) (b : bool) : Game :=
  {| cursorAutoplay := cursorAutoplay this;
     isAudioStarted := b; isPaused := isPaused this;
     timeElapsedMs := timeElapsedMs this; lastTimeElapsedMs := lastTimeElapsedMs this;
     unfocusedTimeMs := unfocusedTimeMs this; startTimeMs := startTimeMs this;
     endTimeMs := endTimeMs this; frameTimes := frameTimes this;
     tickerSpeed := tickerSpeed this |}.

Definition setPaused (this : Game) (b : bool) : Game :=
  {| cursorAutoplay := cursorAutoplay this;
     isAudioStarted := isAudioStarted this; isPaused := b;
     timeElapsedMs := timeElapsedMs this; lastTimeElapsedMs := lastTimeElapsedMs this;
     unfocusedTimeMs := unfocusedTimeMs this; startTimeMs := startTimeMs this;
     endTimeMs := endTimeMs this; frameTimes := frameTimes this;
     tickerSpeed := tickerSpeed this |}.

Definition setFrameTimes (this : Game) (frames : list Q) : Game :=
  {| cursorAutoplay := cursorAutoplay this;
     isAudioStarted := isAudioStarted this; isPaused := isPaused this;
     timeElapsedMs := timeElapsedMs this; lastTimeElapsedMs := lastTimeElapsedMs this;
     unfocusedTimeMs := unfocusedTimeMs this; startTimeMs := startTimeMs this;
     endTimeMs := endTimeMs this; frameTimes := frames;
     tickerSpeed := tickerSpeed this |}.

Definition setTickerSpeed (this : Game) (speed : Q) : Game :=
  {| cursorAutoplay := cursorAutoplay this;
     isAudioStarted := isAudioStarted this; isPaused := isPaused this;
     timeElapsedMs := timeElapsedMs this; lastTimeElapsedMs := lastTimeElapsedMs this;
     unfocusedTimeMs := unfocusedTimeMs this; startTimeMs := startTimeMs this;
     endTimeMs := endTimeMs this; frameTimes := frameTimes this;
     tickerSpeed := speed |}.

Definition setCursorAutoplay (this : Game) (cursor : CursorAutoplay.Cursor) : Game :=
  {| cursorAutoplay := cursor;
     isAudioStarted := isAudioStarted this; isPaused := isPaused this;
     timeElapsedMs := timeElapsedMs this; lastTimeElapsedMs := lastTimeElapsedMs this;
     unfocusedTimeMs := unfocusedTimeMs this; startTimeMs := startTimeMs this;
     endTimeMs := endTimeMs this; frameTimes := frameTimes this;
     tickerSpeed := tickerSpeed this |}.

(** protected getElapsedMs() *)
Definition getElapsedMs (this : Game) (frame : Frame) : Q * Game :=
  if isPaused this then (0, this)
  else
    match unfocusedTimeMs this with
    | None => (elapsedMS frame * tickerSpeed this, this)
    | Some unfocused =>
        let elapsedMs := now frame - unfocused in
        (elapsedMs * tickerSpeed this, setUnfocused this None)
    end.

(** [frameTimes.sort((a, b) => a - b)]: ascending. *)
Fixpoint insertAscending (x : Q) (sorted : list Q) : list Q :=
  match sorted with
  | [] => [x]
  | y :: rest =>
      if Qle_bool y x then y :: insertAscending x rest else x :: y :: rest
  end.

Definition sortAscending (frames : list Q) : list Q :=
  fold_left (fun sorted x => insertAscending x sorted) frames [].

Definition Ps : list Q := [50; 90; 99; 999 # 10; 9999 # 100].

(** [Math.floor((totalFrames * P) / 100)] *)
Definition frameTimeIndex (totalFrames : nat) (P : Q) : Z :=
  Qfloor (inject_Z (Z.of_nat totalFrames) * P / 100).

(** The loop over [Ps]: [frameTimes[frameTimeIndex].toFixed(2)] raises when
    there is no such frame time. *)
Fixpoint readPercentiles (sorted : list Q) (totalFrames : nat) (ps : list Q)
  : Completion (list Q) :=
  match ps with
  | [] => Normal []
  | P :: rest =>
      match elementAt sorted (frameTimeIndex totalFrames P) with
      | None => TypeError
      | Some frameTime =>
          match readPercentiles sorted totalFrames rest with
          | Normal logged => Normal (frameTime :: logged)
          | TypeError => TypeError
          | Diverged => Diverged
          end
      end
  end.

(** public summarize(): the values it logs, before their formatting;
    [reduce] without an initial value raises on an empty array. *)
Definition summarize (this : Game) : Completion (Game * list Call) :=
  let sorted := sortAscending (frameTimes this) in
  let totalFrames := length sorted in
  match readPercentiles sorted totalFrames Ps with
  | TypeError => TypeError
  | Diverged => Diverged
  | Normal percentiles =>
      let min := match elementAt sorted 0%Z with Some x => x | None => 0 end in
      let max := match elementAt sorted (len sorted - 1)%Z with Some x => x | None => 0 end in
      match sorted with
      | [] => TypeError
      | first :: rest =>
          let mean :=
            fold_left Qplus rest first
            / (if Nat.eqb totalFrames 0%nat then 1 else inject_Z (Z.of_nat totalFrames)) in
          Normal (setFrameTimes this [], [Log percentiles min max mean])
      end
  end.

(** The first block of [tick]: when the time differs from the last time
    noted, the hit objects are updated, then the cursor, whose update may
    raise and then ends the call, then the video, the four layers and the
    progress graph.  The update of the cursor writes the state it has
    computed ([MoveCursor]) and goes on with the update of its superclass
    ([Update CursorAuto]).  An exception ends [tick] there: the outcome
    [TypeError] does not record what the call had done before it. *)
Definition updateIfChanged (this : Game) : Completion (Game * list Call) :=
  let time := timeElapsedMs this in
  let changed :=
    match lastTimeElapsedMs this with
    | None => true
    | Some last => negb (Qeq_bool last time)
    end in
  if changed
  then match CursorAutoplay.update (cursorAutoplay this) time with
       | TypeError => TypeError
       | Diverged => Diverged
       | Normal (cursor, cursorState) =>
           Normal (setCursorAutoplay this cursor,
                   Update HitObjects time :: MoveCursor cursorState
                   :: Update CursorAuto time
                   :: map (fun target => Update target time) updatedAfterCursor)
       end
  else Normal (this, []).

(** The second block: the audio is played once, from 0 ms on. *)
Definition startAudioIfDue (this : Game) : Game * list Call :=
  if negb (isPaused this) && negb (isAudioStarted this) && Qle_bool 0 (timeElapsedMs this)
  then (setAudioStarted this true, [AudioPlay])
  else (this, []).

(** The third block: before the end the frame time is recorded, unless
    the game is paused; from the end on the recorded frame times, if any,
    are summarized. *)
Definition recordFrameTime (this : Game) (frame : Frame) : Completion (Game * list Call) :=
  if negb (Qle_bool (endTimeMs this) (timeElapsedMs this))
  then Normal (if negb (isPaused this)
               then setFrameTimes this (frameTimes this ++ [elapsedMS frame])
               else this, [])
  else match frameTimes this with
       | [] => Normal (this, [])
       | _ :: _ => summarize this
       end.

(** protected tick() *)
Definition tick (this : Game) (audio : Audio) (frame : Frame)
  : Completion (Game * list Call) :=
  let '(elapsed, this1) := getElapsedMs this frame in
  let this2 := setTime this1 (timeElapsedMs this1 + elapsed) in
  match updateIfChanged this2 with
  | TypeError => TypeError
  | Diverged => Diverged
  | Normal (this3, calls1) =>
      let '(this4, calls2) := startAudioIfDue this3 in
      match recordFrameTime this4 frame with
      | TypeError => TypeError
      | Diverged => Diverged
      | Normal (this5, calls3) =>
          Normal (setLastTime this5 (Some (timeElapsedMs this5)),
                  Rescale :: calls1 ++ calls2 ++ calls3)
      end
  end.

Section WithMathUtils.

(** [MathUtils.clamp] and [MathUtils.clamp01] of the package osu-classes
    are not part of the sources; they are taken as they come. *)
Variable clamp : Q -> Q -> Q -> Q.
Variable clamp01 : Q -> Q.

(** public seek(timeMs?) *)
Definition seek (this : Game) (audio : Audio) (timeMs : option Q) : Game * list Call :=
  let clampedTimeMs :=
    clamp (match timeMs with Some t => t | None => timeElapsedMs this end)
          (startTimeMs this) (endTimeMs this) in
  let this1 := setTime this clampedTimeMs in
  let beforeAudioStart := negb (Qle_bool 0 clampedTimeMs) in
  let afterAudioEnd := Qle_bool (duration audio * 1000) clampedTimeMs in
  let '(this2, audioCalls) :=
    if beforeAudioStart || afterAudioEnd
    then (setAudioStarted this1 afterAudioEnd, [AudioStop])
    else (setAudioStarted this1 (negb (Qle_bool (position audio) 0)),
          [AudioSeek (timeElapsedMs this1 / 1000)]) in
  (this2, audioCalls ++ map (fun target => Seek target clampedTimeMs) layers).

(** public rate(rate) *)
Definition rate (this : Game) (r : Q) : Game * list Call :=
  let clampedRate := clamp r GAME_MIN_RATE GAME_MAX_RATE in
  (setTickerSpeed this clampedRate,
   map (fun target => Rate target clampedRate) layers
   ++ [AudioRate clampedRate; ScheduleSeek]).

(** public pause() *)
Definition pause (this : Game) (audio : Audio) : Game * list Call :=
  (setPaused this true,
   map Pause layers ++ (if playing audio then [AudioPause] else [])).

(** public play() *)
Definition play (this : Game) (audio : Audio) : Game * list Call :=
  let this1 :=
    if Qle_bool (endTimeMs this) (timeElapsedMs this)
    then setTime this (startTimeMs this) else this in
  let '(this2, audioCalls) :=
    if negb (playing audio)
    then (setAudioStarted this1 true, [AudioPlay])
    else (this1, []) in
  (setPaused this2 false, map Play layers ++ audioCalls ++ [ScheduleSeek]).

(** public volume(volume) *)
Definition volume (this : Game) (v : Q) : Game * list Call :=
  let clampedVolume := clamp01 v in
  (this, map (fun target => Volume target clampedVolume) layers
         ++ [AudioVolume clampedVolume]).

End WithMathUtils.

(** The bounds of the clock that the constructor computes from the
    storyboard ([earliestEventTime], [latestEventTime], which may be
    missing), the beatmap ([totalLength]) and the audio. *)
Definition qMin (a b : Q) : Q := if Qle_bool a b then a else b.
Definition qMax (a b : Q) : Q := if Qle_bool a b then b else a.

Definition startBound (earliestEventTime : option Q) : Q :=
  qMin 0 (match earliestEventTime with Some t => t | None => 0 end).

Definition endBound (audio : Audio) (totalLength : Q) (latestEventTime : option Q) : Q :=
  qMax (duration audio * 1000)
       (qMax totalLength (match latestEventTime with Some t => t | None => 0 end)).

(** A clamp, to instantiate [MathUtils.clamp] with. *)
Definition clampBetween (value lo hi : Q) : Q := qMax lo (qMin hi value).

(** What the statements need of a clamp. *)
Definition clamps (clamp : Q -> Q -> Q -> Q) : Prop :=
  forall value lo hi, lo <= hi -> lo <= clamp value lo hi /\ clamp value lo hi <= hi.

(** A game in the middle of a song of ten seconds. *)
Definition sampleAudio : Audio := {| duration := 10; playing := true; position := 2 |}.

Definition sampleGame : Game :=
  {| cursorAutoplay := CursorAutoplay.constructor CursorAutoplay.sampleMap;
     isAudioStarted := true; isPaused := false;
     timeElapsedMs := 2000; lastTimeElapsedMs := Some 2000;
     unfocusedTimeMs := None;
     startTimeMs := startBound (Some (-500));
     endTimeMs := endBound sampleAudio 9000 None;
     frameTimes := [16; 17; 16];
     tickerSpeed := 1 |}.

Definition sampleFrame : Frame := {| elapsedMS := 16; now := 1000000 |}.

(** The calls that update a collaborator. *)
Definition isUpdate (c : Call) : bool :=
  match c with Update _ _ => true | MoveCursor _ => true | _ => false end.

(** The time that a tick reaches, and whether it differs from the last
    time noted, which is the test of [tick] for its updates. *)
Definition reachedTime (this : Game) (frame : Frame) : Q :=
  timeElapsedMs this + fst (getElapsedMs this frame).

Definition timeChanged (this : Game) (frame : Frame) : bool :=
  match lastTimeElapsedMs this with
  | None => true
  | Some last => negb (Qeq_bool last (reachedTime this frame))
  end.

(** The cursor of the game is inside the array of the hit objects or at
    its end, as the constructor and every update leave it. *)
Definition cursorInRange (this : Game) : Prop :=
  (0 <= CursorAutoplay.nextHitObjectIndex (cursorAutoplay this)
   <= len (CursorAutoplay.hitObjects (cursorAutoplay this)))%Z.

(** A game without hit objects, at its first tick. *)
Definition emptyGame : Game :=
  {| cursorAutoplay := CursorAutoplay.constructor [];
     isAudioStarted := false; isPaused := false;
     timeElapsedMs := 0; lastTimeElapsedMs := None;
     unfocusedTimeMs := None;
     startTimeMs := 0;
     endTimeMs := 10000;
     frameTimes := [];
     tickerSpeed := 1 |}.

(** Ascending order. *)
Fixpoint ascending (l : list Q) : Prop :=
  match l with
  | [] => True
  | x :: rest => (forall y, In y rest -> x <= y)%Q /\ ascending rest
  end.

End StandardGame.

(** ** The display-object layer (class DisplayObjectTimeline) *)

Module DisplayObjects.

Section Layer.

Variable Instance : Type.

(** The container and its engine.  Every call of a factory gives a new
    display object; a child of the container is named by the key of the
    entry it was built for, the first child being the one at index 0. *)
Record DisplayObjectTimeline : Type := {
  timeline : Timeline Instance;
  children : list Z
}.

(** constructor(elements): the three hooks, skipping allowed. *)
Definition constructor (elements : list (TimelineElement Instance))
  : Completion DisplayObjectTimeline :=
  match constructor (displayObjectOptions elements) with
  | Normal engine => Normal {| timeline := engine; children := [] |}
  | TypeError => TypeError
  | Diverged => Diverged
  end.

(** removeChild(instance), for the payload of the entry of key [k].  The
    payloads are put at the front of the children, so the payload of the
    entry, the last one built for [k], is the first child named [k]; a
    payload that is no child is left alone. *)
Fixpoint removeChild (k : Z) (children : list Z) : list Z :=
  match children with
  | [] => []
  | child :: rest => if child =? k then rest else child :: removeChild k rest
  end.

(** What the hooks do to the children: [createElement] is
    [addChildAt(instance, 0)], [destroyElement] destroys the payload and is
    [removeChild(instance)], [updateElement] is [instance.update(timeMs)]. *)
Definition applyHook (children : list Z) (ev : Event Instance) : list Z :=
  match ev with
  | Build _ => children
  | CreateElement k _ _ => k :: children
  | UpdateElement _ _ _ => children
  | DestroyElement k _ _ => removeChild k children
  end.

(** public update(timeMs) *)
Definition update (this : DisplayObjectTimeline) (timeMs : Z)
  : Completion (DisplayObjectTimeline * list (Event Instance)) :=
  match update (timeline this) timeMs true with
  | TypeError => TypeError
  | Diverged => Diverged
  | Normal (engine, events) =>
      Normal ({| timeline := engine;
                 children := fold_left applyHook events (children this) |}, events)
  end.

(** The keys handed to the on-activate hook, in order. *)
Fixpoint createdKeys (events : list (Event Instance)) : list Z :=
  match events with
  | [] => []
  | CreateElement k _ _ :: rest => k :: createdKeys rest
  | _ :: rest => createdKeys rest
  end.

(** The children are the payloads of the active entries, each once. *)
Definition inSync (this : DisplayObjectTimeline) : Prop :=
  allowSkippingElements (timeline this) = true /\
  createElement (timeline this) = true /\
  destroyElement (timeline this) = true /\
  entriesAgree (timeline this) /\
  NoDup (children this) /\
  forall k, In k (children this) <-> JsMap.has k (activeElements (timeline this)) = true.

End Layer.

End DisplayObjects.

(** ** The sample loader of src/play/loader/sample-loader.ts *)

Module SampleLoader.

(** A string is the sequence of its code units. *)
Definition JsString : Type := list Z.

Definition dot : Z := 46.

(** s.lastIndexOf(unit): the index of the last occurrence, -1 without
    one. *)
Fixpoint lastIndexOfFrom (unit : Z) (s : JsString) (index found : Z) : Z :=
  match s with
  | [] => found
  | c :: rest =>
      lastIndexOfFrom unit rest (index + 1) (if c =? unit then index else found)
  end.

Definition lastIndexOf (unit : Z) (s : JsString) : Z :=
  lastIndexOfFrom unit s 0 (-1).

(** s.substring(start): from [start] to the end. *)
Definition substring (s : JsString) (start : Z) : JsString :=
  skipn (Z.to_nat start) s.

(** name.substring(name.lastIndexOf(".") + 1) *)
Definition formatOf (name : JsString) : JsString :=
  substring name (lastIndexOf dot name + 1).

(** The options handed to [loadSound]. *)
Record SoundOptions : Type := {
  src : JsString;
  html5 : bool;
  preload : bool;
  format : JsString
}.

(** One call of the callback: the fraction, and the two numbers of the
    message. *)
Record Progress : Type := {
  fraction : Q;
  current : Z;
  total : Z
}.

Section Loader.

Variables Blob Howl : Type.

(** [URL.createObjectURL], the constant [isUsingIOS], and [loadSound],
    whose promise is fulfilled with a sound or rejected. *)
Variable createObjectURL : Blob -> JsString.
Variable isUsingIOS : bool.
Variable loadSound : SoundOptions -> option Howl.

Definition optionsFor (entry : JsString * Blob) : SoundOptions :=
  {| src := createObjectURL (snd entry);
     html5 := negb isUsingIOS;
     preload := true;
     format := formatOf (fst entry) |}.

(** samples.set(name, howl) *)
Fixpoint setSample (name : JsString) (howl : Howl)
         (samples : list (JsString * Howl)) : list (JsString * Howl) :=
  match samples with
  | [] => [(name, howl)]
  | (n, h) :: rest =>
      if list_eq_dec Z.eq_dec n name
      then (name, howl) :: rest
      else (n, h) :: setSample name howl rest
  end.

(** The loop over [input.entries()]; a rejected load ends the function,
    its promise rejected. *)
Fixpoint loadLoop (size : Z) (entries : list (JsString * Blob))
         (samples : list (JsString * Howl)) (decoded : Z) (calls : list Progress)
  : list Progress * option (list (JsString * Howl)) :=
  match entries with
  | [] => (calls, Some samples)
  | entry :: rest =>
      let calls' :=
        calls ++ [{| fraction := (inject_Z decoded / inject_Z size)%Q;
                     current := decoded + 1;
                     total := size |}] in
      match loadSound (optionsFor entry) with
      | None => (calls', None)
      | Some howl =>
          loadLoop size rest (setSample (fst entry) howl samples) (decoded + 1) calls'
      end
  end.

(** loadSamples(input, cb): the calls of [cb] and the map returned. *)
Definition loadSamples (input : list (JsString * Blob))
  : list Progress * option (list (JsString * Howl)) :=
  loadLoop (len input) input [] 0 [].

(** A sample is the sound loaded for an entry of the input, under its
    name. *)
Definition loadedFrom (entry : JsString * Blob) (sample : JsString * Howl) : Prop :=
  fst sample = fst entry /\ loadSound (optionsFor entry) = Some (snd sample).

End Loader.

(** s.wav, and a name without a dot *)
Definition nameWav : JsString := [115; 46; 119; 97; 118].
Definition nameBare : JsString := [104; 105; 116].

End SampleLoader.

(** ** Vocabulary of the further properties *)

Section EventKinds.

Variable Instance : Type.

(** The events of the scan, and those of the reconciliation. *)
Definition isActivation (ev : Event Instance) : bool :=
  match ev with
  | Build _ => true
  | CreateElement _ _ _ => true
  | UpdateElement _ _ _ => false
  | DestroyElement _ _ _ => false
  end.

Definition isReconciliation (ev : Event Instance) : bool :=
  negb (isActivation ev).

(** The time handed to a hook. *)
Definition hookTime (ev : Event Instance) : option Z :=
  match ev with
  | Build _ => None
  | CreateElement _ _ t => Some t
  | UpdateElement _ _ t => Some t
  | DestroyElement _ _ t => Some t
  end.

(** The entries of the active set are the ones the scan makes from their
    descriptors, payload included. *)
Definition entriesBuilt (this : Timeline Instance) : Prop :=
  forall k st, In (k, st) (activeElements this) ->
               exists e, elementAt (elements this) k = Some e /\ st = entryOf e.

(** The descriptors of an array that start at [s], in the order of the
    array. *)
Definition startingAt (s : Z) (arr : list (TimelineElement Instance))
  : list (TimelineElement Instance) :=
  filter (fun e => startTimeMs e =? s) arr.

End EventKinds.

(** * Properties *)

Unset Implicit Arguments.

(** ** Array reads *)

Lemma elementAt_Some_range {A : Type} (arr : list A) (i : Z) (x : A) :
  elementAt arr i = Some x -> 0 <= i < len arr.
Proof.
  unfold elementAt, len. destruct (Z.ltb_spec i 0) as [Hneg | Hpos]; [discriminate |].
  intros H. assert (Hlt : (Z.to_nat i < length arr)%nat).
  { apply nth_error_Some. congruence. }
  lia.
Qed.

Lemma elementAt_in_range {A : Type} (arr : list A) (i : Z) :
  0 <= i < len arr -> exists x, elementAt arr i = Some x.
Proof.
  unfold elementAt, len. intros [Hlo Hhi].
  destruct (Z.ltb_spec i 0) as [Hneg | _]; [lia |].
  destruct (nth_error arr (Z.to_nat i)) as [x |] eqn:E; [eauto |].
  apply nth_error_None in E. lia.
Qed.

Lemma elementAt_cons {A : Type} (x : A) (arr : list A) (i : Z) :
  0 <= i -> elementAt (x :: arr) (i + 1) = elementAt arr i.
Proof.
  intros Hi. unfold elementAt.
  destruct (Z.ltb_spec (i + 1) 0); [lia |].
  destruct (Z.ltb_spec i 0); [lia |].
  replace (Z.to_nat (i + 1)) with (S (Z.to_nat i)) by lia. reflexivity.
Qed.

Lemma elementAt_In {A : Type} (arr : list A) (i : Z) (x : A) :
  elementAt arr i = Some x -> In x arr.
Proof.
  unfold elementAt. destruct (i <? 0); [discriminate |]. apply nth_error_In.
Qed.

(** ** The map *)

Module JsMapFacts.

Import JsMap.

Lemma has_In {V} (k : Z) (m : t V) :
  has k m = true <-> exists v, In (k, v) m.
Proof.
  unfold has. rewrite existsb_exists. split.
  - intros [[k' v] [Hin Hk]]. simpl in Hk. apply Z.eqb_eq in Hk. subst. eauto.
  - intros [v Hin]. exists (k, v). split; [exact Hin | apply Z.eqb_refl].
Qed.

Lemma has_app {V} (k : Z) (m1 m2 : t V) :
  has k (m1 ++ m2) = has k m1 || has k m2.
Proof. unfold has. apply existsb_app. Qed.

Lemma has_replace {V} (k k' : Z) (v : V) (m : t V) :
  has k (replace k' v m) = has k m.
Proof.
  induction m as [| [k0 v0] m IH]; simpl; [reflexivity |].
  destruct (Z.eqb_spec k0 k'); simpl; [reflexivity | now rewrite IH].
Qed.

Lemma has_set {V} (k k' : Z) (v : V) (m : t V) :
  has k (set k' v m) = (k' =? k) || has k m.
Proof.
  unfold set. destruct (has k' m) eqn:E.
  - rewrite has_replace. destruct (Z.eqb_spec k' k); [subst; now rewrite E | reflexivity].
  - rewrite has_app. simpl. rewrite orb_false_r. apply orb_comm.
Qed.

Lemma has_delete {V} (k k' : Z) (m : t V) :
  has k (delete k' m) = negb (k =? k') && has k m.
Proof.
  unfold delete. induction m as [| [k0 v0] m IH]; simpl.
  - now rewrite andb_false_r.
  - destruct (Z.eqb_spec k0 k'); simpl.
    + rewrite IH. subst. destruct (Z.eqb_spec k' k), (Z.eqb_spec k k'); try lia; reflexivity.
    + rewrite IH. destruct (Z.eqb_spec k0 k), (Z.eqb_spec k k'); try lia; simpl; reflexivity.
Qed.

Lemma In_replace {V} (k k' : Z) (v v' : V) (m : t V) :
  In (k, v) (replace k' v' m) -> (k = k' /\ v = v') \/ In (k, v) m.
Proof.
  induction m as [| [k0 v0] m IH]; simpl; [tauto |].
  destruct (Z.eqb_spec k0 k'); simpl.
  - intros [H | H]; [inversion H; subst; now left | now right; right].
  - intros [H | H]; [now right; left |]. destruct (IH H); tauto.
Qed.

Lemma In_set {V} (k k' : Z) (v v' : V) (m : t V) :
  In (k, v) (set k' v' m) -> (k = k' /\ v = v') \/ In (k, v) m.
Proof.
  unfold set. destruct (has k' m).
  - apply In_replace.
  - rewrite in_app_iff. simpl. intros [H | [H | []]]; [now right | inversion H; now left].
Qed.

Lemma In_delete {V} (p : Z * V) (k : Z) (m : t V) :
  In p (delete k m) <-> In p m /\ fst p <> k.
Proof.
  unfold delete. rewrite filter_In. rewrite negb_true_iff, Z.eqb_neq. tauto.
Qed.

Lemma keys_replace {V} (k : Z) (v : V) (m : t V) :
  keys (replace k v m) = keys m.
Proof.
  unfold keys. induction m as [| [k0 v0] m IH]; simpl; [reflexivity |].
  destruct (k0 =? k); simpl; [reflexivity | now rewrite IH].
Qed.

Lemma has_keys {V} (k : Z) (m : t V) :
  has k m = true <-> In k (keys m).
Proof.
  rewrite has_In. unfold keys. rewrite in_map_iff. split.
  - intros [v H]. exists (k, v). auto.
  - intros [[k' v] [E H]]. simpl in E. subst. eauto.
Qed.

(** [set] keeps the keys unique. *)
Lemma NoDup_keys_set {V} (k : Z) (v : V) (m : t V) :
  NoDup (keys m) -> NoDup (keys (set k v m)).
Proof.
  intros Hnd. unfold set. destruct (has k m) eqn:E.
  - now rewrite keys_replace.
  - unfold keys. rewrite map_app. simpl.
    rewrite <- (rev_involutive (map fst m ++ [k])). apply NoDup_rev.
    rewrite rev_app_distr. simpl. constructor.
    + rewrite <- in_rev. intros Hin. apply has_keys in Hin. congruence.
    + now apply NoDup_rev.
Qed.

Lemma NoDup_keys_delete {V} (k : Z) (m : t V) :
  NoDup (keys m) -> NoDup (keys (delete k m)).
Proof.
  unfold keys, delete. induction m as [| [k0 v0] m IH]; simpl; [auto |].
  intros Hnd. inversion Hnd as [| ? ? Hnotin Hnd']; subst.
  destruct (negb (k0 =? k)); simpl; [| auto].
  constructor; [| auto].
  rewrite in_map_iff. intros [[k1 v1] [E Hin]]. simpl in E. subst.
  apply filter_In in Hin. apply Hnotin. apply in_map_iff. exists (k0, v1). tauto.
Qed.

Lemma In_set_same {V} (k : Z) (v : V) (m : t V) :
  In (k, v) (set k v m).
Proof.
  unfold set. destruct (has k m) eqn:E.
  - induction m as [| [k0 v0] m IH]; simpl in *; [discriminate |].
    destruct (Z.eqb_spec k0 k); simpl in *; [subst; now left | right; auto].
  - apply in_or_app. right. now left.
Qed.

Lemma In_set_other {V} (k k' : Z) (v v' : V) (m : t V) :
  In (k, v) m -> k <> k' -> In (k, v) (set k' v' m).
Proof.
  intros Hin Hne. unfold set. destruct (has k' m).
  - induction m as [| [k0 v0] m IH]; simpl in *; [tauto |].
    destruct (Z.eqb_spec k0 k'); simpl.
    + destruct Hin as [H | H]; [inversion H; subst; contradiction | now right].
    + destruct Hin as [H | H]; [now left | right; auto].
  - apply in_or_app. now left.
Qed.

End JsMapFacts.

(** ** The search *)

Lemma findIndexFrom_range {A : Type} (arr : list A) (p : A -> bool) (i : Z) :
  findIndexFrom i arr p = -1 \/ i <= findIndexFrom i arr p < i + len arr.
Proof.
  revert i. induction arr as [| x arr IH]; intros i; simpl; [now left |].
  unfold len in *. simpl length.
  destruct (p x); [right; lia |].
  destruct (IH (i + 1)) as [H | H]; [now left | right; lia].
Qed.

Lemma findIndexFrom_none {A : Type} (arr : list A) (p : A -> bool) (i : Z) :
  0 <= i -> (findIndexFrom i arr p = -1 <-> forall x, In x arr -> p x = false).
Proof.
  revert i. induction arr as [| x arr IH]; intros i Hi; simpl.
  - split; [intros _ y [] | reflexivity].
  - destruct (p x) eqn:E.
    + split; [lia |]. intros H. rewrite (H x) in E; [discriminate | now left].
    + rewrite IH by lia. split.
      * intros H y [-> | Hy]; auto.
      * intros H y Hy. apply H. now right.
Qed.

Lemma findIndexFrom_first {A : Type} (arr : list A) (p : A -> bool) (i k : Z) :
  0 <= i -> findIndexFrom i arr p = k -> 0 <= k ->
  (exists x, elementAt arr (k - i) = Some x /\ p x = true) /\
  (forall j y, 0 <= j < k - i -> elementAt arr j = Some y -> p y = false).
Proof.
  revert i. induction arr as [| x arr IH]; intros i Hi; simpl.
  - lia.
  - destruct (p x) eqn:E.
    + intros <- _. rewrite Z.sub_diag. split; [exists x; auto | intros; lia].
    + intros Hk Hk0.
      destruct (findIndexFrom_range arr p (i + 1)) as [Hr | Hr]; [lia |].
      destruct (IH (i + 1) ltac:(lia) Hk Hk0) as [[y [Hy Hp]] Hbefore].
      split.
      * exists y. split; [| exact Hp].
        replace (k - i) with (k - (i + 1) + 1) by lia.
        rewrite elementAt_cons by lia. exact Hy.
      * intros j z Hj Hz. destruct (Z.eq_dec j 0) as [-> | Hne].
        -- unfold elementAt in Hz. simpl in Hz. congruence.
        -- replace j with (j - 1 + 1) in Hz by lia.
           rewrite elementAt_cons in Hz by lia.
           apply (Hbefore (j - 1) z); [lia | exact Hz].
Qed.

(** What the specification says of the search, for the model. *)
Lemma findIndex_found {A : Type} (arr : list A) (p : A -> bool) (k : Z) :
  findIndex arr p = k -> 0 <= k ->
  (exists x, elementAt arr k = Some x /\ p x = true) /\
  (forall j y, 0 <= j < k -> elementAt arr j = Some y -> p y = false).
Proof.
  intros H Hk. unfold findIndex in H.
  destruct (findIndexFrom_first arr p 0 k ltac:(lia) H Hk) as [H1 H2].
  rewrite Z.sub_0_r in *. auto.
Qed.

Lemma findIndex_none {A : Type} (arr : list A) (p : A -> bool) :
  findIndex arr p = -1 <-> forall x, In x arr -> p x = false.
Proof. unfold findIndex. apply findIndexFrom_none. lia. Qed.

Lemma findIndex_range {A : Type} (arr : list A) (p : A -> bool) :
  -1 <= findIndex arr p < len arr.
Proof.
  unfold findIndex. destruct (findIndexFrom_range arr p 0); unfold len in *; lia.
Qed.

(** ** The scan loop *)

Section ScanFacts.

Variable Instance : Type.
Variable this : Timeline Instance.

Abbreviation Active := (JsMap.t (TimelineElementState Instance)).

Lemma shouldAddNextElement_true (index timeMs : Z) (forward : bool) :
  shouldAddNextElement this index timeMs forward = Normal true ->
  exists e, elementAt (elements this) index = Some e /\
            (if forward then startTimeMs e < timeMs else timeMs < endTimeMs e).
Proof.
  unfold shouldAddNextElement.
  destruct (negb _); [discriminate |].
  destruct (elementAt (elements this) index) as [e |]; [| discriminate].
  intros H. exists e. split; [reflexivity |].
  destruct forward; injection H as H; now apply Z.ltb_lt.
Qed.

Lemma shouldAddNextElement_false_forward (index timeMs : Z) :
  shouldAddNextElement this index timeMs true = Normal false ->
  len (elements this) <= index \/
  exists e, elementAt (elements this) index = Some e /\ timeMs <= startTimeMs e.
Proof.
  unfold shouldAddNextElement.
  destruct (Z.ltb_spec index (len (elements this))) as [Hlt | Hge]; simpl; [| now left].
  destruct (elementAt (elements this) index) as [e |]; [| discriminate].
  intros H. injection H as H. apply Z.ltb_ge in H. right. eauto.
Qed.

Lemma scanBody_defined (index timeMs : Z) (active : Active) (e : TimelineElement Instance) :
  elementAt (elements this) index = Some e ->
  exists active' events, scanBody this index timeMs active = Normal (active', events).
Proof.
  intros H. unfold scanBody. rewrite H. destruct (_ || _); eauto.
Qed.

(** Forward, a cursor that is not negative never meets a missing element,
    and the loop ends within the budget. *)
Lemma scanLoop_total_forward (fuel : nat) (index timeMs : Z) (active : Active)
      (log : list (Event Instance)) :
  0 <= index -> (Z.to_nat (len (elements this) - index) < fuel)%nat ->
  exists r, scanLoop this fuel index timeMs true active log = Normal r.
Proof.
  revert index active log. induction fuel as [| fuel IH]; intros index active log Hlo Hfuel; [lia |].
  simpl. unfold shouldAddNextElement.
  destruct (Z.ltb_spec index (len (elements this))) as [Hlt | Hge]; simpl; [| eauto].
  destruct (@elementAt_in_range _ (elements this) index) as [e He]; [lia |].
  rewrite He. destruct (startTimeMs e <? timeMs); [| eauto].
  destruct (scanBody_defined index timeMs active e He) as [active' [events Hbody]].
  rewrite Hbody. apply IH; unfold setNextElementIndex; lia.
Qed.

Lemma scanLoop_total_backward (fuel : nat) (index timeMs : Z) (active : Active)
      (log : list (Event Instance)) :
  index < len (elements this) -> (Z.to_nat (index + 1) < fuel)%nat ->
  exists r, scanLoop this fuel index timeMs false active log = Normal r.
Proof.
  revert index active log. induction fuel as [| fuel IH]; intros index active log Hhi Hfuel; [lia |].
  simpl. unfold shouldAddNextElement.
  destruct (Z.leb_spec 0 index) as [Hge | Hlt]; simpl; [| eauto].
  destruct (@elementAt_in_range _ (elements this) index) as [e He]; [lia |].
  rewrite He. destruct (timeMs <? endTimeMs e); [| eauto].
  destruct (scanBody_defined index timeMs active e He) as [active' [events Hbody]].
  rewrite Hbody. apply IH; unfold setNextElementIndex; lia.
Qed.

(** The cursor that [setInitialElementIndex] leaves is one the loop can
    start from. *)
Lemma setInitialElementIndex_forward_range (index timeMs : Z) :
  0 <= setInitialElementIndex this index timeMs true <= len (elements this).
Proof.
  unfold setInitialElementIndex.
  destruct (cursorIsFresh this index timeMs true) eqn:Hfresh.
  - unfold cursorIsFresh in Hfresh.
    destruct (elementAt (elements this) index) as [e |] eqn:He.
    + apply elementAt_Some_range in He. lia.
    + simpl in Hfresh. now rewrite andb_false_r in Hfresh.
  - pose proof (findIndex_range (elements this) (searchPredicate timeMs true)) as Hr.
    destruct (Z.leb_spec 0 (findIndex (elements this) (searchPredicate timeMs true)));
      unfold len in *; lia.
Qed.

Lemma setInitialElementIndex_backward_range (index timeMs : Z) :
  -1 <= setInitialElementIndex this index timeMs false < len (elements this).
Proof.
  unfold setInitialElementIndex.
  destruct (cursorIsFresh this index timeMs false) eqn:Hfresh.
  - unfold cursorIsFresh in Hfresh.
    destruct (elementAt (elements this) index) as [e |] eqn:He.
    + apply elementAt_Some_range in He. lia.
    + simpl in Hfresh. now rewrite andb_false_r in Hfresh.
  - apply findIndex_range.
Qed.

(** Loop invariants: what holds at the start and is kept by every pass
    holds at the exit, where the loop test is false. *)
Lemma scanLoop_invariant (P : Z -> Active -> list (Event Instance) -> Prop)
      (timeMs : Z) (forward : bool) :
  (forall index active log active' events,
      P index active log ->
      shouldAddNextElement this index timeMs forward = Normal true ->
      scanBody this index timeMs active = Normal (active', events) ->
      P (setNextElementIndex index forward) active' (log ++ events)) ->
  forall fuel index active log index' active' log',
    P index active log ->
    scanLoop this fuel index timeMs forward active log = Normal (index', active', log') ->
    P index' active' log' /\
    shouldAddNextElement this index' timeMs forward = Normal false.
Proof.
  intros Hstep. induction fuel as [| fuel IH]; intros index active log index' active' log' HP Hrun;
    [discriminate |].
  simpl in Hrun.
  destruct (shouldAddNextElement this index timeMs forward) as [[|] | |] eqn:Htest;
    try discriminate.
  - destruct (scanBody this index timeMs active) as [[active1 events] | |] eqn:Hbody;
      try discriminate.
    eapply IH; [| exact Hrun]. eapply Hstep; eauto.
  - injection Hrun as <- <- <-. auto.
Qed.

(** [update] always completes. *)
Lemma update_total (timeMs : Z) (forward : bool) :
  exists this' events, update this timeMs forward = Normal (this', events).
Proof.
  unfold update.
  set (index0 := match nextElementIndex this with
                 | Some i => i
                 | None => if forward then 0 else len (elements this) - 1
                 end).
  assert (Hscan : exists r,
             scanLoop this (S (length (elements this)))
                      (setInitialElementIndex this index0 timeMs forward)
                      timeMs forward (activeElements this) [] = Normal r).
  { destruct forward.
    - pose proof (setInitialElementIndex_forward_range index0 timeMs) as Hr.
      apply scanLoop_total_forward; unfold len in *; lia.
    - pose proof (setInitialElementIndex_backward_range index0 timeMs) as Hr.
      apply scanLoop_total_backward; unfold len in *; lia. }
  destruct Hscan as [[[index2 active] log1] Hscan]. rewrite Hscan.
  destruct (reconcileLoop this active timeMs active []) as [active' log2].
  eauto.
Qed.

End ScanFacts.

(** ** What one scan does *)

Section ScanSummary.

Variable Instance : Type.
Variable this : Timeline Instance.

Abbreviation ActiveMap := (JsMap.t (TimelineElementState Instance)).

Lemma builtIndices_app (l1 l2 : list (Event Instance)) :
  builtIndices (l1 ++ l2) = builtIndices l1 ++ builtIndices l2.
Proof.
  induction l1 as [| ev l1 IH]; simpl; [reflexivity |].
  destruct ev; simpl; now rewrite IH.
Qed.

Lemma In_Build_builtIndices (k : Z) (l : list (Event Instance)) :
  In (Build k) l <-> In k (builtIndices l).
Proof.
  induction l as [| ev l IH]; simpl; [tauto |].
  destruct ev; simpl; rewrite <- IH; split; intros H;
    try (destruct H as [H | H]; [discriminate | exact H]); try (now right).
  - destruct H as [H | H]; [left; congruence | now right].
  - destruct H as [H | H]; [left; congruence | now right].
Qed.

Lemma builtIndices_callHook (installed : bool) (ev : Event Instance) :
  (forall k, ev <> Build k) -> builtIndices (callHook installed ev) = [].
Proof.
  intros H. destruct installed; simpl; [| reflexivity].
  destruct ev; try reflexivity. now destruct (H index).
Qed.

Lemma NoDup_snoc (l : list Z) (x : Z) :
  NoDup l -> ~ In x l -> NoDup (l ++ [x]).
Proof.
  intros Hnd Hx. induction Hnd as [| y l Hy Hnd IH]; simpl.
  - constructor; [tauto | constructor].
  - constructor.
    + rewrite in_app_iff. simpl. intros [H | [H | []]]; [tauto | subst; apply Hx; now left].
    + apply IH. intros H. apply Hx. now right.
Qed.

Lemma visited_step (forward : bool) (first index k : Z) :
  cursorBetween forward first index ->
  (visited forward first (setNextElementIndex index forward) k <->
   visited forward first index k \/ k = index).
Proof. unfold cursorBetween, visited, setNextElementIndex. destruct forward; lia. Qed.

Lemma visited_not_current (forward : bool) (first index k : Z) :
  visited forward first index k -> k <> index.
Proof. unfold visited. destruct forward; lia. Qed.

Lemma cursorBetween_step (forward : bool) (first index : Z) :
  cursorBetween forward first index ->
  cursorBetween forward first (setNextElementIndex index forward).
Proof. unfold cursorBetween, setNextElementIndex. destruct forward; lia. Qed.

Lemma scanBody_spec (index timeMs : Z) (active active' : ActiveMap)
      (events : list (Event Instance)) :
  scanBody this index timeMs active = Normal (active', events) ->
  exists e, elementAt (elements this) index = Some e /\
    ((buildCondition this active timeMs index e /\
      active' = JsMap.set index (entryOf e) active /\
      events = Build index
               :: callHook (createElement this)
                           (CreateElement index (build e tt) timeMs)) \/
     (~ buildCondition this active timeMs index e /\
      active' = active /\ events = [])).
Proof.
  unfold scanBody, buildCondition.
  destruct (elementAt (elements this) index) as [e |]; [| discriminate].
  intros H. exists e. split; [reflexivity |].
  destruct (allowSkippingElements this); simpl in H.
  - destruct (Z.leb_spec (endTimeMs e) timeMs) as [Hended | Hnot]; simpl in H.
    + injection H as <- <-. right. repeat split; auto. intros [Hf | [Hf _]]; [discriminate | lia].
    + destruct (JsMap.has index active) eqn:Hhas; simpl in H; injection H as <- <-.
      * right. repeat split; auto. intros [Hf | [_ Hf]]; discriminate.
      * left. repeat split; auto.
  - injection H as <- <-. left. repeat split; auto.
Qed.

Lemma scanEvent_more (timeMs : Z) (built built' : list Z) (ev : Event Instance) :
  (forall k, In k built -> In k built') ->
  scanEvent this timeMs built ev -> scanEvent this timeMs built' ev.
Proof.
  intros Hsub. destruct ev; simpl; auto.
  intros (H1 & H2 & H3 & H4). auto.
Qed.

Lemma scanInvariant_start (timeMs : Z) (forward : bool) (first : Z) (active0 : ActiveMap) :
  scanInvariant this timeMs forward first active0 first active0 [].
Proof.
  assert (Hnone : forall k, ~ visited forward first first k).
  { intros k. unfold visited. destruct forward; lia. }
  unfold scanInvariant. simpl. repeat apply conj.
  - unfold cursorBetween. destruct forward; lia.
  - intros k [].
  - intros k Hv. destruct (Hnone k Hv).
  - intros k. tauto.
  - constructor.
  - intros k st H. now left.
  - intros k [].
  - intros ev [].
  - intros k st H _. exact H.
Qed.

Lemma scanInvariant_step (timeMs : Z) (forward : bool) (first : Z) (active0 : ActiveMap)
      (index : Z) (active : ActiveMap) (log : list (Event Instance))
      (active' : ActiveMap) (events : list (Event Instance)) :
  scanInvariant this timeMs forward first active0 index active log ->
  shouldAddNextElement this index timeMs forward = Normal true ->
  scanBody this index timeMs active = Normal (active', events) ->
  scanInvariant this timeMs forward first active0
                (setNextElementIndex index forward) active' (log ++ events).
Proof.
  intros (Hbetween & Hbuilt & Hvisited & Hhas & Hnodup & Hentries & Hmade & Hevents & Hkept)
         Htest Hbody.
  destruct (shouldAddNextElement_true Instance this index timeMs forward Htest) as [e [He Hcrossed]].
  destruct (scanBody_spec index timeMs active active' events Hbody) as [e' [He' Hcases]].
  rewrite He in He'. injection He' as <-.
  assert (Hfreshk : ~ In index (builtIndices log)).
  { intros Hin. apply Hbuilt in Hin. now apply visited_not_current in Hin. }
  assert (Hsame : JsMap.has index active = JsMap.has index active0).
  { destruct (JsMap.has index active) eqn:E1, (JsMap.has index active0) eqn:E2; try reflexivity.
    - apply Hhas in E1. destruct E1; [congruence | contradiction].
    - assert (JsMap.has index active = true) by (apply Hhas; now left). congruence. }
  assert (Hcond : buildCondition this active timeMs index e <->
                  buildCondition this active0 timeMs index e).
  { unfold buildCondition. now rewrite Hsame. }
  assert (Hcrossed' : crossed forward e timeMs) by (unfold crossed; exact Hcrossed).
  destruct Hcases as [(Hyes & -> & ->) | (Hno & -> & ->)].
  - assert (Hbi : builtIndices
                    (log ++ Build index
                         :: callHook (createElement this)
                              (CreateElement index (build e tt) timeMs)) =
                  builtIndices log ++ [index]).
    { rewrite builtIndices_app. simpl. rewrite builtIndices_callHook; [reflexivity | discriminate]. }
    unfold scanInvariant. rewrite Hbi. repeat apply conj.
    + now apply cursorBetween_step.
    + intros k Hk. apply visited_step; [exact Hbetween |].
      apply in_app_or in Hk. destruct Hk as [Hk | [Hk | []]]; [left; auto | now right].
    + intros k Hk. apply visited_step in Hk; [| exact Hbetween].
      destruct Hk as [Hk | ->].
      * destruct (Hvisited k Hk) as [ek [Hek [Hc Hiff]]].
        exists ek. repeat split; auto.
        -- intros Hin. apply Hiff. apply in_app_or in Hin.
           destruct Hin as [Hin | [Hin | []]]; [exact Hin |].
           subst. now apply visited_not_current in Hk.
        -- intros Hb. apply in_or_app. left. now apply Hiff.
      * exists e. repeat split; auto.
        -- intros _. now apply Hcond.
        -- intros _. apply in_or_app. right. now left.
    + intros k. rewrite JsMapFacts.has_set, orb_true_iff, Z.eqb_eq, Hhas, in_app_iff.
      simpl. intuition.
    + now apply NoDup_snoc.
    + intros k st Hin. apply JsMapFacts.In_set in Hin. destruct Hin as [[-> ->] | Hin].
      * right. split; [apply in_or_app; right; now left | eauto].
      * destruct (Hentries k st Hin) as [H0 | [Hb Hex]]; [now left | right].
        split; [apply in_or_app; now left | exact Hex].
    + intros k Hk. apply in_app_or in Hk. destruct Hk as [Hk | [<- | []]].
      * destruct (Hmade k Hk) as [ek [Hek [Hin Hcreate]]].
        exists ek. repeat split; auto.
        -- apply JsMapFacts.In_set_other; [exact Hin |].
           intros ->. contradiction.
        -- intros Hc. apply in_or_app. left. auto.
      * exists e. repeat split; auto.
        -- apply JsMapFacts.In_set_same.
        -- intros Hc. apply in_or_app. right. right. rewrite Hc. now left.
    + intros ev Hin. apply in_app_or in Hin. destruct Hin as [Hin | [<- | Hin]].
      * eapply scanEvent_more; [| apply Hevents; exact Hin].
        intros k Hk. apply in_or_app. now left.
      * simpl. apply in_or_app. right. now left.
      * destruct (createElement this) eqn:Hc; simpl in Hin; [| contradiction].
        destruct Hin as [<- | []]. simpl. repeat split; auto.
        -- apply in_or_app. right. now left.
        -- eauto.
    + intros k st Hin Hnot. apply JsMapFacts.In_set_other.
      * apply Hkept; [exact Hin |]. intros Hb. apply Hnot. apply in_or_app. now left.
      * intros ->. apply Hnot. apply in_or_app. right. now left.
  - rewrite app_nil_r. unfold scanInvariant. repeat apply conj; auto.
    + now apply cursorBetween_step.
    + intros k Hk. apply visited_step; [exact Hbetween |]. left. auto.
    + intros k Hk. apply visited_step in Hk; [| exact Hbetween].
      destruct Hk as [Hk | ->]; [auto |].
      exists e. repeat split; auto.
      * intros Hin. contradiction.
      * intros Hb. apply Hcond in Hb. contradiction.
Qed.

(** The summary of a completed scan. *)
Lemma scanLoop_summary (fuel : nat) (timeMs : Z) (forward : bool) (first : Z)
      (active0 : ActiveMap) (index : Z) (active : ActiveMap) (log : list (Event Instance)) :
  scanLoop this fuel first timeMs forward active0 [] = Normal (index, active, log) ->
  scanInvariant this timeMs forward first active0 index active log /\
  shouldAddNextElement this index timeMs forward = Normal false.
Proof.
  intros Hrun.
  apply (scanLoop_invariant Instance this
           (scanInvariant this timeMs forward first active0) timeMs forward)
    with (fuel := fuel) (index := first) (active := active0) (log := []).
  - intros. eapply scanInvariant_step; eauto.
  - apply scanInvariant_start.
  - exact Hrun.
Qed.

End ScanSummary.

(** ** What one reconciliation does, and one whole call *)

Section UpdateSummary.

Variable Instance : Type.
Variable this : Timeline Instance.

Abbreviation Entries := (list (Z * TimelineElementState Instance)).

Lemma reconcileLoop_active (timeMs : Z) (entries : Entries) :
  forall (active : Entries) (log : list (Event Instance)) (p : Z * TimelineElementState Instance),
    In p (fst (reconcileLoop this entries timeMs active log)) <->
    In p active /\ forall st, In (fst p, st) entries -> inWindow timeMs st = true.
Proof.
  induction entries as [| [k st0] rest IH]; intros active log p; simpl.
  - tauto.
  - destruct (inWindow timeMs st0) eqn:Hw; rewrite IH.
    + split.
      * intros [Hin Hall]. split; [exact Hin |].
        intros st [Heq | Hst]; [congruence | auto].
      * intros [Hin Hall]. split; [exact Hin | intros st Hst; apply Hall; now right].
    + rewrite JsMapFacts.In_delete. split.
      * intros [[Hin Hne] Hall]. split; [exact Hin |].
        intros st [Heq | Hst]; [congruence | auto].
      * intros [Hin Hall]. split; [split; [exact Hin |] | intros st Hst; apply Hall; now right].
        intros Heq. rewrite (Hall st0) in Hw; [discriminate | left; congruence].
Qed.

Lemma reconcileLoop_log (timeMs : Z) (entries : Entries) :
  forall (active : Entries) (log : list (Event Instance)),
  exists events,
    snd (reconcileLoop this entries timeMs active log) = log ++ events /\
    forall ev, In ev events <-> reconcileEvent this timeMs entries ev.
Proof.
  induction entries as [| [k st0] rest IH]; intros active log; simpl.
  - exists []. rewrite app_nil_r. split; [reflexivity |].
    intros ev. split; [intros [] |].
    destruct ev; simpl; try tauto; intros (_ & _ & st & [] & _).
  - destruct (inWindow timeMs st0) eqn:Hw.
    + destruct (IH active (log ++ callHook (updateElement this)
                                   (UpdateElement k (instance st0) timeMs)))
        as [events [Hlog Hev]].
      exists (callHook (updateElement this) (UpdateElement k (instance st0) timeMs) ++ events).
      rewrite Hlog, app_assoc. split; [reflexivity |].
      intros ev. rewrite in_app_iff, Hev. split.
      * intros [Hin | Hin].
        -- destruct (updateElement this) eqn:Hu; simpl in Hin; [| contradiction].
           destruct Hin as [<- | []]. simpl. repeat split; auto.
           exists st0. repeat split; auto.
        -- destruct ev; simpl in *; try tauto;
             destruct Hin as (H1 & H2 & st & H3 & H4 & H5); repeat split; auto;
             exists st; repeat split; auto.
      * destruct ev; simpl; try tauto.
        -- intros (H1 & H2 & st & [H3 | H3] & H4 & H5).
           ++ left. rewrite H1. injection H3 as -> ->. subst. now left.
           ++ right. eauto 10.
        -- intros (H1 & H2 & st & [H3 | H3] & H4 & H5).
           ++ injection H3 as -> ->. congruence.
           ++ right. eauto 10.
    + destruct (IH (JsMap.delete k active)
                   (log ++ callHook (destroyElement this)
                                   (DestroyElement k (instance st0) timeMs)))
        as [events [Hlog Hev]].
      exists (callHook (destroyElement this) (DestroyElement k (instance st0) timeMs) ++ events).
      rewrite Hlog, app_assoc. split; [reflexivity |].
      intros ev. rewrite in_app_iff, Hev. split.
      * intros [Hin | Hin].
        -- destruct (destroyElement this) eqn:Hu; simpl in Hin; [| contradiction].
           destruct Hin as [<- | []]. simpl. repeat split; auto.
           exists st0. repeat split; auto.
        -- destruct ev; simpl in *; try tauto;
             destruct Hin as (H1 & H2 & st & H3 & H4 & H5); repeat split; auto;
             exists st; repeat split; auto.
      * destruct ev; simpl; try tauto.
        -- intros (H1 & H2 & st & [H3 | H3] & H4 & H5).
           ++ injection H3 as -> ->. congruence.
           ++ right. eauto 10.
        -- intros (H1 & H2 & st & [H3 | H3] & H4 & H5).
           ++ left. rewrite H1. injection H3 as -> ->. subst. now left.
           ++ right. eauto 10.
Qed.

(** One call, taken apart: the scan from the resynchronised cursor, then
    the reconciliation of the map the scan has left. *)
Lemma update_summary (timeMs : Z) (forward : bool) (this' : Timeline Instance)
      (events : list (Event Instance)) :
  update this timeMs forward = Normal (this', events) ->
  exists first index active log1 log2,
    first = setInitialElementIndex this
              (match nextElementIndex this with
               | Some i => i
               | None => if forward then 0 else len (elements this) - 1
               end) timeMs forward /\
    scanInvariant this timeMs forward first (activeElements this) index active log1 /\
    shouldAddNextElement this index timeMs forward = Normal false /\
    events = log1 ++ log2 /\
    (forall ev, In ev log2 <-> reconcileEvent this timeMs active ev) /\
    (forall p, In p (activeElements this') <->
               In p active /\ forall st, In (fst p, st) active -> inWindow timeMs st = true) /\
    elements this' = elements this /\
    lastTimeMs this' = Some timeMs /\
    nextElementIndex this' = Some index /\
    createElement this' = createElement this /\
    updateElement this' = updateElement this /\
    destroyElement this' = destroyElement this /\
    allowSkippingElements this' = allowSkippingElements this.
Proof.
  unfold update.
  set (first := setInitialElementIndex this _ timeMs forward).
  destruct (scanLoop this (S (length (elements this))) first timeMs forward
                     (activeElements this) []) as [[[index active] log1] | |] eqn:Hscan;
    try discriminate.
  destruct (scanLoop_summary Instance this _ _ _ _ _ _ _ _ Hscan) as [Hinv Hexit].
  destruct (reconcileLoop this active timeMs active []) as [active' log2] eqn:Hrec.
  intros H. injection H as <- <-.
  exists first, index, active, log1, log2. simpl.
  pose proof (reconcileLoop_active timeMs active active []) as Hact.
  destruct (reconcileLoop_log timeMs active active []) as [evs [Hlog Hevs]].
  rewrite Hrec in Hact, Hlog. simpl in Hact, Hlog. subst log2.
  split; [reflexivity |]. split; [exact Hinv |]. split; [exact Hexit |].
  split; [reflexivity |]. split; [exact Hevs |]. split; [exact Hact |].
  repeat split; reflexivity.
Qed.

End UpdateSummary.

(** ** Facts about one call *)

Section CallFacts.

Variable Instance : Type.
Variable this this' : Timeline Instance.
Variable timeMs : Z.
Variable forward : bool.
Variable events : list (Event Instance).
Hypothesis Hupdate : update this timeMs forward = Normal (this', events).

Lemma builtIndices_nil (l : list (Event Instance)) :
  (forall k, ~ In (Build k) l) -> builtIndices l = [].
Proof.
  intros H. destruct (builtIndices l) as [| k rest] eqn:E; [reflexivity |].
  destruct (H k). apply In_Build_builtIndices. rewrite E. now left.
Qed.

Lemma inWindow_agrees (st : TimelineElementState Instance) (e : TimelineElement Instance) :
  stateStartTimeMs st = startTimeMs e -> stateEndTimeMs st = endTimeMs e ->
  (inWindow timeMs st = true <-> windowContains e timeMs).
Proof.
  intros Hs He. unfold inWindow, windowContains.
  rewrite andb_true_iff, Z.leb_le, Z.ltb_lt, Hs, He. tauto.
Qed.

(** A factory is called only for a descriptor the scan has gone through,
    whose boundary the time has crossed, and which passes the test of the
    loop body. *)
Lemma update_build (k : Z) :
  In (Build k) events ->
  exists e, elementAt (elements this) k = Some e /\
            crossed forward e timeMs /\
            buildCondition this (activeElements this) timeMs k e.
Proof.
  destruct (update_summary Instance this timeMs forward this' events Hupdate)
    as (first & index & active & log1 & log2 & _ & Hinv & _ & -> & Hlog2 & _).
  destruct Hinv as (_ & Hbuilt & Hvisited & _).
  intros Hin. apply in_app_or in Hin. destruct Hin as [Hin | Hin].
  - apply In_Build_builtIndices in Hin.
    destruct (Hvisited k (Hbuilt k Hin)) as [e [He [Hc Hiff]]].
    exists e. repeat split; auto. now apply Hiff.
  - apply Hlog2 in Hin. destruct Hin.
Qed.

(** No index is built twice by one call. *)
Lemma update_built_once : NoDup (builtIndices events).
Proof.
  destruct (update_summary Instance this timeMs forward this' events Hupdate)
    as (first & index & active & log1 & log2 & _ & Hinv & _ & -> & Hlog2 & _).
  destruct Hinv as (_ & _ & _ & _ & Hnodup & _).
  rewrite builtIndices_app, (builtIndices_nil log2), app_nil_r; [exact Hnodup |].
  intros k Hin. apply Hlog2 in Hin. destruct Hin.
Qed.

(** Every entry left in the active set has a window that contains the time. *)
Lemma update_entries_inWindow (k : Z) (st : TimelineElementState Instance) :
  In (k, st) (activeElements this') -> inWindow timeMs st = true.
Proof.
  destruct (update_summary Instance this timeMs forward this' events Hupdate)
    as (first & index & active & log1 & log2 & _ & _ & _ & _ & _ & Hact & _).
  intros Hin. apply Hact in Hin. destruct Hin as [Hin Hall]. now apply Hall.
Qed.

Lemma update_entriesAgree :
  entriesAgree this -> entriesAgree this'.
Proof.
  destruct (update_summary Instance this timeMs forward this' events Hupdate)
    as (first & index & active & log1 & log2 & _ & Hinv & _ & _ & _ & Hact & Hel & _).
  destruct Hinv as (_ & _ & _ & _ & _ & Hentries & _).
  intros Hagree k st Hin. apply Hact in Hin. destruct Hin as [Hin _].
  rewrite Hel. destruct (Hentries k st Hin) as [H0 | [_ [e [He ->]]]].
  - now apply Hagree.
  - exists e. repeat split; auto.
Qed.

(** The active set after the call: what was active or was built, cut down
    to the windows that contain the time. *)
Lemma update_has (k : Z) :
  entriesAgree this ->
  (JsMap.has k (activeElements this') = true <->
   (JsMap.has k (activeElements this) = true \/ In (Build k) events) /\
   exists e, elementAt (elements this) k = Some e /\ windowContains e timeMs).
Proof.
  destruct (update_summary Instance this timeMs forward this' events Hupdate)
    as (first & index & active & log1 & log2 & _ & Hinv & _ & -> & Hlog2 & Hact & _).
  destruct Hinv as (_ & _ & _ & Hhas & _ & Hentries & _).
  intros Hagree.
  assert (Hscan : forall st, In (k, st) active ->
                  exists e, elementAt (elements this) k = Some e /\
                            stateStartTimeMs st = startTimeMs e /\
                            stateEndTimeMs st = endTimeMs e).
  { intros st Hin. destruct (Hentries k st Hin) as [H0 | [_ [e [He ->]]]].
    - now apply Hagree.
    - exists e. repeat split; auto. }
  assert (Hb : In (Build k) (log1 ++ log2) <-> In k (builtIndices log1)).
  { rewrite in_app_iff, In_Build_builtIndices. split; [| tauto].
    intros [H | H]; [exact H |]. apply Hlog2 in H. destruct H. }
  rewrite Hb, <- Hhas. rewrite !JsMapFacts.has_In. split.
  - intros [st Hin]. apply Hact in Hin. destruct Hin as [Hin Hall]. simpl in Hall.
    split; [eauto |].
    destruct (Hscan st Hin) as [e [He [Hs Hen]]]. exists e. split; [exact He |].
    apply (inWindow_agrees st e Hs Hen). now apply Hall.
  - intros [[st Hin] [e [He Hw]]]. exists st. apply Hact. split; [exact Hin |].
    simpl. intros st' Hin'. destruct (Hscan st' Hin') as [e' [He' [Hs Hen]]].
    rewrite He in He'. injection He' as <-.
    now apply (inWindow_agrees st' e Hs Hen).
Qed.

(** The hooks of the reconciliation, read on the descriptors. *)
Lemma update_tick (k : Z) (x : Instance) (t : Z) :
  entriesAgree this ->
  In (UpdateElement k x t) events ->
  exists e, elementAt (elements this) k = Some e /\ windowContains e timeMs.
Proof.
  destruct (update_summary Instance this timeMs forward this' events Hupdate)
    as (first & index & active & log1 & log2 & _ & Hinv & _ & -> & Hlog2 & Hact & _).
  destruct Hinv as (_ & _ & _ & _ & _ & Hentries & _ & Hevents & _).
  intros Hagree Hin. apply in_app_or in Hin. destruct Hin as [Hin | Hin].
  - apply Hevents in Hin. destruct Hin.
  - apply Hlog2 in Hin. destruct Hin as (_ & _ & st & Hst & Hw & _).
    destruct (Hentries k st Hst) as [H0 | [_ [e [He ->]]]].
    + destruct (Hagree k st H0) as [e [He [Hs Hen]]]. exists e. split; [exact He |].
      now apply (inWindow_agrees st e Hs Hen).
    + exists e. split; [exact He |].
      now apply (inWindow_agrees (entryOf e) e eq_refl eq_refl).
Qed.

(** An index that is built and does not stay is handed to the
    on-deactivate hook by the same call. *)
Lemma update_build_destroy (k : Z) (e : TimelineElement Instance) :
  In (Build k) events ->
  elementAt (elements this) k = Some e ->
  ~ windowContains e timeMs ->
  destroyElement this = true ->
  In (DestroyElement k (build e tt) timeMs) events.
Proof.
  destruct (update_summary Instance this timeMs forward this' events Hupdate)
    as (first & index & active & log1 & log2 & _ & Hinv & _ & -> & Hlog2 & Hact & _).
  destruct Hinv as (_ & _ & _ & _ & _ & _ & Hmade & _).
  intros Hin He Hout Hhook. apply in_or_app. right.
  apply in_app_or in Hin. destruct Hin as [Hin | Hin];
    [| apply Hlog2 in Hin; destruct Hin].
  apply In_Build_builtIndices in Hin.
  destruct (Hmade k Hin) as [e' [He' [Hentry _]]].
  rewrite He in He'. injection He' as <-.
  apply Hlog2. simpl. repeat split; auto.
  exists (entryOf e). repeat split; auto.
  destruct (inWindow timeMs (entryOf e)) eqn:Hw; [| reflexivity].
  destruct Hout. now apply (inWindow_agrees (entryOf e) e eq_refl eq_refl).
Qed.

(** The on-activate hook goes with the factory. *)
Lemma update_create_built (k : Z) (x : Instance) (t : Z) :
  In (CreateElement k x t) events -> In (Build k) events.
Proof.
  destruct (update_summary Instance this timeMs forward this' events Hupdate)
    as (first & index & active & log1 & log2 & _ & Hinv & _ & -> & Hlog2 & Hact & _).
  destruct Hinv as (_ & _ & _ & _ & _ & _ & _ & Hevents & _).
  intros Hin. apply in_or_app. apply in_app_or in Hin. destruct Hin as [Hin | Hin].
  - left. apply Hevents in Hin. destruct Hin as (_ & _ & Hb & _).
    now apply In_Build_builtIndices.
  - apply Hlog2 in Hin. destruct Hin.
Qed.

Lemma update_built_create (k : Z) (e : TimelineElement Instance) :
  In (Build k) events ->
  elementAt (elements this) k = Some e ->
  createElement this = true ->
  In (CreateElement k (build e tt) timeMs) events.
Proof.
  destruct (update_summary Instance this timeMs forward this' events Hupdate)
    as (first & index & active & log1 & log2 & _ & Hinv & _ & -> & Hlog2 & Hact & _).
  destruct Hinv as (_ & _ & _ & _ & _ & _ & Hmade & _).
  intros Hin He Hhook. apply in_or_app. left.
  apply in_app_or in Hin. destruct Hin as [Hin | Hin];
    [| apply Hlog2 in Hin; destruct Hin].
  apply In_Build_builtIndices in Hin.
  destruct (Hmade k Hin) as [e' [He' [_ Hc]]].
  rewrite He in He'. injection He' as <-. auto.
Qed.

End CallFacts.

(** ** The keys of the active set stay unique *)

Section KeysUnique.

Variable Instance : Type.
Variable this : Timeline Instance.

Lemma reconcileLoop_keys_NoDup (timeMs : Z)
      (entries : list (Z * TimelineElementState Instance)) :
  forall active log,
    NoDup (JsMap.keys active) ->
    NoDup (JsMap.keys (fst (reconcileLoop this entries timeMs active log))).
Proof.
  induction entries as [| [k st] rest IH]; intros active log Hnd; simpl; [exact Hnd |].
  destruct (inWindow timeMs st); apply IH; [exact Hnd |].
  now apply JsMapFacts.NoDup_keys_delete.
Qed.

Lemma update_keys_NoDup (timeMs : Z) (forward : bool) (this' : Timeline Instance)
      (events : list (Event Instance)) :
  update this timeMs forward = Normal (this', events) ->
  NoDup (JsMap.keys (activeElements this)) ->
  NoDup (JsMap.keys (activeElements this')).
Proof.
  unfold update.
  set (first := setInitialElementIndex this _ timeMs forward).
  destruct (scanLoop this (S (length (elements this))) first timeMs forward
                     (activeElements this) []) as [[[index active] log1] | |] eqn:Hscan;
    try discriminate.
  intros H Hnd.
  assert (Hscanned : NoDup (JsMap.keys active)).
  { apply (scanLoop_invariant Instance this
             (fun _ a _ => NoDup (JsMap.keys a)) timeMs forward)
      with (fuel := S (length (elements this))) (index := first)
           (active := activeElements this) (log := []) (index' := index) (log' := log1);
      [| exact Hnd | exact Hscan].
    intros i a l a' evs Ha _ Hbody.
    destruct (scanBody_spec Instance this i timeMs a a' evs Hbody)
      as [e [_ [(_ & -> & _) | (_ & -> & _)]]]; [| exact Ha].
    now apply JsMapFacts.NoDup_keys_set. }
  pose proof (reconcileLoop_keys_NoDup timeMs active active [] Hscanned) as Hrec.
  destruct (reconcileLoop this active timeMs active []) as [active' log2].
  injection H as <- _. exact Hrec.
Qed.

End KeysUnique.

(** ** The constructor sorts, and does nothing else to the descriptors *)

Section ConstructorFacts.

Variable Instance : Type.

Abbreviation Elements := (list (TimelineElement Instance)).

Lemma insertByStart_perm (x : TimelineElement Instance) (l : Elements) :
  Permutation (insertByStart x l) (x :: l).
Proof.
  induction l as [| y l IH]; simpl; [reflexivity |].
  destruct (startTimeMs y <=? startTimeMs x); [| reflexivity].
  rewrite IH. apply perm_swap.
Qed.

Lemma sortByStart_perm (l : Elements) :
  Permutation (sortByStart l) l.
Proof.
  unfold sortByStart.
  assert (H : forall acc, Permutation (fold_left (fun sorted x => insertByStart x sorted) l acc)
                                      (acc ++ l)).
  { induction l as [| x l IH]; intros acc; simpl.
    - now rewrite app_nil_r.
    - rewrite IH, insertByStart_perm. apply Permutation_middle. }
  apply (H []).
Qed.

Lemma insertByStart_sorted (x : TimelineElement Instance) (l : Elements) :
  StronglySorted (@startLe Instance) l ->
  StronglySorted (@startLe Instance) (insertByStart x l).
Proof.
  induction 1 as [| y l Hsorted IH Hall]; simpl.
  - constructor; constructor.
  - destruct (Z.leb_spec (startTimeMs y) (startTimeMs x)) as [Hle | Hgt].
    + constructor; [exact IH |].
      apply (Permutation_Forall (Permutation_sym (insertByStart_perm x l))).
      constructor; [exact Hle | exact Hall].
    + constructor; [constructor; assumption |].
      constructor; [unfold startLe; lia |].
      apply Forall_impl with (P := startLe y); [| exact Hall].
      unfold startLe. intros; lia.
Qed.

Lemma sortByStart_sorted (l : Elements) :
  StronglySorted (@startLe Instance) (sortByStart l).
Proof.
  unfold sortByStart.
  assert (H : forall acc, StronglySorted (@startLe Instance) acc ->
                          StronglySorted (@startLe Instance)
                            (fold_left (fun sorted x => insertByStart x sorted) l acc)).
  { induction l as [| x l IH]; intros acc Hacc; simpl; [exact Hacc |].
    apply IH. now apply insertByStart_sorted. }
  apply H. constructor.
Qed.

Lemma StronglySorted_sortedByStart (l : Elements) :
  StronglySorted (@startLe Instance) l -> sortedByStart l.
Proof.
  induction 1 as [| x l Hsorted IH Hall]; intros i j ei ej Hij Hi Hj.
  - unfold elementAt in Hi. destruct (i <? 0); [discriminate |].
    destruct (Z.to_nat i); discriminate.
  - pose proof (elementAt_Some_range _ _ _ Hi) as Hri.
    pose proof (elementAt_Some_range _ _ _ Hj) as Hrj.
    destruct (Z.eq_dec i 0) as [-> | Hne].
    + assert (ei = x) by (unfold elementAt in Hi; simpl in Hi; congruence). subst ei.
      destruct (Z.eq_dec j 0) as [-> | Hnj].
      * assert (ej = x) by (unfold elementAt in Hj; simpl in Hj; congruence). subst. lia.
      * replace j with (j - 1 + 1) in Hj by lia. rewrite elementAt_cons in Hj by lia.
        apply elementAt_In in Hj. rewrite Forall_forall in Hall. now apply Hall.
    + replace i with (i - 1 + 1) in Hi by lia. rewrite elementAt_cons in Hi by lia.
      replace j with (j - 1 + 1) in Hj by lia. rewrite elementAt_cons in Hj by lia.
      apply (IH (i - 1) (j - 1)); auto; lia.
Qed.

Lemma newTimeline_sorted (options : TimelineOptions Instance) :
  sortedByStart (elements (newTimeline options)).
Proof. apply StronglySorted_sortedByStart, sortByStart_sorted. Qed.

End ConstructorFacts.

(** ** Forward play with skipping allowed *)

Section ForwardPlay.

Variable Instance : Type.

Lemma forward_exit (this : Timeline Instance) (index timeMs : Z) :
  sortedByStart (elements this) ->
  shouldAddNextElement this index timeMs true = Normal false ->
  forall j e, index <= j -> elementAt (elements this) j = Some e ->
              timeMs <= startTimeMs e.
Proof.
  intros Hsorted Hexit j e Hj He.
  apply shouldAddNextElement_false_forward in Hexit.
  destruct Hexit as [Hend | [ei [Hei Hle]]].
  - apply elementAt_Some_range in He. lia.
  - pose proof (Hsorted index j ei e Hj Hei He). lia.
Qed.

(** Below the cursor that a forward scan starts from, a descriptor has
    ended, or the last time had already passed its start. *)
Lemma forward_first (this : Timeline Instance) (timeMs : Z) :
  forwardInvariant this ->
  notBefore (lastTimeMs this) timeMs ->
  forall j e,
    0 <= j < setInitialElementIndex this
               (match nextElementIndex this with
                | Some i => i
                | None => 0
                end) timeMs true ->
    elementAt (elements this) j = Some e ->
    endTimeMs e <= timeMs \/
    exists t0, lastTimeMs this = Some t0 /\ startTimeMs e < t0.
Proof.
  intros (_ & _ & _ & Hstate) Hmono j e. unfold setInitialElementIndex.
  destruct (cursorIsFresh _ _ _ _) eqn:Hfresh.
  - destruct (lastTimeMs this) as [t0 |] eqn:Hlast.
    + destruct Hstate as (c & -> & _ & _ & Hbelow & _). simpl in Hmono.
      intros Hj He. destruct (Hbelow j e ltac:(lia) He) as [H | H].
      * right. exists t0. auto.
      * left. lia.
    + destruct Hstate as [-> _]. lia.
  - set (found := findIndex (elements this) (searchPredicate timeMs true)).
    destruct (Z.leb_spec 0 found) as [Hfound | Hnone]; [| lia].
    intros Hj He. left.
    destruct (findIndex_found (elements this) (searchPredicate timeMs true) found eq_refl Hfound)
      as [_ Hprev].
    specialize (Hprev j e Hj He). unfold searchPredicate in Hprev.
    apply Z.ltb_ge in Hprev. exact Hprev.
Qed.

Lemma forward_active0 (this : Timeline Instance) :
  forwardInvariant this ->
  forall j e, elementAt (elements this) j = Some e ->
              (JsMap.has j (activeElements this) = true <->
               insideAt e (lastTimeMs this)).
Proof.
  intros (_ & _ & _ & Hstate) j e He.
  destruct (lastTimeMs this) as [t0 |]; simpl.
  - destruct Hstate as (c & _ & _ & _ & _ & Hactive). now apply Hactive.
  - destruct Hstate as [_ ->]. simpl. split; [discriminate | tauto].
Qed.

(** One forward call of a clock that has not gone back: the invariant is
    kept, and a factory is called exactly for the descriptors that the time
    is strictly inside of now and was not before. *)
Lemma forward_step (this this' : Timeline Instance) (timeMs : Z)
      (events : list (Event Instance)) :
  forwardInvariant this ->
  notBefore (lastTimeMs this) timeMs ->
  update this timeMs true = Normal (this', events) ->
  forwardInvariant this' /\
  forall j e, elementAt (elements this) j = Some e ->
              (In (Build j) events <->
               strictlyInside e timeMs /\ ~ insideAt e (lastTimeMs this)).
Proof.
  intros Hfwd Hmono Hupd.
  pose proof (forward_active0 this Hfwd) as Hactive0.
  pose proof (forward_first this timeMs Hfwd Hmono) as Hbefore.
  destruct Hfwd as (Hskip & Hsorted & Hagree & Hstate).
  pose proof (fun k => update_has Instance this this' timeMs true events Hupd k Hagree) as Hhas'.
  pose proof (update_entriesAgree Instance this this' timeMs true events Hupd Hagree) as Hagree'.
  pose proof (update_build Instance this this' timeMs true events Hupd) as Hbuild1.
  destruct (update_summary Instance this timeMs true this' events Hupd)
    as (first & index & active & log1 & log2 & Hfirst & Hinv & Hexit & Hev & Hlog2 & _
        & Hel & Hlast & Hnext & _ & _ & _ & Hskip').
  destruct Hinv as (Hbetween & Hbuilt & Hvisited & _).
  simpl in Hbetween. unfold visited in Hbuilt, Hvisited.
  pose proof (forward_exit this index timeMs Hsorted Hexit) as Hexit'.
  pose proof (setInitialElementIndex_forward_range Instance this
                (match nextElementIndex this with
                 | Some i => i
                 | None => 0
                 end) timeMs) as Hrange.
  rewrite <- Hfirst in Hrange, Hbefore.
  assert (Hindex : index <= len (elements this)).
  { destruct (Z.eq_dec index first) as [-> | Hne]; [lia |].
    destruct (Hvisited (index - 1) ltac:(lia)) as [e [He _]].
    apply elementAt_Some_range in He. lia. }
  assert (Hlastle : forall t0, lastTimeMs this = Some t0 -> t0 <= timeMs).
  { intros t0 E. rewrite E in Hmono. exact Hmono. }
  assert (Hdec : forall e : TimelineElement Instance,
             insideAt e (lastTimeMs this) \/ ~ insideAt e (lastTimeMs this)).
  { intros e. destruct (lastTimeMs this) as [t0 |]; simpl; [| tauto].
    unfold strictlyInside. lia. }
  assert (Hbuild : forall j e, elementAt (elements this) j = Some e ->
                     (In (Build j) events <->
                      strictlyInside e timeMs /\ ~ insideAt e (lastTimeMs this))).
  { intros j e He. split.
    - intros Hin. destruct (Hbuild1 j Hin) as [e' [He' [Hcrossed Hcond]]].
      rewrite He in He'. injection He' as <-.
      destruct Hcond as [Hf | [Hend Hnot]]; [congruence |].
      split; [unfold strictlyInside; simpl in Hcrossed; lia |].
      intros Hin0. apply (Hactive0 j e He) in Hin0. congruence.
    - intros [[Hs Hen] Hnot].
      pose proof (elementAt_Some_range _ _ _ He) as Hj.
      assert (Hge : first <= j).
      { destruct (Z_lt_le_dec j first) as [Hlt | Hge]; [| exact Hge].
        destruct (Hbefore j e ltac:(lia) He) as [H | [t0 [E H]]]; [lia |].
        destruct Hnot. rewrite E. simpl. pose proof (Hlastle t0 E).
        unfold strictlyInside. lia. }
      assert (Hlt : j < index).
      { destruct (Z_lt_le_dec j index) as [Hlt | Hge']; [exact Hlt |].
        pose proof (Hexit' j e Hge' He). lia. }
      destruct (Hvisited j ltac:(lia)) as [e' [He' [_ Hiff]]].
      rewrite He in He'. injection He' as <-.
      rewrite Hev. apply in_or_app. left. apply In_Build_builtIndices. apply Hiff.
      right. split; [exact Hen |].
      destruct (JsMap.has j (activeElements this)) eqn:E; [| reflexivity].
      destruct Hnot. now apply (Hactive0 j e He). }
  split; [| exact Hbuild].
  unfold forwardInvariant. rewrite Hskip', Hel, Hlast.
  split; [exact Hskip |]. split; [exact Hsorted |].
  split; [exact Hagree' |].
  exists index. split; [exact Hnext |]. split; [lia |]. repeat apply conj.
  - exact Hexit'.
  - intros j e Hj He. pose proof (elementAt_Some_range _ _ _ He) as Hr.
    destruct (Z_lt_le_dec j first) as [Hlt | Hge].
    + destruct (Hbefore j e ltac:(lia) He) as [H | [t0 [E H]]]; [now right | left].
      pose proof (Hlastle t0 E). lia.
    + destruct (Hvisited j ltac:(lia)) as [e' [He' [Hc _]]].
      rewrite He in He'. injection He' as <-. left. exact Hc.
  - intros j e He. rewrite Hhas'. rewrite (Hactive0 j e He), (Hbuild j e He). split.
    + intros [Hor [e' [He' Hw]]]. rewrite He in He'. injection He' as <-.
      destruct Hor as [Hin0 | [Hin _]]; [| exact Hin].
      destruct (lastTimeMs this) as [t0 |] eqn:E; simpl in Hin0; [| contradiction].
      pose proof (Hlastle t0 eq_refl). unfold strictlyInside, windowContains in *. lia.
    + intros Hin. split.
      * destruct (Hdec e); [now left | right; auto].
      * exists e. split; [exact He |]. unfold strictlyInside, windowContains in *. lia.
Qed.

End ForwardPlay.

(** ** Deactivation, and sequences of forward calls *)

Section ForwardRuns.

Variable Instance : Type.

(** The on-deactivate hook is called for the keys that were active or
    were built and whose window does not contain the time. *)
Lemma update_destroy_iff (this this' : Timeline Instance) (timeMs : Z) (forward : bool)
      (events : list (Event Instance)) (k : Z) (e : TimelineElement Instance) :
  update this timeMs forward = Normal (this', events) ->
  entriesAgree this ->
  elementAt (elements this) k = Some e ->
  ((exists x t, In (DestroyElement k x t) events) <->
   destroyElement this = true /\
   (JsMap.has k (activeElements this) = true \/ In (Build k) events) /\
   ~ windowContains e timeMs).
Proof.
  intros Hupd Hagree He.
  destruct (update_summary Instance this timeMs forward this' events Hupd)
    as (first & index & active & log1 & log2 & _ & Hinv & _ & -> & Hlog2 & Hact & _).
  destruct Hinv as (_ & _ & _ & Hhas & _ & Hentries & _ & Hevents & _).
  assert (Hb : In (Build k) (log1 ++ log2) <-> In k (builtIndices log1)).
  { rewrite in_app_iff, In_Build_builtIndices. split; [| tauto].
    intros [H | H]; [exact H |]. apply Hlog2 in H. destruct H. }
  assert (Hscan : forall st, In (k, st) active ->
                  (inWindow timeMs st = true <-> windowContains e timeMs)).
  { intros st Hin. destruct (Hentries k st Hin) as [H0 | [_ [e' [He' ->]]]].
    - destruct (Hagree k st H0) as [e' [He' [Hs Hen]]].
      rewrite He in He'. injection He' as <-. now apply inWindow_agrees.
    - rewrite He in He'. injection He' as <-. now apply inWindow_agrees. }
  rewrite Hb, <- Hhas. split.
  - intros (x & t & Hin). apply in_app_or in Hin. destruct Hin as [Hin | Hin].
    + apply Hevents in Hin. destruct Hin.
    + apply Hlog2 in Hin. destruct Hin as (Hhook & _ & st & Hst & Hw & _).
      split; [exact Hhook |]. split.
      * apply JsMapFacts.has_In. eauto.
      * intros Hc. apply (Hscan st Hst) in Hc. congruence.
  - intros (Hhook & Hin & Hout). apply JsMapFacts.has_In in Hin. destruct Hin as [st Hst].
    exists (instance st), timeMs. apply in_or_app. right. apply Hlog2. simpl.
    repeat split; auto. exists st. repeat split; auto.
    destruct (inWindow timeMs st) eqn:Hw; [| reflexivity].
    destruct Hout. now apply (Hscan st Hst).
Qed.

(** Forward, with skipping allowed: the hook is called for the descriptors
    the last time was strictly inside of and whose end the time has
    reached. *)
Lemma forward_step_destroy (this this' : Timeline Instance) (timeMs : Z)
      (events : list (Event Instance)) (j : Z) (e : TimelineElement Instance) :
  forwardInvariant this ->
  notBefore (lastTimeMs this) timeMs ->
  update this timeMs true = Normal (this', events) ->
  elementAt (elements this) j = Some e ->
  ((exists x t, In (DestroyElement j x t) events) <->
   destroyElement this = true /\
   insideAt e (lastTimeMs this) /\ endTimeMs e <= timeMs).
Proof.
  intros Hfwd Hmono Hupd He.
  destruct (forward_step Instance this this' timeMs events Hfwd Hmono Hupd) as [_ Hbuild].
  pose proof (forward_active0 Instance this Hfwd j e He) as Hactive0.
  destruct Hfwd as (_ & _ & Hagree & _).
  rewrite (update_destroy_iff this this' timeMs true events j e Hupd Hagree He).
  rewrite Hactive0, (Hbuild j e He).
  unfold notBefore, insideAt, strictlyInside, windowContains in *.
  destruct (lastTimeMs this) as [t0 |]; intuition lia.
Qed.

Lemma nondecreasing_tail (t : Z) (rest : list Z) :
  nondecreasing (t :: rest) -> nondecreasing rest.
Proof. simpl. destruct rest; tauto. Qed.

Lemma nondecreasing_head (rest : list Z) :
  forall t, nondecreasing (t :: rest) ->
            forall n b, nth_error rest n = Some b -> t <= b.
Proof.
  induction rest as [| t' rest IH]; intros t Hnd n b Hb.
  - destruct n; discriminate.
  - destruct Hnd as [Hle Hnd]. destruct n as [| n]; simpl in Hb.
    + injection Hb as <-. exact Hle.
    + pose proof (IH t' Hnd n b Hb). lia.
Qed.

Lemma nondecreasing_nth (times : list Z) :
  nondecreasing times ->
  forall m n a b, (m <= n)%nat ->
                  nth_error times m = Some a -> nth_error times n = Some b -> a <= b.
Proof.
  induction times as [| t rest IH]; intros Hnd m n a b Hmn Ha Hb.
  - destruct m; discriminate.
  - destruct m as [| m], n as [| n]; simpl in Ha, Hb; try lia.
    + injection Ha as <-. injection Hb as <-. lia.
    + injection Ha as <-. exact (nondecreasing_head rest t Hnd n b Hb).
    + apply (IH (nondecreasing_tail t rest Hnd) m n a b); auto; lia.
Qed.

(** A forward sequence of a clock that never goes back, from a state that
    satisfies the invariant. *)
Lemma run_forward (times : list Z) :
  forall this : Timeline Instance,
    forwardInvariant this ->
    match times with
    | [] => True
    | t :: _ => notBefore (lastTimeMs this) t
    end ->
    nondecreasing times ->
    exists trace,
      run this true times = Normal trace /\
      length trace = length times /\
      forall n t this_n evs,
        nth_error times n = Some t ->
        nth_error trace n = Some (this_n, evs) ->
        elements this_n = elements this /\
        forwardInvariant this_n /\
        lastTimeMs this_n = Some t /\
        NoDup (builtIndices evs) /\
        (forall j, In (Build j) evs -> exists e, elementAt (elements this) j = Some e) /\
        forall j e,
          elementAt (elements this) j = Some e ->
          (In (Build j) evs <->
           strictlyInside e t /\ ~ insideAt e (prevTime this times n)) /\
          (createElement this = true -> In (Build j) evs ->
           In (CreateElement j (build e tt) t) evs) /\
          ((exists x t', In (DestroyElement j x t') evs) <->
           destroyElement this = true /\
           insideAt e (prevTime this times n) /\ endTimeMs e <= t).
Proof.
  induction times as [| t rest IH]; intros this Hfwd Hmono Hnd.
  - exists []. split; [reflexivity |]. split; [reflexivity |].
    intros n t this_n evs Hn. destruct n; discriminate.
  - destruct (update_total Instance this t true) as [this' [events Hupd]].
    destruct (forward_step Instance this this' t events Hfwd Hmono Hupd) as [Hfwd' Hbuild].
    destruct (update_summary Instance this t true this' events Hupd)
      as (first & index & active & log1 & log2 & _ & _ & _ & _ & _ & _
          & Hel & Hlast & _ & Hcreate & _ & Hdestroy & _).
    assert (Hmono' : match rest with
                     | [] => True
                     | t' :: _ => notBefore (lastTimeMs this') t'
                     end).
    { destruct rest as [| t' rest']; [exact I |]. rewrite Hlast. simpl in *. tauto. }
    destruct (IH this' Hfwd' Hmono' (nondecreasing_tail t rest Hnd)) as [trace [Hrun [Hlen Hcalls]]].
    exists ((this', events) :: trace). simpl. rewrite Hupd, Hrun.
    split; [reflexivity |]. split; [now rewrite Hlen |].
    intros n tn this_n evs Htn Hsnap. destruct n as [| n]; simpl in Htn, Hsnap.
    + injection Htn as <-. injection Hsnap as <- <-.
      split; [exact Hel |]. split; [exact Hfwd' |]. split; [exact Hlast |].
      split; [exact (update_built_once Instance this this' t true events Hupd) |].
      split.
      { intros j Hin.
        destruct (update_build Instance this this' t true events Hupd j Hin) as [e [He _]].
        eauto. }
      intros j e He. split; [now apply Hbuild |]. split.
      * intros Hhook Hin.
        exact (update_built_create Instance this this' t true events Hupd j e Hin He Hhook).
      * now apply forward_step_destroy with (this' := this').
    + destruct (Hcalls n tn this_n evs Htn Hsnap)
        as (Hel_n & Hfwd_n & Hlast_n & Hnodup & Hexists & Hprops).
      rewrite Hel in Hel_n, Hexists.
      split; [exact Hel_n |]. split; [exact Hfwd_n |]. split; [exact Hlast_n |].
      split; [exact Hnodup |]. split; [exact Hexists |].
      intros j e He. rewrite <- Hel in He.
      destruct (Hprops j e He) as (Hb & Hc & Hd).
      assert (Hprev : prevTime this' rest n = prevTime this (t :: rest) (S n)).
      { destruct n; simpl; [exact Hlast | reflexivity]. }
      rewrite Hprev, Hcreate, Hdestroy in *. auto.
Qed.

End ForwardRuns.

(** ** Forward play, wherever the search has put the cursor

    The facts of this part follow from the scan body and the
    reconciliation alone: they use no property of the index that the
    search returns. *)

Section ForwardActivations.

Variable Instance : Type.

Lemma active_step (this this' : Timeline Instance) (timeMs : Z)
      (events : list (Event Instance)) :
  activeInside this ->
  notBefore (lastTimeMs this) timeMs ->
  update this timeMs true = Normal (this', events) ->
  activeInside this' /\
  forall j e,
    elementAt (elements this) j = Some e ->
    (In (Build j) events ->
     strictlyInside e timeMs /\ JsMap.has j (activeElements this) = false) /\
    (JsMap.has j (activeElements this') = true <->
     strictlyInside e timeMs /\
     (JsMap.has j (activeElements this) = true \/ In (Build j) events)) /\
    ((exists x t', In (DestroyElement j x t') events) <->
     destroyElement this = true /\ endTimeMs e <= timeMs /\
     JsMap.has j (activeElements this) = true).
Proof.
  intros (Hskip & Hagree & Hinside) Hmono Hupd.
  destruct (update_summary Instance this timeMs true this' events Hupd)
    as (first & index & active & log1 & log2 & _ & _ & _ & _ & _ & _
        & Hel & Hlast & _ & _ & _ & _ & Hskip').
  assert (Hstarted : forall j e,
             elementAt (elements this) j = Some e ->
             JsMap.has j (activeElements this) = true -> startTimeMs e < timeMs).
  { intros j e He Hhas. specialize (Hinside j e He Hhas).
    destruct (lastTimeMs this) as [l |]; simpl in Hinside, Hmono; [| contradiction].
    unfold strictlyInside in Hinside. lia. }
  assert (Hbuilt : forall j e,
             elementAt (elements this) j = Some e ->
             In (Build j) events ->
             strictlyInside e timeMs /\ JsMap.has j (activeElements this) = false).
  { intros j e He Hin.
    destruct (update_build Instance this this' timeMs true events Hupd j Hin)
      as (e' & He' & Hcrossed & Hcond).
    rewrite He in He'. injection He' as <-.
    unfold crossed in Hcrossed. unfold buildCondition in Hcond.
    destruct Hcond as [Hno | [Hend Hfree]]; [congruence |].
    unfold strictlyInside. split; [lia | exact Hfree]. }
  assert (Hhas : forall j e,
             elementAt (elements this) j = Some e ->
             (JsMap.has j (activeElements this') = true <->
              strictlyInside e timeMs /\
              (JsMap.has j (activeElements this) = true \/ In (Build j) events))).
  { intros j e He.
    rewrite (update_has Instance this this' timeMs true events Hupd j Hagree).
    split.
    - intros [Hor (e' & He' & Hwin)]. rewrite He in He'. injection He' as <-.
      split; [| exact Hor].
      unfold windowContains in Hwin. unfold strictlyInside.
      destruct Hor as [Hwas | Hin].
      + pose proof (Hstarted j e He Hwas). lia.
      + destruct (Hbuilt j e He Hin) as [Hs _]. exact Hs.
    - intros [Hin Hor]. split; [exact Hor |]. exists e. split; [exact He |].
      unfold windowContains, strictlyInside in *. lia. }
  split.
  - split; [congruence |].
    split; [exact (update_entriesAgree Instance this this' timeMs true events Hupd Hagree) |].
    intros j e He Hact. rewrite Hlast. simpl. rewrite Hel in He.
    exact (proj1 (proj1 (Hhas j e He) Hact)).
  - intros j e He. split; [exact (Hbuilt j e He) |]. split; [exact (Hhas j e He) |].
    rewrite (update_destroy_iff Instance this this' timeMs true events j e Hupd Hagree He).
    split.
    + intros (Hhook & Hor & Hout). split; [exact Hhook |].
      destruct Hor as [Hwas | Hin].
      * pose proof (Hstarted j e He Hwas). unfold windowContains in Hout.
        split; [lia | exact Hwas].
      * destruct (Hbuilt j e He Hin) as [Hs _].
        unfold windowContains, strictlyInside in *. lia.
    + intros (Hhook & Hend & Hwas). split; [exact Hhook |]. split; [now left |].
      unfold windowContains. lia.
Qed.

Lemma stateBefore_cons (this : Timeline Instance)
      (first : Timeline Instance * list (Event Instance))
      (trace : list (Timeline Instance * list (Event Instance))) (n : nat) :
  stateBefore this (first :: trace) (S n) = stateBefore (fst first) trace n.
Proof. destruct n; reflexivity. Qed.

(** A forward sequence of a clock that never goes back. *)
Lemma run_activations (times : list Z) :
  forall this : Timeline Instance,
    activeInside this ->
    match times with
    | [] => True
    | t :: _ => notBefore (lastTimeMs this) t
    end ->
    nondecreasing times ->
    exists trace,
      run this true times = Normal trace /\
      length trace = length times /\
      forall n t before this_n evs,
        nth_error times n = Some t ->
        stateBefore this trace n = Some before ->
        nth_error trace n = Some (this_n, evs) ->
        NoDup (builtIndices evs) /\
        forall j e,
          elementAt (elements this) j = Some e ->
          (In (Build j) evs ->
           strictlyInside e t /\ JsMap.has j (activeElements before) = false) /\
          (createElement this = true -> In (Build j) evs ->
           In (CreateElement j (build e tt) t) evs) /\
          (JsMap.has j (activeElements this_n) = true <->
           strictlyInside e t /\
           (JsMap.has j (activeElements before) = true \/ In (Build j) evs)) /\
          ((exists x t', In (DestroyElement j x t') evs) <->
           destroyElement this = true /\ endTimeMs e <= t /\
           JsMap.has j (activeElements before) = true).
Proof.
  induction times as [| t rest IH]; intros this Hact Hmono Hnd.
  - exists []. split; [reflexivity |]. split; [reflexivity |].
    intros n t before this_n evs Hn. destruct n; discriminate.
  - destruct (update_total Instance this t true) as [this' [events Hupd]].
    destruct (active_step this this' t events Hact Hmono Hupd) as [Hact' Hcall].
    destruct (update_summary Instance this t true this' events Hupd)
      as (first & index & active & log1 & log2 & _ & _ & _ & _ & _ & _
          & Hel & Hlast & _ & Hcreate & _ & Hdestroy & _).
    assert (Hmono' : match rest with
                     | [] => True
                     | t' :: _ => notBefore (lastTimeMs this') t'
                     end).
    { destruct rest as [| t' rest']; [exact I |]. rewrite Hlast. simpl in *. tauto. }
    destruct (IH this' Hact' Hmono' (nondecreasing_tail t rest Hnd))
      as [trace [Hrun [Hlen Hcalls]]].
    exists ((this', events) :: trace). simpl run. rewrite Hupd, Hrun.
    split; [reflexivity |]. split; [simpl; now rewrite Hlen |].
    intros n tn before this_n evs Htn Hbefore Hsnap. destruct n as [| n].
    + simpl in Htn, Hbefore, Hsnap.
      injection Htn as <-. injection Hbefore as <-. injection Hsnap as <- <-.
      split; [exact (update_built_once Instance this this' t true events Hupd) |].
      intros j e He. destruct (Hcall j e He) as (Hb & Hh & Hd).
      split; [exact Hb |]. split; [| split; [exact Hh | exact Hd]].
      intros Hhook Hin.
      exact (update_built_create Instance this this' t true events Hupd j e Hin He Hhook).
    + rewrite stateBefore_cons in Hbefore. simpl in Htn, Hbefore, Hsnap.
      destruct (Hcalls n tn before this_n evs Htn Hbefore Hsnap) as [Hnodup Hprops].
      split; [exact Hnodup |].
      intros j e He. rewrite <- Hel in He.
      destruct (Hprops j e He) as (Hb & Hc & Hh & Hd).
      rewrite Hcreate in Hc. rewrite Hdestroy in Hd. auto.
Qed.

(** A descriptor that is active, or whose end the clock has passed, is
    not built by any later call. *)
Lemma run_no_rebuild (times : list Z) :
  forall (this : Timeline Instance) trace j e,
    activeInside this ->
    match times with
    | [] => True
    | t :: _ => notBefore (lastTimeMs this) t
    end ->
    nondecreasing times ->
    run this true times = Normal trace ->
    elementAt (elements this) j = Some e ->
    (JsMap.has j (activeElements this) = true \/
     exists l, lastTimeMs this = Some l /\ endTimeMs e <= l) ->
    forall n s evs, nth_error trace n = Some (s, evs) -> ~ In (Build j) evs.
Proof.
  induction times as [| t rest IH]; intros this trace j e Hact Hmono Hnd Hrun He Hcase.
  - simpl in Hrun. injection Hrun as <-. intros n s evs Hn. destruct n; discriminate.
  - simpl in Hrun.
    destruct (update this t true) as [[this' events] | |] eqn:Hupd; try discriminate.
    destruct (run this' true rest) as [trace' | |] eqn:Hrun'; try discriminate.
    injection Hrun as <-.
    destruct (active_step this this' t events Hact Hmono Hupd) as [Hact' Hcall].
    destruct (Hcall j e He) as (Hb & Hh & _).
    destruct (update_summary Instance this t true this' events Hupd)
      as (first & index & active & log1 & log2 & _ & _ & _ & _ & _ & _
          & Hel & Hlast & _).
    assert (Hstarted : JsMap.has j (activeElements this) = true -> startTimeMs e < t).
    { intros Hwas. destruct Hact as (_ & _ & Hinside).
      specialize (Hinside j e He Hwas).
      destruct (lastTimeMs this) as [l |]; simpl in Hinside, Hmono; [| contradiction].
      unfold strictlyInside in Hinside. lia. }
    assert (Hended : (exists l, lastTimeMs this = Some l /\ endTimeMs e <= l) ->
                     endTimeMs e <= t).
    { intros (l & Hl & Hle). rewrite Hl in Hmono. simpl in Hmono. lia. }
    intros n s evs Hn. destruct n as [| n]; simpl in Hn.
    + injection Hn as <- <-. intros Hin. destruct (Hb Hin) as [Hs Hfree].
      destruct Hcase as [Hwas | Hpast]; [congruence |].
      pose proof (Hended Hpast). unfold strictlyInside in Hs. lia.
    + assert (Hmono' : match rest with
                       | [] => True
                       | t' :: _ => notBefore (lastTimeMs this') t'
                       end).
      { destruct rest as [| t' rest']; [exact I |]. rewrite Hlast. simpl in *. tauto. }
      apply (IH this' trace' j e Hact' Hmono' (nondecreasing_tail t rest Hnd) Hrun'
                ltac:(rewrite Hel; exact He)) with (n := n) (s := s); [| exact Hn].
      destruct (Z_lt_le_dec t (endTimeMs e)) as [Hlt | Hge].
      * destruct Hcase as [Hwas | Hpast].
        -- left. apply Hh. split; [| now left].
           pose proof (Hstarted Hwas). unfold strictlyInside. lia.
        -- pose proof (Hended Hpast). lia.
      * right. exists t. split; [exact Hlast | exact Hge].
Qed.

(** No two calls of the sequence build the same descriptor. *)
Lemma run_build_once (times : list Z) :
  forall (this : Timeline Instance) trace,
    activeInside this ->
    match times with
    | [] => True
    | t :: _ => notBefore (lastTimeMs this) t
    end ->
    nondecreasing times ->
    run this true times = Normal trace ->
    forall n1 n2 s1 s2 evs1 evs2 j,
      (n1 < n2)%nat ->
      nth_error trace n1 = Some (s1, evs1) ->
      nth_error trace n2 = Some (s2, evs2) ->
      In (Build j) evs1 -> In (Build j) evs2 -> False.
Proof.
  induction times as [| t rest IH]; intros this trace Hact Hmono Hnd Hrun.
  - simpl in Hrun. injection Hrun as <-. intros n1 n2 s1 s2 evs1 evs2 j _ H1.
    destruct n1; discriminate.
  - simpl in Hrun.
    destruct (update this t true) as [[this' events] | |] eqn:Hupd; try discriminate.
    destruct (run this' true rest) as [trace' | |] eqn:Hrun'; try discriminate.
    injection Hrun as <-.
    destruct (active_step this this' t events Hact Hmono Hupd) as [Hact' Hcall].
    destruct (update_summary Instance this t true this' events Hupd)
      as (first & index & active & log1 & log2 & _ & _ & _ & _ & _ & _
          & Hel & Hlast & _).
    assert (Hmono' : match rest with
                     | [] => True
                     | t' :: _ => notBefore (lastTimeMs this') t'
                     end).
    { destruct rest as [| t' rest']; [exact I |]. rewrite Hlast. simpl in *. tauto. }
    intros n1 n2 s1 s2 evs1 evs2 j Hlt H1 H2 Hb1 Hb2.
    destruct n2 as [| n2]; [lia |]. simpl in H2.
    destruct n1 as [| n1]; simpl in H1.
    + injection H1 as <- <-.
      destruct (update_build Instance this this' t true events Hupd j Hb1) as (e & He & _).
      destruct (Hcall j e He) as (Hb & Hh & _).
      apply (run_no_rebuild rest this' trace' j e Hact' Hmono'
               (nondecreasing_tail t rest Hnd) Hrun' ltac:(rewrite Hel; exact He))
        with (n := n2) (s := s2) (evs := evs2); [| exact H2 | exact Hb2].
      left. apply Hh. split; [exact (proj1 (Hb Hb1)) | now right].
    + exact (IH this' trace' Hact' Hmono' (nondecreasing_tail t rest Hnd) Hrun'
                n1 n2 s1 s2 evs1 evs2 j ltac:(lia) H1 H2 Hb1 Hb2).
Qed.

End ForwardActivations.

(** * The claims of the specification *)

(** ** Forward play: activation and deactivation (C1) *)

Lemma newTimeline_forwardInvariant (Instance : Type) (options : TimelineOptions Instance) :
  optAllowSkippingElements options = Some true ->
  forwardInvariant (newTimeline options).
Proof.
  intros Hskip. unfold forwardInvariant. simpl. rewrite Hskip.
  split; [reflexivity |]. split; [apply newTimeline_sorted |].
  split; [intros k st [] | split; reflexivity].
Qed.

(** C1, as the specification states it, fails on the code in three ways.
    In the scenario A[0,1000) B[500,1500) C[2000,3000), [update(0)] calls
    no factory and leaves the active set empty although [0 >= startTime]
    holds for A (the loop test is [timeMs > startTimeMs]).  A coarse step
    drops an activation: over the windows [0,10) [20,30) [40,50), the calls
    [update(5)] and [update(45)] never build the second descriptor.  And
    when skipping is not allowed, a descriptor is built more than once:
    over [0,1000) and [100,200), the calls at 50, 150 and 250 build the
    first descriptor at 50 and again at 250. *)
Lemma C1_counterexample :
  (startTimeMs (descriptor 0 1000 1) <= 0 /\
   exists this',
     update (newTimeline (displayObjectOptions scenarioABC)) 0 true = Normal (this', []) /\
     activeElements this' = []) /\
  (exists s1 e1 s2 e2,
     run (newTimeline (plainOptions scenarioGaps)) true [5; 45]
     = Normal [(s1, e1); (s2, e2)] /\
     ~ In (Build 1) e1 /\ ~ In (Build 1) e2) /\
  (exists s1 e1 s2 e2 s3 e3,
     run (newTimeline (plainOptions scenarioNested)) true [50; 150; 250]
     = Normal [(s1, e1); (s2, e2); (s3, e3)] /\
     In (Build 0) e1 /\ In (Build 0) e3).
Proof.
  split; [| split].
  - split; [simpl; lia |]. eexists. split; reflexivity.
  - do 4 eexists. split; [reflexivity |]. split; simpl; intuition discriminate.
  - do 6 eexists. split; [reflexivity |]. split; simpl; tauto.
Qed.

(** Forward play with a search that returns the first match.  For a
    timeline that allows skipping and a clock that never goes back, every
    forward [update] completes, and for each descriptor [j]: the call at
    time [t] calls its factory exactly when [t] is the first time of the
    sequence with [startTime < t < endTime]; after each call [j] is in the
    active set exactly when the time of the call is strictly inside its
    window; and the on-deactivate hook, if there is one, is called for
    [j] exactly by the call whose time has reached [endTime] while the
    time of the call before was strictly inside the window. *)
Lemma forward_play_first_match
        (Instance : Type) (options : TimelineOptions Instance) (times : list Z) :
  optAllowSkippingElements options = Some true ->
  nondecreasing times ->
  exists trace,
    run (newTimeline options) true times = Normal trace /\
    length trace = length times /\
    (forall n t this_n evs j e,
        nth_error times n = Some t ->
        nth_error trace n = Some (this_n, evs) ->
        elementAt (elements (newTimeline options)) j = Some e ->
        (In (Build j) evs <->
         strictlyInside e t /\
         forall m t', (m < n)%nat -> nth_error times m = Some t' -> ~ strictlyInside e t') /\
        NoDup (builtIndices evs) /\
        (optCreateElement options = true -> In (Build j) evs ->
         In (CreateElement j (build e tt) t) evs) /\
        (JsMap.has j (activeElements this_n) = true <-> strictlyInside e t) /\
        ((exists x t', In (DestroyElement j x t') evs) <->
         optDestroyElement options = true /\ endTimeMs e <= t /\
         exists m t', n = S m /\ nth_error times m = Some t' /\ strictlyInside e t')) /\
    (forall n1 n2 s1 s2 evs1 evs2 j,
        nth_error trace n1 = Some (s1, evs1) ->
        nth_error trace n2 = Some (s2, evs2) ->
        In (Build j) evs1 -> In (Build j) evs2 -> n1 = n2).
Proof.
  intros Hskip Hnd.
  destruct (run_forward Instance times (newTimeline options)
              (newTimeline_forwardInvariant Instance options Hskip))
    as [trace [Hrun [Hlen Hcalls]]]; [destruct times; exact I | exact Hnd |].
  exists trace. split; [exact Hrun |]. split; [exact Hlen |].
  assert (Hper : forall n t this_n evs j e,
             nth_error times n = Some t ->
             nth_error trace n = Some (this_n, evs) ->
             elementAt (elements (newTimeline options)) j = Some e ->
             (In (Build j) evs <->
              strictlyInside e t /\
              forall m t', (m < n)%nat -> nth_error times m = Some t' ->
                           ~ strictlyInside e t') /\
             NoDup (builtIndices evs) /\
             (optCreateElement options = true -> In (Build j) evs ->
              In (CreateElement j (build e tt) t) evs) /\
             (JsMap.has j (activeElements this_n) = true <-> strictlyInside e t) /\
             ((exists x t', In (DestroyElement j x t') evs) <->
              optDestroyElement options = true /\ endTimeMs e <= t /\
              exists m t', n = S m /\ nth_error times m = Some t' /\
                           strictlyInside e t')).
  { intros n t this_n evs j e Ht Hsnap He.
    destruct (Hcalls n t this_n evs Ht Hsnap)
      as (Hel & Hfwd & Hlast & Hnodup & _ & Hprops).
    destruct (Hprops j e He) as (Hbuild & Hcreate & Hdestroy).
    assert (Hhas : JsMap.has j (activeElements this_n) = true <-> strictlyInside e t).
    { destruct Hfwd as (_ & _ & _ & Hstate). rewrite Hlast in Hstate.
      destruct Hstate as (c & _ & _ & _ & _ & Hactive). apply Hactive.
      rewrite Hel. exact He. }
    split; [| split; [exact Hnodup | split; [exact Hcreate | split; [exact Hhas |]]]].
    - rewrite Hbuild. destruct n as [| m]; simpl.
      + split; [intros [Hin _]; split; [exact Hin | intros; lia] | intros [Hin _]; tauto].
      + destruct (nth_error times m) as [tm |] eqn:Htm.
        * simpl. split.
          -- intros [Hin Hnot]. split; [exact Hin |]. intros m' t' Hm' Ht' Hin'.
             pose proof (nondecreasing_nth times Hnd m' m t' tm ltac:(lia) Ht' Htm).
             pose proof (nondecreasing_nth times Hnd m (S m) tm t ltac:(lia) Htm Ht).
             unfold strictlyInside in *. lia.
          -- intros [Hin Hall]. split; [exact Hin |]. apply (Hall m tm); [lia | exact Htm].
        * apply nth_error_None in Htm.
          assert (S m < length times)%nat by (apply nth_error_Some; congruence). lia.
    - rewrite Hdestroy. destruct n as [| m]; simpl.
      + split; [tauto |]. intros (_ & _ & m & t' & Hm & _). discriminate.
      + destruct (nth_error times m) as [tm |] eqn:Htm; simpl.
        * split.
          -- intros (Hhook & Hin & Hend). repeat split; auto. exists m, tm. auto.
          -- intros (Hhook & Hend & m' & t' & Hm & Ht' & Hin). injection Hm as <-.
             rewrite Htm in Ht'. injection Ht' as <-. auto.
        * split; [tauto |]. intros (_ & _ & m' & t' & Hm & Ht' & _). injection Hm as <-.
          congruence. }
  split; [exact Hper |].
  assert (Hlater : forall n1 n2 s1 s2 evs1 evs2 j,
             (n1 < n2)%nat ->
             nth_error trace n1 = Some (s1, evs1) ->
             nth_error trace n2 = Some (s2, evs2) ->
             In (Build j) evs1 -> In (Build j) evs2 -> False).
  { intros n1 n2 s1 s2 evs1 evs2 j Hlt H1 H2 Hb1 Hb2.
    assert (Hn1 : (n1 < length times)%nat).
    { rewrite <- Hlen. apply nth_error_Some. congruence. }
    assert (Hn2 : (n2 < length times)%nat).
    { rewrite <- Hlen. apply nth_error_Some. congruence. }
    destruct (nth_error times n1) as [t1 |] eqn:Ht1;
      [| apply nth_error_None in Ht1; lia].
    destruct (nth_error times n2) as [t2 |] eqn:Ht2;
      [| apply nth_error_None in Ht2; lia].
    destruct (Hcalls n1 t1 s1 evs1 Ht1 H1) as (_ & _ & _ & _ & Hexists & _).
    destruct (Hexists j Hb1) as [e He].
    destruct (Hper n1 t1 s1 evs1 j e Ht1 H1 He) as [Hiff1 _].
    destruct (Hper n2 t2 s2 evs2 j e Ht2 H2 He) as [Hiff2 _].
    apply Hiff1 in Hb1. apply Hiff2 in Hb2.
    destruct Hb1 as [Hin1 _]. destruct Hb2 as [_ Hnone].
    exact (Hnone n1 t1 Hlt Ht1 Hin1). }
  intros n1 n2 s1 s2 evs1 evs2 j H1 H2 Hb1 Hb2.
  destruct (Nat.lt_trichotomy n1 n2) as [Hlt | [Heq | Hgt]]; [| exact Heq |].
  - destruct (Hlater n1 n2 s1 s2 evs1 evs2 j Hlt H1 H2 Hb1 Hb2).
  - destruct (Hlater n2 n1 s2 s1 evs2 evs1 j Hgt H2 H1 Hb2 Hb1).
Qed.

(** C1, amended.  For a timeline that allows skipping and a clock that
    never goes back, every forward [update] completes, and for each
    descriptor [j]: a call at time [t] calls its factory only when
    [startTime < t < endTime] and [j] is not in the active set when the
    call starts, and then calls it once, with the on-activate hook if there
    is one; no two calls of the sequence build [j]; after the call [j] is in
    the active set exactly when [startTime < t < endTime] and [j] was in the
    set when the call started or was built by the call; and the
    on-deactivate hook, if there is one, is called for [j] exactly by the
    call whose time has reached [endTime] while [j] was in the active set
    when the call started.  When moreover no descriptor ends before one
    that stands before it in the array, so that the test of the search,
    once true, stays true along the array and the search has one answer,
    the factory of [j] is called exactly by the call whose time is the
    first of the sequence strictly inside the window, and after each call
    [j] is in the active set exactly when the time of the call is strictly
    inside its window. *)
Theorem C1_forward_play_activates_at_most_once
        (Instance : Type) (options : TimelineOptions Instance) (times : list Z) :
  optAllowSkippingElements options = Some true ->
  nondecreasing times ->
  exists trace,
    run (newTimeline options) true times = Normal trace /\
    length trace = length times /\
    (forall n t before this_n evs j e,
        nth_error times n = Some t ->
        stateBefore (newTimeline options) trace n = Some before ->
        nth_error trace n = Some (this_n, evs) ->
        elementAt (elements (newTimeline options)) j = Some e ->
        (In (Build j) evs ->
         strictlyInside e t /\ JsMap.has j (activeElements before) = false) /\
        NoDup (builtIndices evs) /\
        (optCreateElement options = true -> In (Build j) evs ->
         In (CreateElement j (build e tt) t) evs) /\
        (JsMap.has j (activeElements this_n) = true <->
         strictlyInside e t /\
         (JsMap.has j (activeElements before) = true \/ In (Build j) evs)) /\
        ((exists x t', In (DestroyElement j x t') evs) <->
         optDestroyElement options = true /\ endTimeMs e <= t /\
         JsMap.has j (activeElements before) = true)) /\
    (forall n1 n2 s1 s2 evs1 evs2 j,
        nth_error trace n1 = Some (s1, evs1) ->
        nth_error trace n2 = Some (s2, evs2) ->
        In (Build j) evs1 -> In (Build j) evs2 -> n1 = n2) /\
    (endsInOrder (elements (newTimeline options)) ->
     forall n t this_n evs j e,
       nth_error times n = Some t ->
       nth_error trace n = Some (this_n, evs) ->
       elementAt (elements (newTimeline options)) j = Some e ->
       (In (Build j) evs <->
        strictlyInside e t /\
        forall m t', (m < n)%nat -> nth_error times m = Some t' -> ~ strictlyInside e t') /\
       (JsMap.has j (activeElements this_n) = true <-> strictlyInside e t)).
Proof.
  intros Hskip Hnd.
  assert (Hact : activeInside (newTimeline options)).
  { unfold activeInside. simpl. rewrite Hskip.
    split; [reflexivity |]. split; [intros k st [] |].
    intros j e _ Hhas. discriminate. }
  destruct (run_activations Instance times (newTimeline options) Hact)
    as (trace & Hrun & Hlen & Hcalls); [destruct times; exact I | exact Hnd |].
  exists trace. split; [exact Hrun |]. split; [exact Hlen |].
  split; [| split].
  - intros n t before this_n evs j e Ht Hb Htr He.
    destruct (Hcalls n t before this_n evs Ht Hb Htr) as [Hnodup Hprops].
    destruct (Hprops j e He) as (Hbuild & Hcreate & Hhas & Hdestroy).
    split; [exact Hbuild |]. split; [exact Hnodup |]. split; [exact Hcreate |].
    split; [exact Hhas | exact Hdestroy].
  - intros n1 n2 s1 s2 evs1 evs2 j H1 H2 Hb1 Hb2.
    assert (Hhead : match times with
                    | [] => True
                    | t :: _ => notBefore (lastTimeMs (newTimeline options)) t
                    end) by (destruct times; exact I).
    destruct (Nat.lt_trichotomy n1 n2) as [Hlt | [Heq | Hgt]]; [| exact Heq |].
    + destruct (run_build_once Instance times (newTimeline options) trace Hact Hhead Hnd
                  Hrun n1 n2 s1 s2 evs1 evs2 j Hlt H1 H2 Hb1 Hb2).
    + destruct (run_build_once Instance times (newTimeline options) trace Hact Hhead Hnd
                  Hrun n2 n1 s2 s1 evs2 evs1 j Hgt H2 H1 Hb2 Hb1).
  - intros _ n t this_n evs j e Ht Htr He.
    destruct (forward_play_first_match Instance options times Hskip Hnd)
      as (trace' & Hrun' & _ & Hper & _).
    rewrite Hrun in Hrun'. injection Hrun' as <-.
    destruct (Hper n t this_n evs j e Ht Htr He) as (Hbuild & _ & _ & Hhas & _).
    split; [exact Hbuild | exact Hhas].
Qed.

(** The scenario of the specification, played forward; its end times are
    in order. *)
Lemma C1_witness :
  optAllowSkippingElements (displayObjectOptions scenarioABC) = Some true /\
  nondecreasing [0; 600; 1000; 1600; 2000; 2500] /\
  endsInOrder (elements (newTimeline (displayObjectOptions scenarioABC))) /\
  exists trace,
    run (newTimeline (displayObjectOptions scenarioABC)) true
        [0; 600; 1000; 1600; 2000; 2500] = Normal trace /\
    length trace = 6%nat.
Proof.
  split; [reflexivity |]. split; [simpl; lia |].
  split; [repeat constructor; unfold endLe; simpl; lia |].
  destruct (C1_forward_play_activates_at_most_once
              nat (displayObjectOptions scenarioABC)
              [0; 600; 1000; 1600; 2000; 2500] eq_refl)
    as [trace [Hrun [Hlen _]]]; [simpl; lia |].
  exists trace. split; [exact Hrun | exact Hlen].
Defined.

(** ** The audio layer: drift tolerance (C2) and out-of-bounds stop (C5) *)

(** Whatever the jump, [seek] starts with a seek of the voice: the call
    before the bounds test is unconditional. *)
Lemma seekElement_always_seeks (lastTime timeMs : Z)
      (inst : AudioLayer.AudioTimelineInstance) (snd : AudioLayer.Howl) :
  AudioLayer.sound inst = Some snd ->
  exists rest,
    AudioLayer.seekElement lastTime timeMs inst
    = AudioLayer.Seek (inject_Z (AudioLayer.seekTimeMs lastTime timeMs inst) / 1000)%Q
                      (AudioLayer.soundId inst) :: rest.
Proof.
  intros Hsound. unfold AudioLayer.seekElement. rewrite Hsound. eauto.
Qed.

(** The voice is stopped exactly when it plays and the relative position
    is negative or not below [sample.startTime] plus the duration. *)
Lemma seekElement_stops (lastTime timeMs : Z)
      (inst : AudioLayer.AudioTimelineInstance) (snd : AudioLayer.Howl) :
  AudioLayer.sound inst = Some snd ->
  (existsb AudioLayer.isStop (AudioLayer.seekElement lastTime timeMs inst) = true <->
   AudioLayer.playing snd = true /\
   (AudioLayer.seekTimeMs lastTime timeMs inst < 0 \/
    (inject_Z (AudioLayer.startTime (AudioLayer.sample inst))
     + AudioLayer.sampleDurationMs snd
     <= inject_Z (AudioLayer.seekTimeMs lastTime timeMs inst))%Q)).
Proof.
  intros Hsound. unfold AudioLayer.seekElement. rewrite Hsound. simpl.
  rewrite <- Qle_bool_iff, <- Z.ltb_lt, <- orb_true_iff.
  destruct (_ || _).
  - destruct (AudioLayer.playing snd); simpl; intuition discriminate.
  - destruct (20 <? _); simpl; intuition discriminate.
Qed.

(** C2: the code against the claim.  A ten-second sample that starts at 0
    is active after [update(100)].  [seek(110)] is a jump of 10 ms to the
    position 120 ms, inside the sample: the claim has no seek command
    issued, the code issues one.  [seek(200)] is a jump of 100 ms to the
    position 300 ms: the claim has exactly one seek issued, the code issues
    two. *)
Theorem C2_seek_within_tolerance_still_seeks :
  AudioLayer.constructor [longVoiceElement]
  = Normal {| AudioLayer.timeline := newTimeline (AudioLayer.audioOptions [longVoiceElement]);
              AudioLayer.lastTimeMs := 0 |} /\
  AudioLayer.update
    {| AudioLayer.timeline := newTimeline (AudioLayer.audioOptions [longVoiceElement]);
       AudioLayer.lastTimeMs := 0 |} 100
  = Normal (audioAfter [longVoiceElement] 100, [Build 0]) /\
  JsMap.keys (activeElements (AudioLayer.timeline (audioAfter [longVoiceElement] 100))) = [0] /\
  Z.abs (110 - AudioLayer.lastTimeMs (audioAfter [longVoiceElement] 100)) <= 20 /\
  AudioLayer.seek (audioAfter [longVoiceElement] 100) 110
  = [AudioLayer.Seek (inject_Z 120 / 1000)%Q (Some 2)] /\
  AudioLayer.seek (audioAfter [longVoiceElement] 100) 200
  = [AudioLayer.Seek (inject_Z 300 / 1000)%Q (Some 2);
     AudioLayer.Seek (inject_Z 300 / 1000)%Q (Some 2)].
Proof.
  split; [reflexivity |]. split; [reflexivity |]. split; [reflexivity |].
  split; [simpl; lia |]. split; reflexivity.
Qed.

(** C5: the code against the claim.  A one-second sample that starts at
    5000 is active and playing after [update(5800)].  [seek(5900)] computes
    the relative position 1000 ms, the natural end of the sample: the claim
    has the voice stopped, the code compares the relative position with
    [sample.startTime] plus the duration, 6000 ms, and does not stop it. *)
Theorem C5_position_at_natural_end_not_stopped :
  AudioLayer.constructor [shortVoiceElement]
  = Normal {| AudioLayer.timeline := newTimeline (AudioLayer.audioOptions [shortVoiceElement]);
              AudioLayer.lastTimeMs := 0 |} /\
  AudioLayer.update
    {| AudioLayer.timeline := newTimeline (AudioLayer.audioOptions [shortVoiceElement]);
       AudioLayer.lastTimeMs := 0 |} 5800
  = Normal (audioAfter [shortVoiceElement] 5800, [Build 0]) /\
  AudioLayer.seekTimeMs 5800 5900 shortVoice = 1000 /\
  (AudioLayer.sampleDurationMs {| AudioLayer.duration := 1; AudioLayer.playing := true |}
   == inject_Z 1000)%Q /\
  AudioLayer.sound shortVoice
  = Some {| AudioLayer.duration := 1; AudioLayer.playing := true |} /\
  AudioLayer.seek (audioAfter [shortVoiceElement] 5800) 5900
  = [AudioLayer.Seek (inject_Z 1000 / 1000)%Q (Some 1);
     AudioLayer.Seek (inject_Z 1000 / 1000)%Q (Some 1)] /\
  existsb AudioLayer.isStop (AudioLayer.seek (audioAfter [shortVoiceElement] 5800) 5900) = false.
Proof.
  repeat split; reflexivity.
Qed.

(** ** The active set after a call (C3) *)

(** C3, as stated, fails: in the scenario A[0,1000) B[500,1500)
    C[2000,3000), after [update(0)] and [update(500)] the window of B
    contains 500 and has not elapsed, yet only A is in the active set. *)
Lemma C3_counterexample :
  windowContains (descriptor 500 1500 2) 500 /\
  elementAt (elements (newTimeline (displayObjectOptions scenarioABC))) 1
  = Some (descriptor 500 1500 2) /\
  exists s1 e1 s2 e2,
    run (newTimeline (displayObjectOptions scenarioABC)) true [0; 500]
    = Normal [(s1, e1); (s2, e2)] /\
    JsMap.keys (activeElements s2) = [0] /\
    JsMap.has 1 (activeElements s2) = false.
Proof.
  split; [unfold windowContains; simpl; lia |]. split; [reflexivity |].
  do 4 eexists. repeat split; reflexivity.
Qed.

(** C3, amended.  After any call [update(T)], in either direction, from a
    state whose entries are those of their descriptors: every entry of the
    active set has [startTime <= T < endTime]; and a descriptor is in the
    active set exactly when its window contains [T] and it was in the set
    before the call or was built by the scan of this call.  The entries
    stay those of their descriptors. *)
Theorem C3_active_set_after_update
        (Instance : Type) (this : Timeline Instance) (timeMs : Z) (forward : bool) :
  entriesAgree this ->
  exists this' events,
    update this timeMs forward = Normal (this', events) /\
    entriesAgree this' /\
    (forall k st, In (k, st) (activeElements this') ->
                  stateStartTimeMs st <= timeMs < stateEndTimeMs st) /\
    (forall k, JsMap.has k (activeElements this') = true <->
               (JsMap.has k (activeElements this) = true \/ In (Build k) events) /\
               exists e, elementAt (elements this) k = Some e /\
                         windowContains e timeMs).
Proof.
  intros Hagree.
  destruct (update_total Instance this timeMs forward) as [this' [events Hupd]].
  exists this', events. split; [exact Hupd |].
  split; [exact (update_entriesAgree Instance this this' timeMs forward events Hupd Hagree) |].
  split.
  - intros k st Hin.
    pose proof (update_entries_inWindow Instance this this' timeMs forward events Hupd k st Hin)
      as Hw.
    unfold inWindow in Hw. apply andb_true_iff in Hw. destruct Hw as [H1 H2].
    apply Z.leb_le in H1. apply Z.ltb_lt in H2. lia.
  - intros k. exact (update_has Instance this this' timeMs forward events Hupd k Hagree).
Qed.

(** The scenario after [update(600)], then [update(1000)]. *)
Lemma C3_witness :
  entriesAgree (stateAfter (newTimeline (displayObjectOptions scenarioABC)) true [600]) /\
  exists this' events,
    update (stateAfter (newTimeline (displayObjectOptions scenarioABC)) true [600]) 1000 true
    = Normal (this', events) /\
    forall k st, In (k, st) (activeElements this') ->
                 stateStartTimeMs st <= 1000 < stateEndTimeMs st.
Proof.
  assert (Hagree : entriesAgree
                     (stateAfter (newTimeline (displayObjectOptions scenarioABC)) true [600])).
  { intros k st Hin. simpl in Hin.
    destruct Hin as [H | [H | []]]; injection H as <- <-; eexists;
      (split; [reflexivity | split; reflexivity]). }
  split; [exact Hagree |].
  destruct (C3_active_set_after_update nat
              (stateAfter (newTimeline (displayObjectOptions scenarioABC)) true [600])
              1000 true Hagree)
    as [this' [events [Hupd [_ [Hwin _]]]]].
  exists this', events. split; [exact Hupd | exact Hwin].
Defined.

(** ** Skip-bypass (C4) *)

(** C4.  With skipping allowed, a call [update(T)], in either direction
    and from any state, completes and calls neither the factory nor the
    on-activate hook of any descriptor with [endTime <= T]. *)
Theorem C4_skip_bypass_builds_nothing_elapsed
        (Instance : Type) (this : Timeline Instance) (timeMs : Z) (forward : bool) :
  allowSkippingElements this = true ->
  exists this' events,
    update this timeMs forward = Normal (this', events) /\
    forall k e, elementAt (elements this) k = Some e ->
                endTimeMs e <= timeMs ->
                ~ In (Build k) events /\
                forall x t, ~ In (CreateElement k x t) events.
Proof.
  intros Hskip.
  destruct (update_total Instance this timeMs forward) as [this' [events Hupd]].
  exists this', events. split; [exact Hupd |].
  intros k e He Hended.
  assert (Hnot : ~ In (Build k) events).
  { intros Hin.
    destruct (update_build Instance this this' timeMs forward events Hupd k Hin)
      as [e' [He' [_ [Hf | [Hlt _]]]]]; [congruence |].
    rewrite He in He'. injection He' as <-. lia. }
  split; [exact Hnot |].
  intros x t Hin. apply Hnot.
  exact (update_create_built Instance this this' timeMs forward events Hupd k x t Hin).
Qed.

(** A seek straight to 1800 on the new scenario: A and B have elapsed. *)
Lemma C4_witness :
  allowSkippingElements (newTimeline (displayObjectOptions scenarioABC)) = true /\
  exists this' events,
    update (newTimeline (displayObjectOptions scenarioABC)) 1800 true
    = Normal (this', events) /\
    ~ In (Build 0) events /\ ~ In (Build 1) events.
Proof.
  split; [reflexivity |].
  destruct (C4_skip_bypass_builds_nothing_elapsed nat
              (newTimeline (displayObjectOptions scenarioABC)) 1800 true eq_refl)
    as [this' [events [Hupd Hnone]]].
  exists this', events. split; [exact Hupd |]. split.
  - apply (Hnone 0 (descriptor 0 1000 1)); [reflexivity | simpl; lia].
  - apply (Hnone 1 (descriptor 500 1500 2)); [reflexivity | simpl; lia].
Defined.

(** ** Windows of no duration (C6) *)

(** C6, as stated, fails: with skipping allowed, the clock crosses the
    window [10,10) between [update(5)] and [update(15)] and nothing is
    activated or destroyed; without skipping, the same crossing in front of
    the window [20,30) resynchronises the cursor past the first descriptor,
    and again nothing happens. *)
Lemma C6_counterexample :
  (exists s1 s2,
     run (newTimeline (displayObjectOptions scenarioInstant)) true [5; 15]
     = Normal [(s1, []); (s2, [])]) /\
  (exists s1 s2,
     run (newTimeline (plainOptions scenarioInstantThen)) true [5; 15]
     = Normal [(s1, []); (s2, [])]).
Proof. split; do 2 eexists; reflexivity. Qed.

(** C6, amended.  For a descriptor with [startTime = endTime], every call
    of [update] completes; it never invokes the on-tick hook for the
    descriptor and leaves it out of the active set; if the call builds the
    descriptor, it does so once, invokes the on-activate hook and, in the
    same call, the on-deactivate hook (when installed); and a forward call
    with skipping allowed does not build it. *)
Theorem C6_zero_duration_descriptor
        (Instance : Type) (this : Timeline Instance) (timeMs : Z) (forward : bool)
        (j : Z) (e : TimelineElement Instance) :
  entriesAgree this ->
  elementAt (elements this) j = Some e ->
  startTimeMs e = endTimeMs e ->
  exists this' events,
    update this timeMs forward = Normal (this', events) /\
    (forall x t, ~ In (UpdateElement j x t) events) /\
    JsMap.has j (activeElements this') = false /\
    NoDup (builtIndices events) /\
    (In (Build j) events ->
     (createElement this = true -> In (CreateElement j (build e tt) timeMs) events) /\
     (destroyElement this = true -> In (DestroyElement j (build e tt) timeMs) events)) /\
    (allowSkippingElements this = true -> forward = true -> ~ In (Build j) events).
Proof.
  intros Hagree He Hzero.
  destruct (update_total Instance this timeMs forward) as [this' [events Hupd]].
  assert (Hout : ~ windowContains e timeMs) by (unfold windowContains; lia).
  exists this', events. split; [exact Hupd |]. repeat apply conj.
  - intros x t Hin.
    destruct (update_tick Instance this this' timeMs forward events Hupd j x t Hagree Hin)
      as [e' [He' Hw]].
    rewrite He in He'. injection He' as <-. contradiction.
  - destruct (JsMap.has j (activeElements this')) eqn:Hhas; [| reflexivity].
    apply (update_has Instance this this' timeMs forward events Hupd j Hagree) in Hhas.
    destruct Hhas as [_ [e' [He' Hw]]]. rewrite He in He'. injection He' as <-. contradiction.
  - exact (update_built_once Instance this this' timeMs forward events Hupd).
  - intros Hin. split; intros Hhook.
    + exact (update_built_create Instance this this' timeMs forward events Hupd j e Hin He Hhook).
    + exact (update_build_destroy Instance this this' timeMs forward events Hupd j e
               Hin He Hout Hhook).
  - intros Hskip -> Hin.
    destruct (update_build Instance this this' timeMs true events Hupd j Hin)
      as [e' [He' [Hc [Hf | [Hlt _]]]]]; [congruence |].
    rewrite He in He'. injection He' as <-. simpl in Hc. lia.
Qed.

(** The window [10,10) without skipping, at the call [update(15)]. *)
Lemma C6_witness :
  entriesAgree (newTimeline (plainOptions scenarioInstant)) /\
  elementAt (elements (newTimeline (plainOptions scenarioInstant))) 0
  = Some (descriptor 10 10 1) /\
  startTimeMs (descriptor 10 10 1) = endTimeMs (descriptor 10 10 1) /\
  exists this' events,
    update (newTimeline (plainOptions scenarioInstant)) 15 true = Normal (this', events) /\
    (forall x t, ~ In (UpdateElement 0 x t) events) /\
    JsMap.has 0 (activeElements this') = false.
Proof.
  assert (Hagree : entriesAgree (newTimeline (plainOptions scenarioInstant))).
  { intros k st []. }
  split; [exact Hagree |]. split; [reflexivity |]. split; [reflexivity |].
  destruct (C6_zero_duration_descriptor nat (newTimeline (plainOptions scenarioInstant))
              15 true 0 (descriptor 10 10 1) Hagree eq_refl eq_refl)
    as [this' [events [Hupd [Htick [Hhas _]]]]].
  exists this', events. split; [exact Hupd |]. split; [exact Htick | exact Hhas].
Defined.

(** ** Malformed descriptors (C7) *)

(** C7, as stated, fails: a descriptor with [endTime < startTime] is
    accepted by the constructor, which reports nothing. *)
Lemma C7_counterexample :
  endTimeMs (descriptor 10 5 1) < startTimeMs (descriptor 10 5 1) /\
  In (descriptor 10 5 1) scenarioMalformed /\
  exists this,
    constructor (plainOptions scenarioMalformed) = Normal this /\
    elements this = scenarioMalformed.
Proof.
  split; [simpl; lia |]. split; [now left |]. eexists. split; reflexivity.
Qed.

(** C7, amended.  The constructor never fails and checks no bounds:
    whatever the descriptors, it returns a timeline whose array holds
    exactly the given descriptors, in ascending order of start time. *)
Theorem C7_constructor_accepts_any_descriptors
        (Instance : Type) (options : TimelineOptions Instance) :
  exists this,
    constructor options = Normal this /\
    Permutation (elements this) (optElements options) /\
    sortedByStart (elements this) /\
    activeElements this = [].
Proof.
  exists (newTimeline options). split; [reflexivity |].
  split; [apply sortByStart_perm |]. split; [apply newTimeline_sorted | reflexivity].
Qed.

(** ** Cursor resynchronisation (C8) *)

Lemma findIndex_first_unique {A : Type} (arr : list A) (p : A -> bool) (k : Z) (x : A) :
  elementAt arr k = Some x -> p x = true ->
  (forall j y, 0 <= j < k -> elementAt arr j = Some y -> p y = false) ->
  findIndex arr p = k.
Proof.
  intros Hx Hp Hprev.
  pose proof (elementAt_Some_range arr k x Hx) as Hk.
  pose proof (findIndex_range arr p) as Hr.
  destruct (Z.eq_dec (findIndex arr p) (-1)) as [Hnone | Hsome].
  - rewrite findIndex_none in Hnone. rewrite (Hnone x (elementAt_In arr k x Hx)) in Hp.
    discriminate.
  - destruct (findIndex_found arr p (findIndex arr p) eq_refl ltac:(lia))
      as [[y [Hy Hpy]] Hbefore].
    destruct (Z.lt_trichotomy (findIndex arr p) k) as [Hlt | [Heq | Hgt]]; [| exact Heq |].
    + rewrite (Hprev (findIndex arr p) y ltac:(lia) Hy) in Hpy. discriminate.
    + rewrite (Hbefore k x ltac:(lia) Hx) in Hp. discriminate.
Qed.

(** A backward scan from "no index" does nothing. *)
Lemma scanLoop_backward_no_index (Instance : Type) (this : Timeline Instance)
      (fuel : nat) (timeMs : Z) (active : JsMap.t (TimelineElementState Instance))
      (log : list (Event Instance)) :
  scanLoop this (S fuel) (-1) timeMs false active log = Normal (-1, active, log).
Proof. reflexivity. Qed.

(** C8.  When the cursor is stale, [setInitialElementIndex] sets it from
    the search with the predicate of the direction ([timeMs < endTimeMs]
    forward, [timeMs > startTimeMs] backward): to the first index that
    satisfies the predicate, if there is one; otherwise to 0 forward and to
    "no index" ([-1]) backward, from where the backward scan activates
    nothing and [update] calls no factory. *)
Theorem C8_stale_cursor_resync
        (Instance : Type) (this : Timeline Instance) (index timeMs : Z) (forward : bool) :
  cursorIsFresh this index timeMs forward = false ->
  (forall e : TimelineElement Instance,
      searchPredicate timeMs true e = (timeMs <? endTimeMs e)) /\
  (forall e : TimelineElement Instance,
      searchPredicate timeMs false e = (startTimeMs e <? timeMs)) /\
  (forall k e,
      elementAt (elements this) k = Some e ->
      searchPredicate timeMs forward e = true ->
      (forall j y, 0 <= j < k -> elementAt (elements this) j = Some y ->
                   searchPredicate timeMs forward y = false) ->
      setInitialElementIndex this index timeMs forward = k) /\
  ((forall e, In e (elements this) -> searchPredicate timeMs forward e = false) ->
   (forward = true -> setInitialElementIndex this index timeMs forward = 0) /\
   (forward = false ->
    setInitialElementIndex this index timeMs forward = -1 /\
    (forall fuel active log,
        scanLoop this (S fuel) (setInitialElementIndex this index timeMs forward)
                 timeMs false active log
        = Normal (-1, active, log)) /\
    (nextElementIndex this = Some index ->
     exists this' events,
       update this timeMs false = Normal (this', events) /\
       nextElementIndex this' = Some (-1) /\
       builtIndices events = []))).
Proof.
  intros Hstale. split; [reflexivity |]. split; [reflexivity |]. split.
  - intros k e He Hp Hprev. unfold setInitialElementIndex. rewrite Hstale.
    rewrite (findIndex_first_unique (elements this) (searchPredicate timeMs forward) k e
               He Hp Hprev).
    pose proof (elementAt_Some_range _ _ _ He) as Hk.
    destruct forward; [| reflexivity].
    destruct (Z.leb_spec 0 k); [reflexivity | lia].
  - intros Hnone.
    assert (Hfound : findIndex (elements this) (searchPredicate timeMs forward) = -1).
    { now apply findIndex_none. }
    assert (Hcursor : setInitialElementIndex this index timeMs forward
                      = if forward then 0 else -1).
    { unfold setInitialElementIndex. rewrite Hstale, Hfound. now destruct forward. }
    split; intros ->; [exact Hcursor |].
    split; [exact Hcursor |]. split.
    + intros fuel active log. rewrite Hcursor. apply scanLoop_backward_no_index.
    + intros Hnext.
      destruct (update_total Instance this timeMs false) as [this' [events Hupd]].
      exists this', events. split; [exact Hupd |].
      destruct (update_summary Instance this timeMs false this' events Hupd)
        as (first & i2 & active & log1 & log2 & Hfirst & Hinv & _ & Hev & Hlog2 & _
            & _ & _ & Hnext' & _).
      rewrite Hnext, Hcursor in Hfirst. subst first.
      destruct Hinv as (Hbetween & Hbuilt & Hvisited & _).
      simpl in Hbetween. unfold visited in Hbuilt, Hvisited.
      assert (Hi2 : i2 = -1).
      { destruct (Z.eq_dec i2 (-1)) as [E | Hne]; [exact E |].
        destruct (Hvisited (-1) ltac:(lia)) as [e [He _]].
        apply elementAt_Some_range in He. lia. }
      subst i2. split; [exact Hnext' |].
      apply builtIndices_nil. intros k Hin. rewrite Hev in Hin.
      apply in_app_or in Hin. destruct Hin as [Hin | Hin].
      * apply In_Build_builtIndices in Hin. apply Hbuilt in Hin. lia.
      * apply Hlog2 in Hin. destruct Hin.
Qed.

(** The scenario after [update(600)], sought backward to a time before
    every start. *)
Lemma C8_witness :
  cursorIsFresh (stateAfter (newTimeline (displayObjectOptions scenarioABC)) true [600])
                2 (-5) false = false /\
  setInitialElementIndex (stateAfter (newTimeline (displayObjectOptions scenarioABC)) true [600])
                         2 (-5) false = -1.
Proof.
  split; [reflexivity |].
  apply (C8_stale_cursor_resync nat
           (stateAfter (newTimeline (displayObjectOptions scenarioABC)) true [600])
           2 (-5) false eq_refl).
  - intros e Hin. simpl in Hin.
    destruct Hin as [<- | [<- | [<- | []]]]; reflexivity.
  - reflexivity.
Defined.

(** ** Totality of [update] (C9) *)

(** C9.  From every state, at every time and in either direction,
    [update] completes: it raises no [TypeError] on an array read and the
    scan ends.  The result is a function of the state, the time and the
    direction; it keeps the array and the options and records the time. *)
Theorem C9_update_never_fails
        (Instance : Type) (this : Timeline Instance) (timeMs : Z) (forward : bool) :
  exists this' events,
    update this timeMs forward = Normal (this', events) /\
    elements this' = elements this /\
    lastTimeMs this' = Some timeMs /\
    allowSkippingElements this' = allowSkippingElements this.
Proof.
  destruct (update_total Instance this timeMs forward) as [this' [events Hupd]].
  exists this', events. split; [exact Hupd |].
  destruct (update_summary Instance this timeMs forward this' events Hupd)
    as (first & index & active & log1 & log2 & _ & _ & _ & _ & _ & _
        & Hel & Hlast & _ & _ & _ & _ & Hskip).
  auto.
Qed.

(** ** No second instance for an active key (C10) *)

(** C10.  With skipping allowed, a call of [update], in either direction
    and from any state, calls the factory and the on-activate hook only for
    indices that are not in the active set, and for each index at most
    once; the keys of the active set stay unique. *)
Theorem C10_active_key_not_rebuilt
        (Instance : Type) (this : Timeline Instance) (timeMs : Z) (forward : bool) :
  allowSkippingElements this = true ->
  exists this' events,
    update this timeMs forward = Normal (this', events) /\
    (forall k, In (Build k) events -> JsMap.has k (activeElements this) = false) /\
    (forall k x t, In (CreateElement k x t) events ->
                   JsMap.has k (activeElements this) = false) /\
    NoDup (builtIndices events) /\
    (NoDup (JsMap.keys (activeElements this)) ->
     NoDup (JsMap.keys (activeElements this'))).
Proof.
  intros Hskip.
  destruct (update_total Instance this timeMs forward) as [this' [events Hupd]].
  assert (Hbuild : forall k, In (Build k) events ->
                             JsMap.has k (activeElements this) = false).
  { intros k Hin.
    destruct (update_build Instance this this' timeMs forward events Hupd k Hin)
      as [e [_ [_ [Hf | [_ Hnot]]]]]; [congruence | exact Hnot]. }
  exists this', events. split; [exact Hupd |]. repeat apply conj.
  - exact Hbuild.
  - intros k x t Hin. apply Hbuild.
    exact (update_create_built Instance this this' timeMs forward events Hupd k x t Hin).
  - exact (update_built_once Instance this this' timeMs forward events Hupd).
  - exact (update_keys_NoDup Instance this timeMs forward this' events Hupd).
Qed.

(** The scenario after [update(600)], with A and B active, sought backward
    to 300: the cursor is resynchronised behind A, which is not rebuilt. *)
Lemma C10_witness :
  allowSkippingElements
    (stateAfter (newTimeline (displayObjectOptions scenarioABC)) true [600]) = true /\
  JsMap.keys (activeElements
                (stateAfter (newTimeline (displayObjectOptions scenarioABC)) true [600]))
  = [0; 1] /\
  exists this' events,
    update (stateAfter (newTimeline (displayObjectOptions scenarioABC)) true [600]) 300 false
    = Normal (this', events) /\
    ~ In (Build 0) events.
Proof.
  split; [reflexivity |]. split; [reflexivity |].
  destruct (C10_active_key_not_rebuilt nat
              (stateAfter (newTimeline (displayObjectOptions scenarioABC)) true [600])
              300 false eq_refl)
    as [this' [events [Hupd [Hbuild _]]]].
  exists this', events. split; [exact Hupd |].
  intros Hin. apply Hbuild in Hin. discriminate.
Defined.

(** * Further properties of the engine *)

Section EngineExtras.

Variable Instance : Type.

Lemma has_element_of_entry (this : Timeline Instance) (k : Z) :
  entriesAgree this ->
  JsMap.has k (activeElements this) = true ->
  exists e, elementAt (elements this) k = Some e.
Proof.
  intros Hagree Hhas. apply JsMapFacts.has_In in Hhas. destruct Hhas as [st Hin].
  destruct (Hagree k st Hin) as [e [He _]]. eauto.
Qed.

(** The cursor that a call leaves. *)
Lemma update_cursor (this this' : Timeline Instance) (timeMs : Z) (forward : bool)
      (events : list (Event Instance)) :
  update this timeMs forward = Normal (this', events) ->
  exists c,
    nextElementIndex this' = Some c /\
    (if forward then 0 <= c <= len (elements this) else -1 <= c < len (elements this)) /\
    shouldAddNextElement this c timeMs forward = Normal false.
Proof.
  intros Hupd.
  destruct (update_summary Instance this timeMs forward this' events Hupd)
    as (first & index & active & log1 & log2 & Hfirst & Hinv & Hexit & _ & _ & _
        & _ & _ & Hnext & _).
  destruct Hinv as (Hbetween & _ & Hvisited & _).
  exists index. split; [exact Hnext |]. split; [| exact Hexit].
  destruct forward; simpl in Hbetween; unfold visited in Hvisited.
  - pose proof (setInitialElementIndex_forward_range Instance this
                  (match nextElementIndex this with Some i => i | None => 0 end) timeMs) as Hr.
    rewrite <- Hfirst in Hr.
    destruct (Z.eq_dec index first) as [-> | Hne]; [lia |].
    destruct (Hvisited (index - 1) ltac:(lia)) as [e [He _]].
    apply elementAt_Some_range in He. lia.
  - pose proof (setInitialElementIndex_backward_range Instance this
                  (match nextElementIndex this with
                   | Some i => i
                   | None => len (elements this) - 1
                   end) timeMs) as Hr.
    rewrite <- Hfirst in Hr.
    destruct (Z.eq_dec index first) as [-> | Hne]; [lia |].
    destruct (Hvisited (index + 1) ltac:(lia)) as [e [He _]].
    apply elementAt_Some_range in He. lia.
Qed.

End EngineExtras.

(** X1.  Whatever the state, the time and the direction, the cursor that
    [update] leaves is inside the array or one step outside it: between 0
    and the length after a forward call, between -1 and the length minus
    one after a backward call; and the element at the cursor, if there is
    one, has not been crossed by the time (forward its start is not before
    the time, backward its end is not after it). *)
Theorem X1_cursor_stays_in_bounds
        (Instance : Type) (this : Timeline Instance) (timeMs : Z) (forward : bool) :
  exists this' events c,
    update this timeMs forward = Normal (this', events) /\
    nextElementIndex this' = Some c /\
    (forward = true -> 0 <= c <= len (elements this')) /\
    (forward = false -> -1 <= c < len (elements this')) /\
    (forall e, elementAt (elements this') c = Some e ->
               if forward then timeMs <= startTimeMs e else endTimeMs e <= timeMs).
Proof.
  destruct (update_total Instance this timeMs forward) as [this' [events Hupd]].
  destruct (update_cursor Instance this this' timeMs forward events Hupd)
    as [c [Hnext [Hrange Hexit]]].
  destruct (update_summary Instance this timeMs forward this' events Hupd)
    as (first & index & active & log1 & log2 & _ & _ & _ & _ & _ & _ & Hel & _).
  exists this', events, c. rewrite Hel.
  split; [exact Hupd |]. split; [exact Hnext |].
  split; [intros ->; exact Hrange |]. split; [intros ->; exact Hrange |].
  intros e He. unfold shouldAddNextElement in Hexit. rewrite He in Hexit.
  pose proof (elementAt_Some_range _ _ _ He) as Hr.
  destruct forward.
  - destruct (Z.ltb_spec c (len (elements this))); [| lia]. simpl in Hexit.
    injection Hexit as Hexit. now apply Z.ltb_ge in Hexit.
  - destruct (Z.leb_spec 0 c); [| lia]. simpl in Hexit.
    injection Hexit as Hexit. now apply Z.ltb_ge in Hexit.
Qed.

Section EngineCalls.

Variable Instance : Type.
Variable this this' : Timeline Instance.
Variable timeMs : Z.
Variable forward : bool.
Variable events : list (Event Instance).
Hypothesis Hupdate : update this timeMs forward = Normal (this', events).

(** The events of a call: those of the scan, then those of the
    reconciliation; every hook is handed the time of the call. *)
Lemma update_event_order :
  exists scanned reconciled,
    events = scanned ++ reconciled /\
    forallb (@isActivation Instance) scanned = true /\
    forallb (@isReconciliation Instance) reconciled = true /\
    forall ev t, In ev events -> hookTime ev = Some t -> t = timeMs.
Proof.
  destruct (update_summary Instance this timeMs forward this' events Hupdate)
    as (first & index & active & log1 & log2 & _ & Hinv & _ & -> & Hlog2 & _).
  destruct Hinv as (_ & _ & _ & _ & _ & _ & _ & Hevents & _).
  exists log1, log2. split; [reflexivity |]. repeat apply conj.
  - apply forallb_forall. intros ev Hin. apply Hevents in Hin.
    destruct ev; simpl in *; tauto.
  - apply forallb_forall. intros ev Hin. apply Hlog2 in Hin.
    destruct ev; simpl in *; tauto.
  - intros ev t Hin Ht. apply in_app_or in Hin. destruct Hin as [Hin | Hin].
    + apply Hevents in Hin. destruct ev; simpl in *; try discriminate; try tauto.
      injection Ht as <-. tauto.
    + apply Hlog2 in Hin. destruct ev; simpl in *; try discriminate; try tauto;
        injection Ht as <-; tauto.
Qed.

(** An index whose entry is handed to a hook of the reconciliation has a
    descriptor. *)
Lemma update_scanned_entry :
  entriesAgree this ->
  forall k,
    (JsMap.has k (activeElements this) = true \/ In (Build k) events) ->
    exists e, elementAt (elements this) k = Some e.
Proof.
  intros Hagree k [Hhas | Hin].
  - now apply has_element_of_entry.
  - destruct (update_build Instance this this' timeMs forward events Hupdate k Hin)
      as [e [He _]]. eauto.
Qed.

Lemma update_reconciled_key (k : Z) (x : Instance) (t : Z) :
  In (UpdateElement k x t) events \/ In (DestroyElement k x t) events ->
  JsMap.has k (activeElements this) = true \/ In (Build k) events.
Proof.
  destruct (update_summary Instance this timeMs forward this' events Hupdate)
    as (first & index & active & log1 & log2 & _ & Hinv & _ & -> & Hlog2 & _).
  destruct Hinv as (_ & _ & _ & Hhas & _ & _ & _ & Hevents & _).
  assert (Hkey : forall st, In (k, st) active ->
                 JsMap.has k (activeElements this) = true \/ In (Build k) (log1 ++ log2)).
  { intros st Hst.
    assert (Hk : JsMap.has k active = true) by (apply JsMapFacts.has_In; eauto).
    apply Hhas in Hk. destruct Hk as [Hk | Hk]; [now left | right].
    apply in_or_app. left. now apply In_Build_builtIndices. }
  intros [Hin | Hin]; apply in_app_or in Hin; destruct Hin as [Hin | Hin];
    try (apply Hevents in Hin; destruct Hin);
    apply Hlog2 in Hin; destruct Hin as (_ & _ & st & Hst & _); eauto.
Qed.

(** The on-tick hook is called exactly for the keys that stay. *)
Lemma update_tick_iff (k : Z) :
  entriesAgree this ->
  ((exists x t, In (UpdateElement k x t) events) <->
   updateElement this = true /\ JsMap.has k (activeElements this') = true).
Proof.
  intros Hagree.
  pose proof (update_has Instance this this' timeMs forward events Hupdate k Hagree) as Hhas'.
  split.
  - intros (x & t & Hin). split.
    + destruct (update_summary Instance this timeMs forward this' events Hupdate)
        as (first & index & active & log1 & log2 & _ & Hinv & _ & Hev & Hlog2 & _).
      destruct Hinv as (_ & _ & _ & _ & _ & _ & _ & Hevents & _).
      rewrite Hev in Hin. apply in_app_or in Hin. destruct Hin as [Hin | Hin].
      * apply Hevents in Hin. destruct Hin.
      * apply Hlog2 in Hin. destruct Hin as [Hhook _]. exact Hhook.
    + apply Hhas'. split.
      * apply (update_reconciled_key k x t). now left.
      * exact (update_tick Instance this this' timeMs forward events Hupdate k x t Hagree Hin).
  - intros [Hhook Hhas].
    destruct (update_summary Instance this timeMs forward this' events Hupdate)
      as (first & index & active & log1 & log2 & _ & _ & _ & Hev & Hlog2 & Hact & _).
    apply JsMapFacts.has_In in Hhas. destruct Hhas as [st Hin].
    apply Hact in Hin. destruct Hin as [Hin Hall]. simpl in Hall.
    exists (instance st), timeMs. rewrite Hev. apply in_or_app. right.
    apply Hlog2. simpl. repeat split; auto. exists st. repeat split; auto.
Qed.

(** The on-deactivate hook is called exactly for the keys that were in the
    active set or were built and that are not in it after the call. *)
Lemma update_destroy_leaves (k : Z) :
  entriesAgree this ->
  ((exists x t, In (DestroyElement k x t) events) <->
   destroyElement this = true /\
   (JsMap.has k (activeElements this) = true \/ In (Build k) events) /\
   JsMap.has k (activeElements this') = false).
Proof.
  intros Hagree.
  pose proof (update_has Instance this this' timeMs forward events Hupdate k Hagree) as Hhas'.
  split.
  - intros (x & t & Hin).
    assert (Hkey : JsMap.has k (activeElements this) = true \/ In (Build k) events).
    { apply (update_reconciled_key k x t). now right. }
    destruct (update_scanned_entry Hagree k Hkey) as [e He].
    destruct (proj1 (update_destroy_iff Instance this this' timeMs forward events k e
                       Hupdate Hagree He)) as (Hhook & _ & Hout); [eauto |].
    split; [exact Hhook |]. split; [exact Hkey |].
    destruct (JsMap.has k (activeElements this')) eqn:E; [| reflexivity].
    destruct (proj1 Hhas' eq_refl) as [_ [e' [He' Hw]]].
    rewrite He in He'. injection He' as <-. contradiction.
  - intros (Hhook & Hkey & Hgone).
    destruct (update_scanned_entry Hagree k Hkey) as [e He].
    apply (update_destroy_iff Instance this this' timeMs forward events k e Hupdate Hagree He).
    split; [exact Hhook |]. split; [exact Hkey |].
    intros Hw. assert (JsMap.has k (activeElements this') = true); [| congruence].
    apply Hhas'. split; [exact Hkey | eauto].
Qed.

End EngineCalls.

(** X2.  In every call of [update], all factory calls and on-activate
    calls come before all on-tick and on-deactivate calls, and every hook
    is handed the time of the call. *)
Theorem X2_activations_before_reconciliation
        (Instance : Type) (this : Timeline Instance) (timeMs : Z) (forward : bool) :
  exists this' events scanned reconciled,
    update this timeMs forward = Normal (this', events) /\
    events = scanned ++ reconciled /\
    forallb (@isActivation Instance) scanned = true /\
    forallb (@isReconciliation Instance) reconciled = true /\
    forall ev t, In ev events -> hookTime ev = Some t -> t = timeMs.
Proof.
  destruct (update_total Instance this timeMs forward) as [this' [events Hupd]].
  destruct (update_event_order Instance this this' timeMs forward events Hupd)
    as (scanned & reconciled & H).
  exists this', events, scanned, reconciled. split; [exact Hupd | exact H].
Qed.

(** X3.  From a state whose entries carry the bounds of their descriptors,
    a call of [update] invokes the on-tick hook (if installed) for exactly
    the keys that are in the active set after the call; without the hook
    there is no such event. *)
Theorem X3_tick_exactly_the_survivors
        (Instance : Type) (this : Timeline Instance) (timeMs : Z) (forward : bool) :
  entriesAgree this ->
  exists this' events,
    update this timeMs forward = Normal (this', events) /\
    forall k, (exists x t, In (UpdateElement k x t) events) <->
              updateElement this = true /\
              JsMap.has k (activeElements this') = true.
Proof.
  intros Hagree.
  destruct (update_total Instance this timeMs forward) as [this' [events Hupd]].
  exists this', events. split; [exact Hupd |].
  intros k. exact (update_tick_iff Instance this this' timeMs forward events Hupd k Hagree).
Qed.

(** X4.  From a state whose entries carry the bounds of their descriptors,
    a call of [update] with the on-deactivate hook installed invokes it for
    exactly the keys that were active before the call or were built by it
    and that are not in the active set after it: no key leaves the set
    without the hook, and the hook is called for no key that stays. *)
Theorem X4_destroy_exactly_the_leavers
        (Instance : Type) (this : Timeline Instance) (timeMs : Z) (forward : bool) :
  entriesAgree this ->
  destroyElement this = true ->
  exists this' events,
    update this timeMs forward = Normal (this', events) /\
    forall k, (exists x t, In (DestroyElement k x t) events) <->
              (JsMap.has k (activeElements this) = true \/ In (Build k) events) /\
              JsMap.has k (activeElements this') = false.
Proof.
  intros Hagree Hhook.
  destruct (update_total Instance this timeMs forward) as [this' [events Hupd]].
  exists this', events. split; [exact Hupd |].
  intros k.
  rewrite (update_destroy_leaves Instance this this' timeMs forward events Hupd k Hagree).
  tauto.
Qed.

(** ** States reached by playing, and the replay of a time *)

Section ReachedStates.

Variable Instance : Type.

Lemma newTimeline_entriesAgree (options : TimelineOptions Instance) :
  entriesAgree (newTimeline options).
Proof. intros k st []. Qed.

Lemma stateAfter_cons (this : Timeline Instance) (forward : bool) (t : Z) (rest : list Z) :
  stateAfter this forward (t :: rest)
  = stateAfter (match update this t forward with
                | Normal (s', _) => s'
                | _ => this
                end) forward rest.
Proof. reflexivity. Qed.

Lemma stateAfter_entriesAgree (forward : bool) (times : list Z) :
  forall this : Timeline Instance,
    entriesAgree this -> entriesAgree (stateAfter this forward times).
Proof.
  induction times as [| t rest IH]; intros this Hagree; [exact Hagree |].
  rewrite stateAfter_cons.
  destruct (update_total Instance this t forward) as [this' [events Hupd]].
  rewrite Hupd. apply IH.
  exact (update_entriesAgree Instance this this' t forward events Hupd Hagree).
Qed.

(** Forward play by a clock that does not go back keeps the invariant, and
    the last time played is the one recorded. *)
Lemma stateAfter_forward (times : list Z) :
  forall this : Timeline Instance,
    forwardInvariant this ->
    match times with
    | [] => True
    | t :: _ => notBefore (lastTimeMs this) t
    end ->
    nondecreasing times ->
    forwardInvariant (stateAfter this true times) /\
    forall t, nth_error times (length times - 1) = Some t ->
              lastTimeMs (stateAfter this true times) = Some t.
Proof.
  induction times as [| t rest IH]; intros this Hfwd Hmono Hnd.
  - split; [exact Hfwd |]. intros t H. discriminate.
  - rewrite stateAfter_cons.
    destruct (update_total Instance this t true) as [this' [events Hupd]].
    rewrite Hupd.
    destruct (forward_step Instance this this' t events Hfwd Hmono Hupd) as [Hfwd' _].
    destruct (update_summary Instance this t true this' events Hupd)
      as (first & index & active & log1 & log2 & _ & _ & _ & _ & _ & _
          & _ & Hlast & _).
    assert (Hmono' : match rest with
                     | [] => True
                     | t' :: _ => notBefore (lastTimeMs this') t'
                     end).
    { destruct rest as [| t' rest']; [exact I |]. rewrite Hlast. simpl in *. tauto. }
    destruct (IH this' Hfwd' Hmono' (nondecreasing_tail t rest Hnd)) as [Hinv Hlast'].
    split; [exact Hinv |].
    intros tl Htl. destruct rest as [| t' rest'].
    + simpl in Htl. injection Htl as <-. exact Hlast.
    + apply Hlast'. simpl in Htl. simpl. rewrite Nat.sub_0_r in *. exact Htl.
Qed.

Lemma nth_error_last (times : list Z) (t : Z) :
  nth_error (times ++ [t]) (length (times ++ [t]) - 1) = Some t.
Proof.
  rewrite length_app. simpl. replace (length times + 1 - 1)%nat with (length times) by lia.
  rewrite nth_error_app2 by lia. now rewrite Nat.sub_diag.
Qed.

(** A call at the time just played builds and destroys nothing. *)
Lemma forward_replay (this this' : Timeline Instance) (timeMs : Z)
      (events : list (Event Instance)) :
  forwardInvariant this ->
  lastTimeMs this = Some timeMs ->
  update this timeMs true = Normal (this', events) ->
  builtIndices events = [] /\
  (forall ev, In ev events -> exists k x, ev = UpdateElement k x timeMs) /\
  forall k, JsMap.has k (activeElements this') = JsMap.has k (activeElements this).
Proof.
  intros Hfwd Hlast Hupd.
  assert (Hmono : notBefore (lastTimeMs this) timeMs) by (rewrite Hlast; simpl; lia).
  destruct (forward_step Instance this this' timeMs events Hfwd Hmono Hupd) as [Hfwd' Hbuild].
  pose proof (forward_active0 Instance this Hfwd) as Hactive.
  pose proof (forward_active0 Instance this' Hfwd') as Hactive'.
  assert (Hagree : entriesAgree this) by (destruct Hfwd as (_ & _ & H & _); exact H).
  pose proof (update_entriesAgree Instance this this' timeMs true events Hupd Hagree) as Hagree'.
  destruct (update_summary Instance this timeMs true this' events Hupd)
    as (first & index & active & log1 & log2 & _ & _ & _ & _ & _ & _
        & Hel & Hlast' & _).
  assert (Hnone : forall k, ~ In (Build k) events).
  { intros k Hin.
    destruct (update_build Instance this this' timeMs true events Hupd k Hin) as [e [He _]].
    apply (Hbuild k e He) in Hin. rewrite Hlast in Hin. simpl in Hin. tauto. }
  assert (Hsame : forall k, JsMap.has k (activeElements this')
                            = JsMap.has k (activeElements this)).
  { intros k.
    destruct (JsMap.has k (activeElements this')) eqn:E', (JsMap.has k (activeElements this)) eqn:E;
      try reflexivity.
    - destruct (has_element_of_entry Instance this' k Hagree' E') as [e He].
      pose proof (proj1 (Hactive' k e He) E') as Hin. rewrite Hlast' in Hin.
      rewrite Hel in He. pose proof (Hactive k e He) as Hiff.
      rewrite Hlast in Hiff. apply Hiff in Hin. congruence.
    - destruct (has_element_of_entry Instance this k Hagree E) as [e He].
      pose proof (proj1 (Hactive k e He) E) as Hin. rewrite Hlast in Hin.
      rewrite <- Hel in He. pose proof (Hactive' k e He) as Hiff.
      rewrite Hlast' in Hiff. apply Hiff in Hin. congruence. }
  split; [now apply builtIndices_nil |]. split; [| exact Hsame].
  intros ev Hin.
  destruct (update_event_order Instance this this' timeMs true events Hupd)
    as (_ & _ & _ & _ & _ & Htime).
  destruct ev as [k | k x t | k x t | k x t].
  - destruct (Hnone k Hin).
  - destruct (Hnone k (update_create_built Instance this this' timeMs true events Hupd k x t Hin)).
  - exists k, x. now rewrite (Htime _ t Hin eq_refl).
  - assert (Hd : exists x0 t0, In (DestroyElement k x0 t0) events) by eauto.
    apply (update_destroy_leaves Instance this this' timeMs true events Hupd k Hagree) in Hd.
    destruct Hd as (_ & [Hwas | Hb] & Hgone); [| destruct (Hnone k Hb)].
    rewrite Hsame in Hgone. congruence.
Qed.

End ReachedStates.

(** X5.  After a new timeline that allows skipping has been played forward
    through times that never decrease, a further forward call at the last
    of these times calls no factory and no on-activate or on-deactivate
    hook: its only events are ticks at that time, and the same keys stay
    active. *)
Theorem X5_forward_replay_only_ticks
        (Instance : Type) (options : TimelineOptions Instance) (times : list Z) (t : Z) :
  optAllowSkippingElements options = Some true ->
  nondecreasing (times ++ [t]) ->
  exists this' events,
    update (stateAfter (newTimeline options) true (times ++ [t])) t true
    = Normal (this', events) /\
    builtIndices events = [] /\
    (forall ev, In ev events -> exists k x, ev = UpdateElement k x t) /\
    forall k, JsMap.has k (activeElements this')
              = JsMap.has k (activeElements
                               (stateAfter (newTimeline options) true (times ++ [t]))).
Proof.
  intros Hskip Hnd.
  destruct (stateAfter_forward Instance (times ++ [t]) (newTimeline options)
              (newTimeline_forwardInvariant Instance options Hskip))
    as [Hfwd Hlast]; [destruct (times ++ [t]); exact I | exact Hnd |].
  specialize (Hlast t (nth_error_last times t)).
  destruct (update_total Instance (stateAfter (newTimeline options) true (times ++ [t])) t true)
    as [this' [events Hupd]].
  exists this', events. split; [exact Hupd |].
  exact (forward_replay Instance _ this' t events Hfwd Hlast Hupd).
Qed.

(** The scenario played to 600, then 600 again. *)
Lemma X5_witness :
  optAllowSkippingElements (displayObjectOptions scenarioABC) = Some true /\
  nondecreasing ([0] ++ [600]) /\
  exists this' events,
    update (stateAfter (newTimeline (displayObjectOptions scenarioABC)) true ([0] ++ [600]))
           600 true
    = Normal (this', events) /\
    builtIndices events = [].
Proof.
  split; [reflexivity |]. split; [simpl; lia |].
  destruct (X5_forward_replay_only_ticks nat (displayObjectOptions scenarioABC) [0] 600 eq_refl)
    as [this' [events [Hupd [Hnone _]]]]; [simpl; lia |].
  exists this', events. split; [exact Hupd | exact Hnone].
Defined.

(** The scenario after [update(600)], at the call [update(1000)]. *)
Lemma X3_witness :
  entriesAgree (stateAfter (newTimeline (displayObjectOptions scenarioABC)) true [600]) /\
  exists this' events,
    update (stateAfter (newTimeline (displayObjectOptions scenarioABC)) true [600]) 1000 true
    = Normal (this', events) /\
    ((exists x t, In (UpdateElement 1 x t) events) <->
     updateElement (stateAfter (newTimeline (displayObjectOptions scenarioABC)) true [600])
     = true /\
     JsMap.has 1 (activeElements this') = true).
Proof.
  assert (Hagree : entriesAgree
                     (stateAfter (newTimeline (displayObjectOptions scenarioABC)) true [600])).
  { apply stateAfter_entriesAgree, newTimeline_entriesAgree. }
  split; [exact Hagree |].
  destruct (X3_tick_exactly_the_survivors nat
              (stateAfter (newTimeline (displayObjectOptions scenarioABC)) true [600])
              1000 true Hagree)
    as [this' [events [Hupd Hticks]]].
  exists this', events. split; [exact Hupd | exact (Hticks 1)].
Defined.

Lemma X4_witness :
  entriesAgree (stateAfter (newTimeline (displayObjectOptions scenarioABC)) true [600]) /\
  destroyElement (stateAfter (newTimeline (displayObjectOptions scenarioABC)) true [600])
  = true /\
  exists this' events,
    update (stateAfter (newTimeline (displayObjectOptions scenarioABC)) true [600]) 1000 true
    = Normal (this', events) /\
    ((exists x t, In (DestroyElement 0 x t) events) <->
     (JsMap.has 0 (activeElements
                     (stateAfter (newTimeline (displayObjectOptions scenarioABC)) true [600]))
      = true \/ In (Build 0) events) /\
     JsMap.has 0 (activeElements this') = false).
Proof.
  assert (Hagree : entriesAgree
                     (stateAfter (newTimeline (displayObjectOptions scenarioABC)) true [600])).
  { apply stateAfter_entriesAgree, newTimeline_entriesAgree. }
  split; [exact Hagree |]. split; [reflexivity |].
  destruct (X4_destroy_exactly_the_leavers nat
              (stateAfter (newTimeline (displayObjectOptions scenarioABC)) true [600])
              1000 true Hagree eq_refl)
    as [this' [events [Hupd Hleft]]].
  exists this', events. split; [exact Hupd | exact (Hleft 0)].
Defined.

(** ** A timeline without descriptors *)

Section EmptyTimeline.

Variable Instance : Type.

Lemma update_empty (this : Timeline Instance) (timeMs : Z) (forward : bool) :
  elements this = [] ->
  activeElements this = [] ->
  exists this',
    update this timeMs forward = Normal (this', []) /\
    elements this' = [] /\
    activeElements this' = [] /\
    nextElementIndex this' = Some (if forward then 0 else -1).
Proof.
  intros Hel Hactive.
  destruct (update_total Instance this timeMs forward) as [this' [events Hupd]].
  destruct (update_cursor Instance this this' timeMs forward events Hupd)
    as [c [Hnext [Hrange _]]].
  destruct (update_summary Instance this timeMs forward this' events Hupd)
    as (first & index & active & log1 & log2 & _ & Hinv & _ & Hev & Hlog2 & Hact
        & Hel' & _).
  destruct Hinv as (_ & Hbuilt & Hvisited & _ & _ & Hentries & _ & Hevents & _).
  assert (Hnobuilt : builtIndices log1 = []).
  { destruct (builtIndices log1) as [| k rest] eqn:E; [reflexivity |].
    destruct (Hvisited k (Hbuilt k ltac:(now left))) as [e [He _]].
    rewrite Hel in He. unfold elementAt in He. destruct (k <? 0); [discriminate |].
    destruct (Z.to_nat k); discriminate. }
  assert (Hscan : active = []).
  { destruct active as [| [k st] rest]; [reflexivity |].
    destruct (Hentries k st ltac:(now left)) as [H0 | [Hb _]].
    - rewrite Hactive in H0. destruct H0.
    - rewrite Hnobuilt in Hb. destruct Hb. }
  subst active.
  assert (Hlog1 : log1 = []).
  { destruct log1 as [| ev rest]; [reflexivity |].
    pose proof (Hevents ev ltac:(now left)) as Hev1. rewrite Hnobuilt in Hev1.
    destruct ev; simpl in Hev1; tauto. }
  assert (Hlog2' : log2 = []).
  { destruct log2 as [| ev rest]; [reflexivity |].
    pose proof (proj1 (Hlog2 ev) ltac:(now left)) as Hev2.
    destruct ev; simpl in Hev2; try tauto;
      destruct Hev2 as (_ & _ & st & [] & _). }
  assert (Hactive' : activeElements this' = []).
  { destruct (activeElements this') as [| p rest]; [reflexivity |].
    destruct (proj1 (Hact p) ltac:(now left)) as [[] _]. }
  subst log1 log2. simpl in Hev. subst events.
  exists this'. split; [exact Hupd |]. split; [congruence |]. split; [exact Hactive' |].
  rewrite Hnext. f_equal. rewrite Hel in Hrange. unfold len in Hrange. simpl in Hrange.
  destruct forward; lia.
Qed.

Lemma run_empty (forward : bool) (times : list Z) :
  forall this : Timeline Instance,
    elements this = [] ->
    activeElements this = [] ->
    exists trace,
      run this forward times = Normal trace /\
      length trace = length times /\
      forall s evs, In (s, evs) trace ->
                    evs = [] /\ activeElements s = [] /\
                    nextElementIndex s = Some (if forward then 0 else -1).
Proof.
  induction times as [| t rest IH]; intros this Hel Hactive.
  - exists []. split; [reflexivity |]. split; [reflexivity |]. intros s evs [].
  - destruct (update_empty this t forward Hel Hactive)
      as (this' & Hupd & Hel' & Hactive' & Hnext).
    destruct (IH this' Hel' Hactive') as (trace & Hrun & Hlen & Hall).
    exists ((this', []) :: trace). simpl. rewrite Hupd, Hrun.
    split; [reflexivity |]. split; [now rewrite Hlen |].
    intros s evs [Heq | Hin]; [injection Heq as <- <-; auto | now apply Hall].
Qed.

End EmptyTimeline.

(** X6.  A timeline constructed from no descriptors can be played through
    any times in either direction: every call completes with no event and
    an empty active set, and leaves the cursor at 0 (forward) or at -1
    (backward). *)
Theorem X6_empty_timeline_is_inert
        (Instance : Type) (options : TimelineOptions Instance)
        (forward : bool) (times : list Z) :
  optElements options = [] ->
  exists trace,
    run (newTimeline options) forward times = Normal trace /\
    length trace = length times /\
    forall s evs, In (s, evs) trace ->
                  evs = [] /\ activeElements s = [] /\
                  nextElementIndex s = Some (if forward then 0 else -1).
Proof.
  intros Hnone. apply run_empty; simpl; [now rewrite Hnone | reflexivity].
Qed.

Lemma X6_witness :
  optElements (displayObjectOptions (@nil (TimelineElement nat))) = [] /\
  exists trace,
    run (newTimeline (displayObjectOptions (@nil (TimelineElement nat)))) false [300; 100; 700]
    = Normal trace /\
    length trace = 3%nat.
Proof.
  split; [reflexivity |].
  destruct (X6_empty_timeline_is_inert nat (displayObjectOptions []) false [300; 100; 700]
              eq_refl)
    as [trace [Hrun [Hlen _]]].
  exists trace. split; [exact Hrun | exact Hlen].
Defined.

(** ** The sort of the constructor is stable *)

Section StableSort.

Variable Instance : Type.

Lemma startingAt_insert_other (s : Z) (x : TimelineElement Instance)
      (l : list (TimelineElement Instance)) :
  startTimeMs x <> s ->
  startingAt s (insertByStart x l) = startingAt s l.
Proof.
  intros Hne. unfold startingAt. induction l as [| y l IH]; simpl.
  - destruct (Z.eqb_spec (startTimeMs x) s); [contradiction | reflexivity].
  - destruct (startTimeMs y <=? startTimeMs x); simpl.
    + now rewrite IH.
    + destruct (Z.eqb_spec (startTimeMs x) s); [contradiction | reflexivity].
Qed.

Lemma startingAt_insert_same (x : TimelineElement Instance)
      (l : list (TimelineElement Instance)) :
  StronglySorted (@startLe Instance) l ->
  startingAt (startTimeMs x) (insertByStart x l) = startingAt (startTimeMs x) l ++ [x].
Proof.
  unfold startingAt. induction 1 as [| y l Hsorted IH Hall]; simpl.
  - now rewrite Z.eqb_refl.
  - destruct (Z.leb_spec (startTimeMs y) (startTimeMs x)) as [Hle | Hgt]; simpl.
    + rewrite IH. now destruct (startTimeMs y =? startTimeMs x).
    + rewrite Z.eqb_refl.
      destruct (Z.eqb_spec (startTimeMs y) (startTimeMs x)) as [Heq | _]; [lia |].
      assert (Hnone : filter (fun e => startTimeMs e =? startTimeMs x) l = []).
      { clear IH Hsorted. induction l as [| z l IHl]; [reflexivity |]. simpl.
        inversion Hall as [| ? ? Hz Hall']; subst. unfold startLe in Hz.
        destruct (Z.eqb_spec (startTimeMs z) (startTimeMs x)); [lia | auto]. }
      now rewrite Hnone.
Qed.

Lemma startingAt_app (s : Z) (l1 l2 : list (TimelineElement Instance)) :
  startingAt s (l1 ++ l2) = startingAt s l1 ++ startingAt s l2.
Proof. unfold startingAt. apply filter_app. Qed.

Lemma sortByStart_stable (s : Z) (l : list (TimelineElement Instance)) :
  startingAt s (sortByStart l) = startingAt s l.
Proof.
  unfold sortByStart.
  assert (H : forall acc,
             StronglySorted (@startLe Instance) acc ->
             startingAt s (fold_left (fun sorted x => insertByStart x sorted) l acc)
             = startingAt s acc ++ startingAt s l).
  { induction l as [| x l IH]; intros acc Hacc; simpl.
    - now rewrite app_nil_r.
    - rewrite IH by now apply insertByStart_sorted.
      destruct (Z.eq_dec (startTimeMs x) s) as [<- | Hne].
      + rewrite startingAt_insert_same by exact Hacc.
        unfold startingAt at 4. simpl. rewrite Z.eqb_refl.
        now rewrite <- app_assoc.
      + rewrite startingAt_insert_other by exact Hne.
        unfold startingAt at 3. simpl.
        destruct (Z.eqb_spec (startTimeMs x) s); [contradiction | reflexivity]. }
  rewrite (H []); [reflexivity | constructor].
Qed.

Lemma insertByStart_last (x : TimelineElement Instance)
      (l : list (TimelineElement Instance)) :
  Forall (fun y => startTimeMs y <= startTimeMs x) l ->
  insertByStart x l = l ++ [x].
Proof.
  induction 1 as [| y l Hy Hall IH]; simpl; [reflexivity |].
  destruct (Z.leb_spec (startTimeMs y) (startTimeMs x)); [| lia]. now rewrite IH.
Qed.

Lemma sortByStart_sorted_id (l : list (TimelineElement Instance)) :
  StronglySorted (@startLe Instance) l -> sortByStart l = l.
Proof.
  unfold sortByStart. intros Hsorted.
  assert (H : forall acc,
             (forall a x, In a acc -> In x l -> startTimeMs a <= startTimeMs x) ->
             fold_left (fun sorted x => insertByStart x sorted) l acc = acc ++ l).
  { induction Hsorted as [| x l Hsorted IH Hall]; intros acc Hacc; simpl.
    - now rewrite app_nil_r.
    - rewrite insertByStart_last.
      + rewrite IH; [now rewrite <- app_assoc |].
        intros a z Ha Hz. apply in_app_or in Ha. destruct Ha as [Ha | [<- | []]].
        * apply Hacc; [exact Ha | now right].
        * rewrite Forall_forall in Hall. now apply Hall.
      + apply Forall_forall. intros a Ha. apply Hacc; [exact Ha | now left]. }
  apply (H []). intros a x [].
Qed.

End StableSort.

(** X7.  The constructor's sort is stable and idempotent: the descriptors
    that share a start time are kept in the order in which they were given,
    and constructing a timeline from the array of a constructed timeline
    gives the same array. *)
Theorem X7_constructor_sort_is_stable
        (Instance : Type) (options : TimelineOptions Instance) :
  exists this,
    constructor options = Normal this /\
    (forall s, startingAt s (elements this) = startingAt s (optElements options)) /\
    sortByStart (elements this) = elements this.
Proof.
  exists (newTimeline options). split; [reflexivity |]. split.
  - intros s. apply sortByStart_stable.
  - apply sortByStart_sorted_id, sortByStart_sorted.
Qed.

(** * Further properties of the audio layer *)

Section AudioBroadcasts.

Import AudioLayer.

Lemma forEachActive_onSound (this : AudioObjectTimeline)
      (call : AudioTimelineInstance -> AudioCalls.HowlCall) :
  AudioCalls.forEachActive this (fun inst => AudioCalls.onSound inst (call inst))
  = map (fun entry => (fst entry, call (instance (snd entry))))
        (filter AudioCalls.audible (activeElements (timeline this))).
Proof.
  unfold AudioCalls.forEachActive.
  induction (activeElements (timeline this)) as [| [k st] rest IH]; simpl; [reflexivity |].
  rewrite IH. unfold AudioCalls.audible at 2, AudioCalls.onSound at 1. simpl.
  destruct (sound (instance st)); reflexivity.
Qed.

Lemma NoDup_keys_filter {V : Type} (f : Z * V -> bool) (m : JsMap.t V) :
  NoDup (JsMap.keys m) -> NoDup (JsMap.keys (filter f m)).
Proof.
  unfold JsMap.keys. induction m as [| p m IH]; simpl; [auto |].
  intros Hnd. inversion Hnd as [| ? ? Hnotin Hnd']; subst.
  destruct (f p); simpl; [| auto]. constructor; [| auto].
  rewrite in_map_iff. intros [q [Hq Hin]]. apply filter_In in Hin.
  apply Hnotin. apply in_map_iff. exists q. tauto.
Qed.

Lemma broadcast_addresses (this : AudioObjectTimeline)
      (call : AudioTimelineInstance -> AudioCalls.HowlCall) :
  NoDup (JsMap.keys (activeElements (timeline this))) ->
  AudioCalls.addressesAudible this call
    (AudioCalls.forEachActive this (fun inst => AudioCalls.onSound inst (call inst))).
Proof.
  intros Hnd. unfold AudioCalls.addressesAudible. rewrite forEachActive_onSound.
  split; [reflexivity |]. rewrite map_map. simpl.
  exact (NoDup_keys_filter AudioCalls.audible _ Hnd).
Qed.

(** The layer's [update]: the engine's forward call, and the time noted. *)
Lemma audio_update_spec (this : AudioObjectTimeline) (timeMs : Z) :
  exists engine events,
    AudioLayer.update this timeMs
    = Normal ({| timeline := engine; lastTimeMs := timeMs |}, events) /\
    engineForward (timeline this) timeMs engine events.
Proof.
  unfold AudioLayer.update.
  destruct (update_total _ (timeline this) timeMs true) as [engine [events Hupd]].
  exists engine, events. rewrite Hupd. split; [reflexivity | exact Hupd].
Qed.

End AudioBroadcasts.

(** X8.  After [update(timeMs)] on a layer whose active keys are unique,
    each of [play], [pause], [rate] and [volume] addresses every active
    entry that has a sound exactly once, in the order of the active set,
    and no entry without a sound: [play] and [pause] with the voice of the
    entry, [rate] with the rate, [volume] with the entry's own volume times
    the given one. *)
Theorem X8_broadcasts_address_each_voice_once
        (this : AudioLayer.AudioObjectTimeline) (timeMs : Z) (r v : Q) :
  NoDup (JsMap.keys (activeElements (AudioLayer.timeline this))) ->
  exists this' events,
    AudioLayer.update this timeMs = Normal (this', events) /\
    AudioLayer.lastTimeMs this' = timeMs /\
    AudioCalls.addressesAudible this'
      (fun inst => AudioCalls.Play (AudioLayer.soundId inst)) (AudioCalls.play this') /\
    AudioCalls.addressesAudible this'
      (fun inst => AudioCalls.Pause (AudioLayer.soundId inst)) (AudioCalls.pause this') /\
    AudioCalls.addressesAudible this'
      (fun _ => AudioCalls.Rate r) (AudioCalls.rate this' r) /\
    AudioCalls.addressesAudible this'
      (fun inst => AudioCalls.Volume (AudioLayer.sampleVolume inst * v)%Q None)
      (AudioCalls.volume this' v).
Proof.
  intros Hnd.
  destruct (audio_update_spec this timeMs) as [engine [events [Hupd Hengine]]].
  pose proof (update_keys_NoDup _ (AudioLayer.timeline this) timeMs true engine events
                Hengine Hnd) as Hnd'.
  exists {| AudioLayer.timeline := engine; AudioLayer.lastTimeMs := timeMs |}, events.
  split; [exact Hupd |]. split; [reflexivity |].
  set (this' := {| AudioLayer.timeline := engine; AudioLayer.lastTimeMs := timeMs |}).
  assert (Hkeys : NoDup (JsMap.keys (activeElements (AudioLayer.timeline this'))))
    by exact Hnd'.
  split; [exact (broadcast_addresses this' _ Hkeys) |].
  split; [exact (broadcast_addresses this' _ Hkeys) |].
  split; exact (broadcast_addresses this' _ Hkeys).
Qed.

Lemma X8_witness :
  NoDup (JsMap.keys (activeElements
                       (AudioLayer.timeline (audioAfter [longVoiceElement] 100)))) /\
  exists this' events,
    AudioLayer.update (audioAfter [longVoiceElement] 100) 200 = Normal (this', events) /\
    AudioCalls.volume this' (1 # 2)
    = [(0, AudioCalls.Volume (1 * (1 # 2))%Q None)].
Proof.
  assert (Hnd : NoDup (JsMap.keys (activeElements
                         (AudioLayer.timeline (audioAfter [longVoiceElement] 100))))).
  { simpl. constructor; [intros [] | constructor]. }
  split; [exact Hnd |].
  destruct (X8_broadcasts_address_each_voice_once (audioAfter [longVoiceElement] 100)
              200 1 (1 # 2) Hnd)
    as [this' [events [Hupd _]]].
  exists this', events. split; [exact Hupd |].
  assert (Heq : Normal (this', events)
                = AudioLayer.update (audioAfter [longVoiceElement] 100) 200)
    by (symmetry; exact Hupd).
  vm_compute in Heq. injection Heq as -> _. reflexivity.
Defined.

Lemma existsb_flat_map {A B : Type} (f : B -> bool) (g : A -> list B) (l : list A) :
  existsb f (flat_map g l) = existsb (fun x => existsb f (g x)) l.
Proof.
  induction l as [| x l IH]; simpl; [reflexivity |].
  now rewrite existsb_app, IH.
Qed.

(** X9.  [seek] stops no voice whose relative position is inside its
    sample: if every active entry with a sound has a sample that starts at
    a time that is not negative and a relative position from 0 up to, but
    not including, the duration of the sound, then [seek(timeMs)] issues no
    stop at all. *)
Theorem X9_seek_keeps_voices_inside_their_sample
        (this : AudioLayer.AudioObjectTimeline) (timeMs : Z) :
  (forall k st snd,
      In (k, st) (activeElements (AudioLayer.timeline this)) ->
      AudioLayer.sound (instance st) = Some snd ->
      0 <= AudioLayer.startTime (AudioLayer.sample (instance st)) /\
      0 <= AudioLayer.seekTimeMs (AudioLayer.lastTimeMs this) timeMs (instance st) /\
      (inject_Z (AudioLayer.seekTimeMs (AudioLayer.lastTimeMs this) timeMs (instance st))
       < AudioLayer.sampleDurationMs snd)%Q) ->
  existsb AudioLayer.isStop (AudioLayer.seek this timeMs) = false.
Proof.
  intros Hinside. unfold AudioLayer.seek. rewrite existsb_flat_map.
  destruct (existsb _ (activeElements (AudioLayer.timeline this))) eqn:E; [| reflexivity].
  apply existsb_exists in E. destruct E as [[k st] [Hin Hstop]]. simpl in Hstop.
  destruct (AudioLayer.sound (instance st)) as [snd |] eqn:Hsound.
  - destruct (Hinside k st snd Hin Hsound) as (Hstart & Hpos & Hlt).
    apply (seekElement_stops (AudioLayer.lastTimeMs this) timeMs (instance st) snd Hsound)
      in Hstop.
    destruct Hstop as [_ [Hneg | Hend]]; [lia |].
    assert (Hs : (0 <= inject_Z (AudioLayer.startTime (AudioLayer.sample (instance st))))%Q).
    { change 0%Q with (inject_Z 0). now rewrite <- Zle_Qle. }
    lra.
  - unfold AudioLayer.seekElement in Hstop. rewrite Hsound in Hstop. discriminate.
Qed.

(** The ten-second sample at 0, active after [update(100)], sought to 200. *)
Lemma X9_witness :
  existsb AudioLayer.isStop (AudioLayer.seek (audioAfter [longVoiceElement] 100) 200) = false.
Proof.
  apply (X9_seek_keeps_voices_inside_their_sample (audioAfter [longVoiceElement] 100) 200).
  intros k st snd Hin Hsound. simpl in Hin. destruct Hin as [Heq | []].
  injection Heq as <- <-. simpl in Hsound. injection Hsound as <-.
  split; [simpl; lia |]. split; [vm_compute; discriminate |]. reflexivity.
Defined.

(** ** The on-deactivate hook of the audio layer *)

Section AudioDeactivation.

Variable Instance : Type.

Lemma entriesBuilt_agree (this : Timeline Instance) :
  entriesBuilt this -> entriesAgree this.
Proof.
  intros Hbuilt k st Hin. destruct (Hbuilt k st Hin) as [e [He ->]].
  exists e. repeat split; auto.
Qed.

Lemma update_entriesBuilt (this this' : Timeline Instance) (timeMs : Z) (forward : bool)
      (events : list (Event Instance)) :
  update this timeMs forward = Normal (this', events) ->
  entriesBuilt this -> entriesBuilt this'.
Proof.
  intros Hupd Hbuilt.
  destruct (update_summary Instance this timeMs forward this' events Hupd)
    as (first & index & active & log1 & log2 & _ & Hinv & _ & _ & _ & Hact & Hel & _).
  destruct Hinv as (_ & _ & _ & _ & _ & Hentries & _).
  intros k st Hin. apply Hact in Hin. destruct Hin as [Hin _]. rewrite Hel.
  destruct (Hentries k st Hin) as [H0 | [_ Hex]]; [now apply Hbuilt | exact Hex].
Qed.

(** The payload handed to the on-deactivate hook is the one the factory of
    the descriptor makes. *)
Lemma update_destroy_payload (this this' : Timeline Instance) (timeMs : Z) (forward : bool)
      (events : list (Event Instance)) (k : Z) (x : Instance) (t : Z)
      (e : TimelineElement Instance) :
  update this timeMs forward = Normal (this', events) ->
  entriesBuilt this ->
  elementAt (elements this) k = Some e ->
  In (DestroyElement k x t) events ->
  x = build e tt.
Proof.
  intros Hupd Hbuilt He Hin.
  destruct (update_summary Instance this timeMs forward this' events Hupd)
    as (first & index & active & log1 & log2 & _ & Hinv & _ & -> & Hlog2 & _).
  destruct Hinv as (_ & _ & _ & _ & _ & Hentries & _ & Hevents & _).
  apply in_app_or in Hin. destruct Hin as [Hin | Hin].
  - apply Hevents in Hin. destruct Hin.
  - apply Hlog2 in Hin. destruct Hin as (_ & _ & st & Hst & _ & ->).
    destruct (Hentries k st Hst) as [H0 | [_ [e' [He' ->]]]].
    + destruct (Hbuilt k st H0) as [e' [He' ->]]. rewrite He in He'. now injection He' as <-.
    + rewrite He in He'. now injection He' as <-.
Qed.

End AudioDeactivation.

Lemma In_destroyCalls (events : list (Event AudioLayer.AudioTimelineInstance))
      (k : Z) (c : AudioCalls.HowlCall) :
  In (k, c) (AudioCalls.destroyCalls events) <->
  exists x t, In (DestroyElement k x t) events /\ In c (AudioCalls.destroyElement x).
Proof.
  unfold AudioCalls.destroyCalls. rewrite in_flat_map. split.
  - intros [ev [Hev Hin]]. destruct ev; simpl in Hin; try contradiction.
    apply in_map_iff in Hin. destruct Hin as [c' [Heq Hc]]. injection Heq as <- <-. eauto.
  - intros (x & t & Hev & Hc). exists (DestroyElement k x t). split; [exact Hev |].
    apply in_map_iff. eauto.
Qed.

(** X10.  In the audio layer, whose on-deactivate hook stops the voice of
    the instance, [update] stops exactly the voices of the entries with a
    sound that were active or were built and are not in the active set
    after the call; the hook makes no other call, and none for an entry
    without a sound. *)
Theorem X10_audio_update_stops_the_voices_that_leave
        (this : AudioLayer.AudioObjectTimeline) (timeMs : Z) :
  entriesBuilt (AudioLayer.timeline this) ->
  destroyElement (AudioLayer.timeline this) = true ->
  exists this' events,
    AudioLayer.update this timeMs = Normal (this', events) /\
    entriesBuilt (AudioLayer.timeline this') /\
    (forall k c, In (k, c) (AudioCalls.destroyCalls events) ->
                 exists e, elementAt (elements (AudioLayer.timeline this)) k = Some e /\
                           c = AudioCalls.Stop (AudioLayer.soundId (build e tt))) /\
    forall k e,
      elementAt (elements (AudioLayer.timeline this)) k = Some e ->
      (In (k, AudioCalls.Stop (AudioLayer.soundId (build e tt)))
          (AudioCalls.destroyCalls events) <->
       AudioLayer.sound (build e tt) <> None /\
       (JsMap.has k (activeElements (AudioLayer.timeline this)) = true \/
        In (Build k) events) /\
       JsMap.has k (activeElements (AudioLayer.timeline this')) = false).
Proof.
  intros Hbuilt Hhook.
  destruct (audio_update_spec this timeMs) as [engine [events [Hupd Hengine]]].
  unfold engineForward in Hengine.
  pose proof (entriesBuilt_agree _ _ Hbuilt) as Hagree.
  exists {| AudioLayer.timeline := engine; AudioLayer.lastTimeMs := timeMs |}, events.
  split; [exact Hupd |]. simpl.
  split; [exact (update_entriesBuilt _ _ _ _ _ _ Hengine Hbuilt) |].
  assert (Hleave : forall k,
             (exists x t, In (DestroyElement k x t) events) <->
             (JsMap.has k (activeElements (AudioLayer.timeline this)) = true \/
              In (Build k) events) /\
             JsMap.has k (activeElements engine) = false).
  { intros k.
    rewrite (update_destroy_leaves _ _ _ _ _ _ Hengine k Hagree). tauto. }
  split.
  - intros k c Hin. apply In_destroyCalls in Hin. destruct Hin as (x & t & Hev & Hc).
    assert (Hkey : JsMap.has k (activeElements (AudioLayer.timeline this)) = true \/
                   In (Build k) events).
    { apply (update_reconciled_key _ _ _ _ _ _ Hengine k x t). now right. }
    destruct (update_scanned_entry _ _ _ _ _ _ Hengine Hagree k Hkey) as [e He].
    exists e. split; [exact He |].
    rewrite (update_destroy_payload _ _ _ _ _ _ k x t e Hengine Hbuilt He Hev) in Hc.
    unfold AudioCalls.destroyElement, AudioCalls.onSound in Hc.
    destruct (AudioLayer.sound (build e tt)); simpl in Hc; [| contradiction].
    destruct Hc as [<- | []]. reflexivity.
  - intros k e He. rewrite In_destroyCalls. rewrite <- Hleave. split.
    + intros (x & t & Hev & Hc).
      pose proof (update_destroy_payload _ _ _ _ _ _ k x t e Hengine Hbuilt He Hev) as ->.
      split; [| eauto].
      unfold AudioCalls.destroyElement, AudioCalls.onSound in Hc.
      destruct (AudioLayer.sound (build e tt)); [discriminate | destruct Hc].
    + intros [Hsound (x & t & Hev)].
      pose proof (update_destroy_payload _ _ _ _ _ _ k x t e Hengine Hbuilt He Hev) as Hx.
      exists x, t. split; [exact Hev |]. rewrite Hx.
      unfold AudioCalls.destroyElement, AudioCalls.onSound.
      destruct (AudioLayer.sound (build e tt)); [now left | congruence].
Qed.

(** The one-second sample at 5000, active after [update(5800)], at the
    call [update(6000)]. *)
Lemma X10_witness :
  entriesBuilt (AudioLayer.timeline (audioAfter [shortVoiceElement] 5800)) /\
  destroyElement (AudioLayer.timeline (audioAfter [shortVoiceElement] 5800)) = true /\
  exists this' events,
    AudioLayer.update (audioAfter [shortVoiceElement] 5800) 6000 = Normal (this', events) /\
    entriesBuilt (AudioLayer.timeline this').
Proof.
  assert (Hbuilt : entriesBuilt (AudioLayer.timeline (audioAfter [shortVoiceElement] 5800))).
  { intros k st Hin. simpl in Hin. destruct Hin as [Heq | []]. injection Heq as <- <-.
    exists shortVoiceElement. split; reflexivity. }
  split; [exact Hbuilt |]. split; [reflexivity |].
  destruct (X10_audio_update_stops_the_voices_that_leave
              (audioAfter [shortVoiceElement] 5800) 6000 Hbuilt eq_refl)
    as [this' [events [Hupd [Hbuilt' _]]]].
  exists this', events. split; [exact Hupd | exact Hbuilt'].
Defined.

(** ** Storyboard samples *)

Lemma samplesGet_missing (samples : list (String.string * AudioCalls.LoadedHowl))
      (path : String.string) :
  (forall loaded, ~ In (path, loaded) samples) ->
  AudioCalls.samplesGet samples path = None.
Proof.
  intros Hmissing. unfold AudioCalls.samplesGet.
  destruct (find _ samples) as [[p loaded] |] eqn:E; [| reflexivity].
  apply find_some in E. destruct E as [Hin Heq]. simpl in Heq.
  apply String.eqb_eq in Heq. subst. destruct (Hmissing loaded Hin).
Qed.

Lemma samplesGet_present (samples : list (String.string * AudioCalls.LoadedHowl))
      (path : String.string) (loaded : AudioCalls.LoadedHowl) :
  In (path, loaded) samples ->
  exists loaded', AudioCalls.samplesGet samples path = Some loaded' /\
                  In (path, loaded') samples.
Proof.
  intros Hin. unfold AudioCalls.samplesGet.
  destruct (find _ samples) as [[p loaded'] |] eqn:E.
  - apply find_some in E. destruct E as [Hin' Heq]. simpl in Heq.
    apply String.eqb_eq in Heq. subst. eauto.
  - pose proof (find_none _ _ E _ Hin) as Hnone. simpl in Hnone.
    rewrite String.eqb_refl in Hnone. discriminate.
Qed.

(** X11.  A storyboard sample whose file is not among the loaded sounds
    becomes a silent instance: its constructor calls nothing, it has no
    sound and no voice, and neither [seek] nor the on-deactivate hook ever
    calls anything for it.  A sample whose file is loaded plays the sound
    once and sets the volume of the voice that [play] returned; in both
    cases the volume of the instance is [volume / 100]. *)
Theorem X11_storyboard_sample_without_file_is_silent
        (o : AudioCalls.SampleObject)
        (samples : list (String.string * AudioCalls.LoadedHowl)) :
  AudioLayer.sample (fst (AudioCalls.playableStoryboardSample o samples))
  = AudioCalls.object o /\
  AudioLayer.sampleVolume (fst (AudioCalls.playableStoryboardSample o samples))
  = (inject_Z (AudioLayer.volume (AudioCalls.object o)) / 100)%Q /\
  ((forall loaded, ~ In (AudioCalls.filePath o, loaded) samples) ->
   snd (AudioCalls.playableStoryboardSample o samples) = [] /\
   AudioLayer.sound (fst (AudioCalls.playableStoryboardSample o samples)) = None /\
   AudioLayer.soundId (fst (AudioCalls.playableStoryboardSample o samples)) = None /\
   (forall lastTime timeMs,
       AudioLayer.seekElement lastTime timeMs
         (fst (AudioCalls.playableStoryboardSample o samples)) = []) /\
   AudioCalls.destroyElement (fst (AudioCalls.playableStoryboardSample o samples)) = []) /\
  (forall loaded,
      In (AudioCalls.filePath o, loaded) samples ->
      exists loaded',
        In (AudioCalls.filePath o, loaded') samples /\
        AudioLayer.sound (fst (AudioCalls.playableStoryboardSample o samples))
        = Some (AudioCalls.handle loaded') /\
        AudioLayer.soundId (fst (AudioCalls.playableStoryboardSample o samples))
        = Some (AudioCalls.nextSoundId loaded') /\
        snd (AudioCalls.playableStoryboardSample o samples)
        = [AudioCalls.Play None;
           AudioCalls.Volume (inject_Z (AudioLayer.volume (AudioCalls.object o)) / 100)%Q
                             (Some (AudioCalls.nextSoundId loaded'))]).
Proof.
  unfold AudioCalls.playableStoryboardSample.
  split; [destruct (AudioCalls.samplesGet _ _); reflexivity |].
  split; [destruct (AudioCalls.samplesGet _ _); reflexivity |].
  split.
  - intros Hmissing. rewrite (samplesGet_missing samples _ Hmissing). simpl.
    repeat split; reflexivity.
  - intros loaded Hin.
    destruct (samplesGet_present samples _ loaded Hin) as [loaded' [Hget Hin']].
    rewrite Hget. simpl. exists loaded'. repeat split; auto.
Qed.

(** * The autoplay cursor *)

Lemma Qle_bool_spec (a b : Q) : BoolSpec (a <= b)%Q (b < a)%Q (Qle_bool a b).
Proof.
  destruct (Qle_bool a b) eqn:E; constructor.
  - now apply Qle_bool_iff.
  - apply Qnot_le_lt. rewrite <- Qle_bool_iff. congruence.
Qed.

Lemma lessThan_spec (a b : Q) :
  BoolSpec (a < b)%Q (b <= a)%Q (CursorAutoplay.lessThan a b).
Proof.
  unfold CursorAutoplay.lessThan.
  destruct (Qle_bool_spec b a); constructor; assumption.
Qed.

Section CursorFacts.

Import CursorAutoplay.

Variable objects : list StandardHitObject.

Lemma advance_spec (timeMs : Q) (fuel : nat) :
  forall index,
    0 <= index <= len objects ->
    (Z.to_nat (len objects - index) < fuel)%nat ->
    exists index',
      advance fuel objects index timeMs = Normal index' /\
      index <= index' <= len objects /\
      (forall j h, index <= j < index' -> elementAt objects j = Some h ->
                   (startTime h <= timeMs)%Q) /\
      (forall h, elementAt objects index' = Some h -> (timeMs < startTime h)%Q).
Proof.
  induction fuel as [| fuel IH]; intros index Hrange Hfuel; [lia |].
  simpl. destruct (Z.ltb_spec index (len objects)) as [Hlt | Hge].
  - destruct (elementAt_in_range objects index ltac:(lia)) as [h Hh]. rewrite Hh.
    destruct (Qle_bool_spec (startTime h) timeMs) as [Hle | Hgt].
    + destruct (IH (index + 1) ltac:(lia) ltac:(lia)) as (index' & Hrun & Hr & Hbefore & Hat).
      exists index'. split; [exact Hrun |]. split; [lia |]. split; [| exact Hat].
      intros j hj Hj Hhj. destruct (Z.eq_dec j index) as [-> | Hne].
      * rewrite Hh in Hhj. injection Hhj as <-. exact Hle.
      * apply (Hbefore j hj); [lia | exact Hhj].
    + exists index. split; [reflexivity |]. split; [lia |]. split; [intros; lia |].
      intros h' Hh'. rewrite Hh in Hh'. injection Hh' as <-. exact Hgt.
  - exists index. split; [reflexivity |]. split; [lia |]. split; [intros; lia |].
    intros h Hh. apply elementAt_Some_range in Hh. lia.
Qed.

Lemma getNextHitObjectIndex_spec (cursor : Z) (timeMs : Q) :
  0 <= cursor <= len objects ->
  exists first,
    getNextHitObjectIndex {| hitObjects := objects; nextHitObjectIndex := cursor |} timeMs
    = Normal first /\
    0 <= first <= len objects /\
    (sortedHits objects ->
     forall j h, j < first -> elementAt objects j = Some h -> (startTime h <= timeMs)%Q).
Proof.
  intros Hrange. unfold getNextHitObjectIndex. simpl.
  assert (Hsearch :
            let found := findIndex objects (fun h => lessThan timeMs (startTime h)) in
            0 <= (if 0 <=? found then found else 0) <= len objects /\
            forall j h, j < (if 0 <=? found then found else 0) ->
                        elementAt objects j = Some h -> (startTime h <= timeMs)%Q).
  { simpl.
    pose proof (findIndex_range objects (fun h => lessThan timeMs (startTime h))) as Hr.
    destruct (Z.leb_spec 0 (findIndex objects (fun h => lessThan timeMs (startTime h))))
      as [Hf | Hf].
    - split; [lia |]. intros j h Hj Hh.
      destruct (findIndex_found objects (fun h => lessThan timeMs (startTime h)) _ eq_refl Hf)
        as [_ Hprev].
      pose proof (elementAt_Some_range _ _ _ Hh) as Hjr.
      specialize (Hprev j h ltac:(lia) Hh). simpl in Hprev.
      destruct (lessThan_spec timeMs (startTime h)); [discriminate | assumption].
    - split; [unfold len; lia |]. intros j h Hj Hh.
      apply elementAt_Some_range in Hh. lia. }
  destruct (Z.eqb_spec cursor 0) as [-> | Hne].
  - eexists. split; [reflexivity |]. destruct Hsearch as [H1 H2]. split; [exact H1 |].
    intros _. exact H2.
  - destruct (elementAt_in_range objects (cursor - 1) ltac:(lia)) as [h Hh]. rewrite Hh.
    destruct (Qle_bool_spec (startTime h) timeMs) as [Hle | Hgt].
    + exists cursor. split; [reflexivity |]. split; [lia |].
      intros Hsorted j hj Hj Hhj.
      pose proof (Hsorted j (cursor - 1) hj h ltac:(lia) Hhj Hh). lra.
    + eexists. split; [reflexivity |]. destruct Hsearch as [H1 H2]. split; [exact H1 |].
      intros _. exact H2.
Qed.

Lemma stateAt_defined (index : Z) (timeMs : Q) :
  objects <> [] -> 0 <= index <= len objects ->
  exists state, stateAt objects index timeMs = Normal state.
Proof.
  intros Hne Hrange. unfold stateAt.
  assert (Hlen : 0 < len objects).
  { destruct objects; [congruence | unfold len; simpl; lia]. }
  destruct (Z.eqb_spec index 0) as [-> | Hnz].
  - destruct (elementAt_in_range objects 0 ltac:(lia)) as [h Hh]. rewrite Hh. eauto.
  - destruct (elementAt_in_range objects (index - 1) ltac:(lia)) as [h Hh]. rewrite Hh.
    destruct (currentEndTime h) as [currentEnd warning].
    destruct (lessThan timeMs currentEnd); [destruct (isSlider h); eauto |].
    destruct (elementAt objects index); eauto.
Qed.

(** The call, taken apart. *)
Lemma getCursorState_spec (cursor : Z) (timeMs : Q) :
  objects <> [] ->
  0 <= cursor <= len objects ->
  exists index state,
    getCursorState {| hitObjects := objects; nextHitObjectIndex := cursor |} timeMs
    = Normal ({| hitObjects := objects; nextHitObjectIndex := index |}, state) /\
    stateAt objects index timeMs = Normal state /\
    0 <= index <= len objects /\
    (forall h, elementAt objects index = Some h -> (timeMs < startTime h)%Q) /\
    (sortedHits objects -> separates objects timeMs index).
Proof.
  intros Hne Hrange. unfold getCursorState.
  destruct (getNextHitObjectIndex_spec cursor timeMs Hrange) as (first & Hfirst & Hfr & Hbelow).
  rewrite Hfirst. simpl hitObjects.
  destruct (advance_spec timeMs (S (length objects)) first Hfr ltac:(unfold len; lia))
    as (index & Hadv & Hir & Hbetween & Hat).
  rewrite Hadv.
  destruct (stateAt_defined index timeMs Hne ltac:(lia)) as [state Hstate].
  rewrite Hstate. exists index, state.
  split; [reflexivity |]. split; [exact Hstate |]. split; [lia |]. split; [exact Hat |].
  intros Hsorted. split; [lia |]. split.
  - intros j h Hj Hh. destruct (Z_lt_le_dec j first) as [Hlt | Hge].
    + exact (Hbelow Hsorted j h Hlt Hh).
    + apply (Hbetween j h); [lia | exact Hh].
  - intros j h Hj Hh. pose proof (elementAt_Some_range _ _ _ Hh) as Hjr.
    destruct (elementAt_in_range objects index ltac:(lia)) as [hi Hhi].
    pose proof (Hat hi Hhi). pose proof (Hsorted index j hi h Hj Hhi Hh). lra.
Qed.

Lemma separates_unique (timeMs : Q) (i1 i2 : Z) :
  separates objects timeMs i1 -> separates objects timeMs i2 -> i1 = i2.
Proof.
  intros (Hr1 & Hb1 & Ha1) (Hr2 & Hb2 & Ha2).
  destruct (Z.lt_trichotomy i1 i2) as [Hlt | [Heq | Hgt]]; [| exact Heq |].
  - destruct (elementAt_in_range objects i1 ltac:(lia)) as [h Hh].
    pose proof (Hb2 i1 h Hlt Hh). pose proof (Ha1 i1 h ltac:(lia) Hh). lra.
  - destruct (elementAt_in_range objects i2 ltac:(lia)) as [h Hh].
    pose proof (Hb1 i2 h Hgt Hh). pose proof (Ha2 i2 h ltac:(lia) Hh). lra.
Qed.

End CursorFacts.

(** X12.  With the cursor inside the array or at its end, [getCursorState]
    raises a [TypeError] when there is no hit object, and completes when
    there is one, leaving the cursor inside the array or at its end, on an
    object that has not started yet if it is on one. *)
Theorem X12_cursor_state_needs_a_hit_object
        (this : CursorAutoplay.Cursor) (timeMs : Q) :
  0 <= CursorAutoplay.nextHitObjectIndex this <= len (CursorAutoplay.hitObjects this) ->
  (CursorAutoplay.hitObjects this = [] ->
   CursorAutoplay.getCursorState this timeMs = TypeError) /\
  (CursorAutoplay.hitObjects this <> [] ->
   exists this' state,
     CursorAutoplay.getCursorState this timeMs = Normal (this', state) /\
     CursorAutoplay.hitObjects this' = CursorAutoplay.hitObjects this /\
     0 <= CursorAutoplay.nextHitObjectIndex this' <= len (CursorAutoplay.hitObjects this) /\
     forall h, elementAt (CursorAutoplay.hitObjects this)
                         (CursorAutoplay.nextHitObjectIndex this') = Some h ->
               (timeMs < CursorAutoplay.startTime h)%Q).
Proof.
  destruct this as [objects cursor]. simpl. intros Hrange. split.
  - intros ->. unfold len in Hrange. simpl in Hrange.
    assert (cursor = 0) by lia. subst. reflexivity.
  - intros Hne.
    destruct (getCursorState_spec objects cursor timeMs Hne Hrange)
      as (index & state & Hrun & _ & Hir & Hat & _).
    eexists. exists state. split; [exact Hrun |]. simpl. auto.
Qed.

Lemma X12_witness :
  0 <= CursorAutoplay.nextHitObjectIndex (CursorAutoplay.constructor CursorAutoplay.sampleMap)
    <= len (CursorAutoplay.hitObjects (CursorAutoplay.constructor CursorAutoplay.sampleMap)) /\
  exists this' state,
    CursorAutoplay.getCursorState (CursorAutoplay.constructor CursorAutoplay.sampleMap) 2200
    = Normal (this', state).
Proof.
  assert (Hrange : 0 <= CursorAutoplay.nextHitObjectIndex
                          (CursorAutoplay.constructor CursorAutoplay.sampleMap)
                   <= len (CursorAutoplay.hitObjects
                             (CursorAutoplay.constructor CursorAutoplay.sampleMap))).
  { vm_compute. split; discriminate. }
  split; [exact Hrange |].
  destruct (X12_cursor_state_needs_a_hit_object
              (CursorAutoplay.constructor CursorAutoplay.sampleMap) 2200 Hrange)
    as [_ Hsome].
  destruct (Hsome ltac:(discriminate)) as [this' [state [Hrun _]]].
  exists this', state. exact Hrun.
Defined.

(** X13.  Over hit objects in ascending order of start time, the cursor
    that [getCursorState] leaves separates the objects that have started
    ([startTime <= timeMs]) from those that have not, and the call does not
    depend on where the cursor was before: from any two cursor positions
    inside the array it returns the same state and leaves the same
    cursor. *)
Theorem X13_cursor_state_forgets_the_old_cursor
        (objects : list CursorAutoplay.StandardHitObject) (cursor1 cursor2 : Z)
        (timeMs : Q) :
  CursorAutoplay.sortedHits objects ->
  objects <> [] ->
  0 <= cursor1 <= len objects ->
  0 <= cursor2 <= len objects ->
  exists index state,
    CursorAutoplay.getCursorState
      {| CursorAutoplay.hitObjects := objects;
         CursorAutoplay.nextHitObjectIndex := cursor1 |} timeMs
    = Normal ({| CursorAutoplay.hitObjects := objects;
                 CursorAutoplay.nextHitObjectIndex := index |}, state) /\
    CursorAutoplay.getCursorState
      {| CursorAutoplay.hitObjects := objects;
         CursorAutoplay.nextHitObjectIndex := cursor2 |} timeMs
    = Normal ({| CursorAutoplay.hitObjects := objects;
                 CursorAutoplay.nextHitObjectIndex := index |}, state) /\
    CursorAutoplay.separates objects timeMs index.
Proof.
  intros Hsorted Hne Hr1 Hr2.
  destruct (getCursorState_spec objects cursor1 timeMs Hne Hr1)
    as (i1 & s1 & Hrun1 & Hs1 & _ & _ & Hsep1).
  destruct (getCursorState_spec objects cursor2 timeMs Hne Hr2)
    as (i2 & s2 & Hrun2 & Hs2 & _ & _ & Hsep2).
  pose proof (separates_unique objects timeMs i1 i2 (Hsep1 Hsorted) (Hsep2 Hsorted)) as Heq.
  subst i2. rewrite Hs1 in Hs2. injection Hs2 as <-.
  exists i1, s1. split; [exact Hrun1 |]. split; [exact Hrun2 | exact (Hsep1 Hsorted)].
Qed.

Lemma sampleMap_sorted : CursorAutoplay.sortedHits CursorAutoplay.sampleMap.
Proof.
  intros i j hi hj Hij Hi Hj.
  pose proof (elementAt_Some_range _ _ _ Hi) as Hri.
  pose proof (elementAt_Some_range _ _ _ Hj) as Hrj.
  unfold len in Hri, Hrj. simpl in Hri, Hrj.
  assert (Hi' : i = 0 \/ i = 1 \/ i = 2) by lia.
  assert (Hj' : j = 0 \/ j = 1 \/ j = 2) by lia.
  destruct Hi' as [-> | [-> | ->]], Hj' as [-> | [-> | ->]];
    try lia; vm_compute in Hi, Hj; injection Hi as <-; injection Hj as <-;
    vm_compute; discriminate.
Qed.

(** The cursor after the last object and the cursor at the start, both at
    2200 ms. *)
Lemma X13_witness :
  CursorAutoplay.sortedHits CursorAutoplay.sampleMap /\
  exists index state,
    CursorAutoplay.getCursorState
      {| CursorAutoplay.hitObjects := CursorAutoplay.sampleMap;
         CursorAutoplay.nextHitObjectIndex := 3 |} 2200
    = Normal ({| CursorAutoplay.hitObjects := CursorAutoplay.sampleMap;
                 CursorAutoplay.nextHitObjectIndex := index |}, state) /\
    CursorAutoplay.getCursorState
      {| CursorAutoplay.hitObjects := CursorAutoplay.sampleMap;
         CursorAutoplay.nextHitObjectIndex := 0 |} 2200
    = Normal ({| CursorAutoplay.hitObjects := CursorAutoplay.sampleMap;
                 CursorAutoplay.nextHitObjectIndex := index |}, state).
Proof.
  split; [exact sampleMap_sorted |].
  destruct (X13_cursor_state_forgets_the_old_cursor CursorAutoplay.sampleMap 3 0 2200
              sampleMap_sorted ltac:(discriminate))
    as (index & state & H1 & H2 & _); [vm_compute; split; discriminate
                                      | vm_compute; split; discriminate |].
  exists index, state. split; [exact H1 | exact H2].
Defined.

Lemma mathMin_lt (a b c : Q) :
  (c < CursorAutoplay.mathMin a b)%Q -> (c < a)%Q /\ (c < b)%Q.
Proof.
  unfold CursorAutoplay.mathMin. destruct (Qle_bool_spec a b) as [Hab | Hab]; intros Hc; split; lra.
Qed.

Lemma advance_predecessor (objects : list CursorAutoplay.StandardHitObject) (timeMs : Q)
      (fuel : nat) :
  forall first index,
    CursorAutoplay.advance fuel objects first timeMs = Normal index ->
    index = first \/
    exists h, elementAt objects (index - 1) = Some h /\
              (CursorAutoplay.startTime h <= timeMs)%Q.
Proof.
  induction fuel as [| fuel IH]; intros first index Hrun; [discriminate |].
  simpl in Hrun. destruct (first <? len objects).
  - destruct (elementAt objects first) as [h |] eqn:Hh; [| discriminate].
    destruct (Qle_bool_spec (CursorAutoplay.startTime h) timeMs) as [Hle | Hgt].
    + destruct (IH (first + 1) index Hrun) as [-> | Hprev]; [| now right].
      right. exists h. replace (first + 1 - 1) with first by lia. auto.
    + injection Hrun as <-. now left.
  - injection Hrun as <-. now left.
Qed.

Lemma getNextHitObjectIndex_predecessor (this : CursorAutoplay.Cursor) (timeMs : Q)
      (first : Z) :
  CursorAutoplay.getNextHitObjectIndex this timeMs = Normal first ->
  first = 0 \/
  exists h, elementAt (CursorAutoplay.hitObjects this) (first - 1) = Some h /\
            (CursorAutoplay.startTime h <= timeMs)%Q.
Proof.
  unfold CursorAutoplay.getNextHitObjectIndex.
  set (found := findIndex (CursorAutoplay.hitObjects this)
                          (fun h => CursorAutoplay.lessThan timeMs
                                      (CursorAutoplay.startTime h))).
  assert (Hsearch : (if 0 <=? found then found else 0) = 0 \/
                    exists h, elementAt (CursorAutoplay.hitObjects this)
                                        ((if 0 <=? found then found else 0) - 1) = Some h /\
                              (CursorAutoplay.startTime h <= timeMs)%Q).
  { destruct (Z.leb_spec 0 found) as [Hf | Hf]; [| now left].
    destruct (Z.eq_dec found 0) as [-> | Hnz]; [now left | right].
    destruct (findIndex_found (CursorAutoplay.hitObjects this)
                (fun h => CursorAutoplay.lessThan timeMs (CursorAutoplay.startTime h))
                found eq_refl Hf)
      as [[x [Hx _]] Hprev].
    apply elementAt_Some_range in Hx.
    destruct (elementAt_in_range (CursorAutoplay.hitObjects this) (found - 1) ltac:(lia))
      as [h Hh].
    exists h. split; [exact Hh |].
    specialize (Hprev (found - 1) h ltac:(lia) Hh). simpl in Hprev.
    destruct (lessThan_spec timeMs (CursorAutoplay.startTime h));
      [discriminate | assumption]. }
  destruct (Z.eqb_spec (CursorAutoplay.nextHitObjectIndex this) 0) as [Hz | Hnz].
  - intros H. injection H as <-. exact Hsearch.
  - destruct (elementAt (CursorAutoplay.hitObjects this)
                        (CursorAutoplay.nextHitObjectIndex this - 1)) as [h |] eqn:Hh;
      [| discriminate].
    destruct (Qle_bool_spec (CursorAutoplay.startTime h) timeMs) as [Hle | Hgt].
    + intros H. injection H as <-. right. eauto.
    + intros H. injection H as <-. exact Hsearch.
Qed.

(** X14.  The cursor is expanded only while the time is inside the current
    hit object (before the end of a slider or spinner), or during the click
    after an object that is not a slider: then a next object exists and the
    time since the end of the current one is less than 50 ms and less than
    half the gap to the start of the next one. *)
Theorem X14_cursor_expanded_only_in_object_or_click
        (this this' : CursorAutoplay.Cursor) (timeMs : Q)
        (state : CursorAutoplay.CursorState) :
  CursorAutoplay.getCursorState this timeMs = Normal (this', state) ->
  CursorAutoplay.expanded state = true ->
  exists current,
    elementAt (CursorAutoplay.hitObjects this) (CursorAutoplay.nextHitObjectIndex this' - 1)
    = Some current /\
    (CursorAutoplay.startTime current <= timeMs)%Q /\
    ((timeMs < fst (CursorAutoplay.currentEndTime current))%Q \/
     (CursorAutoplay.isSlider current = false /\
      exists next,
        elementAt (CursorAutoplay.hitObjects this) (CursorAutoplay.nextHitObjectIndex this')
        = Some next /\
        (timeMs - fst (CursorAutoplay.currentEndTime current) < 50)%Q /\
        (2 * (timeMs - fst (CursorAutoplay.currentEndTime current))
         < CursorAutoplay.startTime next - fst (CursorAutoplay.currentEndTime current))%Q)).
Proof.
  unfold CursorAutoplay.getCursorState.
  destruct (CursorAutoplay.getNextHitObjectIndex this timeMs) as [first | |] eqn:Hfirst;
    try discriminate.
  destruct (CursorAutoplay.advance _ _ first timeMs) as [index | |] eqn:Hadv;
    try discriminate.
  destruct (CursorAutoplay.stateAt _ index timeMs) as [state0 | |] eqn:Hstate;
    try discriminate.
  intros H Hexp. injection H as <- <-.
  cbn [CursorAutoplay.hitObjects CursorAutoplay.nextHitObjectIndex].
  unfold CursorAutoplay.stateAt in Hstate.
  destruct (Z.eqb_spec index 0) as [Hz | Hnz].
  { destruct (elementAt _ index); [| discriminate].
    injection Hstate as <-. discriminate. }
  destruct (elementAt (CursorAutoplay.hitObjects this) (index - 1)) as [current |] eqn:Hcur;
    [| discriminate].
  exists current. split; [reflexivity |]. split.
  { destruct (advance_predecessor _ _ _ _ _ Hadv) as [-> | [h [Hh Hle]]].
    - destruct (getNextHitObjectIndex_predecessor _ _ _ Hfirst) as [Hf0 | [h [Hh Hle]]];
        [contradiction |].
      rewrite Hcur in Hh. now injection Hh as <-.
    - rewrite Hcur in Hh. now injection Hh as <-. }
  destruct (CursorAutoplay.currentEndTime current) as [currentEnd warning]. cbn [fst].
  destruct (lessThan_spec timeMs currentEnd) as [Hin | Hout]; [now left | right].
  destruct (elementAt (CursorAutoplay.hitObjects this) index) as [next |];
    [| injection Hstate as <-; discriminate].
  injection Hstate as <-. cbn [CursorAutoplay.expanded] in Hexp.
  destruct (lessThan_spec timeMs
              (currentEnd
               + (if CursorAutoplay.isSlider current then 0
                  else CursorAutoplay.mathMin CursorAutoplay.MAX_CLICK_DURATION
                         ((CursorAutoplay.startTime next - currentEnd)
                          * CursorAutoplay.MAX_CLICK_PROPORTION)))%Q) as [Hlt | _];
    [| discriminate].
  destruct (CursorAutoplay.isSlider current); [lra |].
  split; [reflexivity |]. exists next. split; [reflexivity |].
  assert (Hmin : (timeMs - currentEnd
                  < CursorAutoplay.mathMin CursorAutoplay.MAX_CLICK_DURATION
                      ((CursorAutoplay.startTime next - currentEnd)
                       * CursorAutoplay.MAX_CLICK_PROPORTION))%Q) by lra.
  apply mathMin_lt in Hmin. destruct Hmin as [H50 Hhalf].
  unfold CursorAutoplay.MAX_CLICK_DURATION, CursorAutoplay.MAX_CLICK_PROPORTION in *.
  split; lra.
Qed.

(** The slider of the sample map at 2200 ms. *)
Lemma X14_witness :
  exists this' state,
    CursorAutoplay.getCursorState (CursorAutoplay.constructor CursorAutoplay.sampleMap) 2200
    = Normal (this', state) /\
    CursorAutoplay.expanded state = true /\
    exists current,
      elementAt CursorAutoplay.sampleMap (CursorAutoplay.nextHitObjectIndex this' - 1)
      = Some current /\
      (CursorAutoplay.startTime current <= 2200)%Q.
Proof.
  eexists. eexists. split; [reflexivity |]. split; [reflexivity |].
  destruct (X14_cursor_expanded_only_in_object_or_click
              (CursorAutoplay.constructor CursorAutoplay.sampleMap) _ 2200 _
              eq_refl eq_refl)
    as [current [Hcur [Hstart _]]].
  exists current. split; [exact Hcur | exact Hstart].
Defined.

(** X15.  Over hit objects in ascending order of start time and from any
    cursor inside the array: before the first object starts the cursor
    rests, not expanded, on the start position of the first object; once
    the last object has started and ended it rests, not expanded, on the
    end position of the last object. *)
Theorem X15_cursor_rests_before_the_first_and_after_the_last
        (objects : list CursorAutoplay.StandardHitObject) (cursor : Z) (timeMs : Q)
        (first : CursorAutoplay.StandardHitObject) :
  CursorAutoplay.sortedHits objects ->
  0 <= cursor <= len objects ->
  elementAt objects 0 = Some first ->
  ((timeMs < CursorAutoplay.startTime first)%Q ->
   CursorAutoplay.getCursorState
     {| CursorAutoplay.hitObjects := objects;
        CursorAutoplay.nextHitObjectIndex := cursor |} timeMs
   = Normal ({| CursorAutoplay.hitObjects := objects;
                CursorAutoplay.nextHitObjectIndex := 0 |},
             {| CursorAutoplay.pos := CursorAutoplay.StackedStart 0;
                CursorAutoplay.expanded := false;
                CursorAutoplay.warned := false |})) /\
  (forall last,
      elementAt objects (len objects - 1) = Some last ->
      (CursorAutoplay.startTime last <= timeMs)%Q ->
      (fst (CursorAutoplay.currentEndTime last) <= timeMs)%Q ->
      CursorAutoplay.getCursorState
        {| CursorAutoplay.hitObjects := objects;
           CursorAutoplay.nextHitObjectIndex := cursor |} timeMs
      = Normal ({| CursorAutoplay.hitObjects := objects;
                   CursorAutoplay.nextHitObjectIndex := len objects |},
                {| CursorAutoplay.pos := CursorAutoplay.StackedEnd (len objects - 1);
                   CursorAutoplay.expanded := false;
                   CursorAutoplay.warned := snd (CursorAutoplay.currentEndTime last) |})).
Proof.
  intros Hsorted Hrange Hfirst.
  assert (Hne : objects <> []).
  { intros ->. unfold elementAt in Hfirst. simpl in Hfirst. discriminate. }
  destruct (getCursorState_spec objects cursor timeMs Hne Hrange)
    as (index & state & Hrun & Hstate & Hir & _ & Hsep).
  destruct (Hsep Hsorted) as (_ & Hbelow & Habove).
  split.
  - intros Hbefore.
    assert (index = 0).
    { destruct (Z.eq_dec index 0) as [E | Hnz]; [exact E |].
      pose proof (Hbelow 0 first ltac:(lia) Hfirst). lra. }
    subst index. rewrite Hrun. unfold CursorAutoplay.stateAt in Hstate.
    simpl in Hstate. rewrite Hfirst in Hstate. now injection Hstate as <-.
  - intros last Hlast Hstarted Hended.
    pose proof (elementAt_Some_range _ _ _ Hlast) as Hlr.
    assert (index = len objects).
    { destruct (Z.eq_dec index (len objects)) as [E | Hnl]; [exact E |].
      pose proof (Habove (len objects - 1) last ltac:(lia) Hlast). lra. }
    subst index. rewrite Hrun. unfold CursorAutoplay.stateAt in Hstate.
    destruct (Z.eqb_spec (len objects) 0) as [Hz | _]; [lia |].
    rewrite Hlast in Hstate.
    destruct (CursorAutoplay.currentEndTime last) as [currentEnd warning].
    cbn [fst snd] in *.
    destruct (lessThan_spec timeMs currentEnd) as [Hin | _]; [lra |].
    destruct (elementAt objects (len objects)) as [next |] eqn:Hnext.
    + apply elementAt_Some_range in Hnext. lia.
    + now injection Hstate as <-.
Qed.

Lemma X15_witness :
  CursorAutoplay.sortedHits CursorAutoplay.sampleMap /\
  CursorAutoplay.getCursorState
    {| CursorAutoplay.hitObjects := CursorAutoplay.sampleMap;
       CursorAutoplay.nextHitObjectIndex := 2 |} 500
  = Normal ({| CursorAutoplay.hitObjects := CursorAutoplay.sampleMap;
               CursorAutoplay.nextHitObjectIndex := 0 |},
            {| CursorAutoplay.pos := CursorAutoplay.StackedStart 0;
               CursorAutoplay.expanded := false;
               CursorAutoplay.warned := false |}).
Proof.
  split; [exact sampleMap_sorted |].
  apply (X15_cursor_rests_before_the_first_and_after_the_last CursorAutoplay.sampleMap 2 500
           (CursorAutoplay.circleAt 1000) sampleMap_sorted).
  - vm_compute. split; discriminate.
  - reflexivity.
  - reflexivity.
Defined.

(** * The game clock *)

Section FrameStatistics.

Import StandardGame.
Local Open Scope Q_scope.

Lemma insertAscending_perm (x : Q) (l : list Q) :
  Permutation (insertAscending x l) (x :: l).
Proof.
  induction l as [| y l IH]; simpl; [reflexivity |].
  destruct (Qle_bool y x); [| reflexivity]. rewrite IH. apply perm_swap.
Qed.

Lemma sortAscending_perm (l : list Q) : Permutation (sortAscending l) l.
Proof.
  unfold sortAscending.
  assert (H : forall acc, Permutation (fold_left (fun sorted x => insertAscending x sorted) l acc)
                                      (acc ++ l)).
  { induction l as [| x l IH]; intros acc; simpl.
    - now rewrite app_nil_r.
    - rewrite IH, insertAscending_perm. apply Permutation_middle. }
  apply (H []).
Qed.

Lemma insertAscending_ascending (x : Q) (l : list Q) :
  ascending l -> ascending (insertAscending x l).
Proof.
  induction l as [| y l IH]; simpl.
  - intros _. split; [intros z [] | exact I].
  - intros [Hy Hl]. destruct (Qle_bool y x) eqn:E.
    + apply Qle_bool_iff in E. simpl. split; [| now apply IH].
      intros z Hz.
      apply (Permutation_in _ (insertAscending_perm x l)) in Hz.
      destruct Hz as [<- | Hz]; [exact E | now apply Hy].
    + assert (Hlt : x < y).
      { apply Qnot_le_lt. rewrite <- Qle_bool_iff. congruence. }
      simpl. split; [| split; assumption].
      intros z [<- | Hz]; [lra |]. specialize (Hy z Hz). lra.
Qed.

Lemma sortAscending_ascending (l : list Q) : ascending (sortAscending l).
Proof.
  unfold sortAscending.
  assert (H : forall acc, ascending acc ->
                          ascending (fold_left (fun sorted x => insertAscending x sorted) l acc)).
  { induction l as [| x l IH]; intros acc Hacc; simpl; [exact Hacc |].
    apply IH. now apply insertAscending_ascending. }
  apply H. exact I.
Qed.

Lemma ascending_first (l : list Q) (x : Q) :
  ascending l -> elementAt l 0%Z = Some x -> forall y, In y l -> x <= y.
Proof.
  destruct l as [| z l]; [discriminate |].
  intros [Hz _] Hx y Hy. unfold elementAt in Hx. simpl in Hx. injection Hx as <-.
  destruct Hy as [<- | Hy]; [lra | now apply Hz].
Qed.

Lemma ascending_last (l : list Q) (x : Q) :
  ascending l -> elementAt l (len l - 1)%Z = Some x -> forall y, In y l -> y <= x.
Proof.
  induction l as [| z l IH]; [intros _ _ y [] |].
  intros [Hz Hl] Hx y Hy.
  destruct l as [| w l'].
  - unfold elementAt, len in Hx. simpl in Hx. injection Hx as <-.
    destruct Hy as [<- | []]. lra.
  - assert (Hx' : elementAt (w :: l') (len (w :: l') - 1)%Z = Some x).
    { replace (len (z :: w :: l') - 1)%Z with (len (w :: l') - 1 + 1)%Z in Hx
        by (unfold len; simpl length; lia).
      rewrite elementAt_cons in Hx; [exact Hx | unfold len; simpl length; lia]. }
    destruct Hy as [<- | Hy]; [| exact (IH Hl Hx' y Hy)].
    apply Hz. apply (elementAt_In _ _ _ Hx').
Qed.

Lemma frameTimeIndex_range (n : nat) (P : Q) :
  (0 < n)%nat -> 0 <= P -> P < 100 ->
  (0 <= frameTimeIndex n P < Z.of_nat n)%Z.
Proof.
  intros Hn H0 H100. unfold frameTimeIndex.
  assert (Hpos : 0 < inject_Z (Z.of_nat n)).
  { change 0 with (inject_Z 0). rewrite <- Zlt_Qlt. lia. }
  set (m := inject_Z (Z.of_nat n)) in *.
  assert (Hx0 : 0 <= m * P / 100).
  { apply Qle_shift_div_l; [lra |]. rewrite Qmult_0_l. apply Qmult_le_0_compat; lra. }
  assert (Hx1 : m * P / 100 < m).
  { apply Qlt_shift_div_r; [lra |]. apply Qmult_lt_l; [exact Hpos | exact H100]. }
  split.
  - change 0%Z with (Qfloor 0). now apply Qfloor_resp_le.
  - rewrite Zlt_Qlt. eapply Qle_lt_trans; [apply Qfloor_le | exact Hx1].
Qed.

Lemma readPercentiles_in_range (sorted : list Q) (n : nat) (ps : list Q) :
  (forall P, In P ps -> (0 <= frameTimeIndex n P < len sorted)%Z) ->
  exists logged,
    readPercentiles sorted n ps = Normal logged /\
    length logged = length ps /\
    forall p, In p logged -> In p sorted.
Proof.
  induction ps as [| P ps IH]; intros Hrange; simpl.
  - exists []. repeat split; auto. intros p [].
  - destruct (elementAt_in_range sorted (frameTimeIndex n P) (Hrange P ltac:(now left)))
      as [frameTime Hft].
    rewrite Hft.
    destruct IH as (logged & Hrun & Hlen & Hin); [intros Q HQ; apply Hrange; now right |].
    rewrite Hrun. exists (frameTime :: logged). split; [reflexivity |].
    split; [simpl; now rewrite Hlen |].
    intros p [<- | Hp]; [exact (elementAt_In _ _ _ Hft) | now apply Hin].
Qed.

Lemma Ps_bounds (P : Q) : In P Ps -> 0 <= P /\ P < 100.
Proof.
  unfold Ps. simpl. intros [<- | [<- | [<- | [<- | [<- | []]]]]]; split;
    unfold Qle, Qlt; simpl; lia.
Qed.

Lemma summarize_spec (this : Game) :
  (frameTimes this = [] -> summarize this = TypeError) /\
  (frameTimes this <> [] ->
   exists percentiles mn mx mean,
     summarize this = Normal (setFrameTimes this [], [Log percentiles mn mx mean]) /\
     length percentiles = 5%nat /\
     In mn (frameTimes this) /\ In mx (frameTimes this) /\
     (forall x, In x (frameTimes this) -> mn <= x /\ x <= mx) /\
     (forall p, In p percentiles -> In p (frameTimes this))).
Proof.
  split.
  - intros Hempty. unfold summarize. rewrite Hempty. reflexivity.
  - intros Hne. unfold summarize.
    pose proof (sortAscending_perm (frameTimes this)) as Hperm.
    pose proof (sortAscending_ascending (frameTimes this)) as Hasc.
    set (sorted := sortAscending (frameTimes this)) in *.
    assert (Hlen : (0 < length sorted)%nat).
    { rewrite (Permutation_length Hperm). destruct (frameTimes this); [congruence | simpl; lia]. }
    destruct (readPercentiles_in_range sorted (length sorted) Ps) as (logged & Hrun & Hl & Hin).
    { intros P HP. destruct (Ps_bounds P HP) as [H0 H100]. unfold len.
      now apply frameTimeIndex_range. }
    rewrite Hrun.
    destruct (elementAt_in_range sorted 0%Z ltac:(unfold len; lia)) as [mn Hmn].
    destruct (elementAt_in_range sorted (len sorted - 1)%Z ltac:(unfold len; lia)) as [mx Hmx].
    rewrite Hmn, Hmx.
    destruct sorted as [| first rest] eqn:Hsorted; [simpl in Hlen; lia |].
    eexists logged, mn, mx, _. split; [reflexivity |].
    split; [exact Hl |].
    split; [apply (Permutation_in _ Hperm), (elementAt_In _ _ _ Hmn) |].
    split; [apply (Permutation_in _ Hperm), (elementAt_In _ _ _ Hmx) |].
    split.
    + intros x Hx. apply (Permutation_in _ (Permutation_sym Hperm)) in Hx. split.
      * exact (ascending_first _ _ Hasc Hmn x Hx).
      * exact (ascending_last _ _ Hasc Hmx x Hx).
    + intros p Hp. apply (Permutation_in _ Hperm). now apply Hin.
Qed.

End FrameStatistics.

(** X16.  [summarize] raises a [TypeError] when no frame time has been
    recorded.  Otherwise every percentile index it reads is inside the
    sorted array: it completes, logs five percentiles that are recorded
    frame times, with the least and the greatest recorded frame time as
    minimum and maximum, and empties the record. *)
Theorem X16_summarize_reads_inside_the_frame_times (this : StandardGame.Game) :
  (StandardGame.frameTimes this = [] -> StandardGame.summarize this = TypeError) /\
  (StandardGame.frameTimes this <> [] ->
   exists percentiles mn mx mean,
     StandardGame.summarize this
     = Normal (StandardGame.setFrameTimes this [],
               [StandardGame.Log percentiles mn mx mean]) /\
     length percentiles = 5%nat /\
     In mn (StandardGame.frameTimes this) /\ In mx (StandardGame.frameTimes this) /\
     (forall x, In x (StandardGame.frameTimes this) -> (mn <= x)%Q /\ (x <= mx)%Q) /\
     (forall p, In p percentiles -> In p (StandardGame.frameTimes this))).
Proof. exact (summarize_spec this). Qed.

Section ClockFacts.

Import StandardGame.
Local Open Scope Q_scope.

(** [getElapsedMs] touches nothing but the marker of the lost focus. *)
Lemma getElapsedMs_spec (this : Game) (frame : Frame) :
  cursorAutoplay (snd (getElapsedMs this frame)) = cursorAutoplay this /\
  isAudioStarted (snd (getElapsedMs this frame)) = isAudioStarted this /\
  isPaused (snd (getElapsedMs this frame)) = isPaused this /\
  timeElapsedMs (snd (getElapsedMs this frame)) = timeElapsedMs this /\
  lastTimeElapsedMs (snd (getElapsedMs this frame)) = lastTimeElapsedMs this /\
  endTimeMs (snd (getElapsedMs this frame)) = endTimeMs this /\
  frameTimes (snd (getElapsedMs this frame)) = frameTimes this /\
  (isPaused this = true -> getElapsedMs this frame = (0, this)).
Proof.
  unfold getElapsedMs. destruct (isPaused this) eqn:Hp.
  - simpl. rewrite Hp. tauto.
  - destruct (unfocusedTimeMs this); simpl; rewrite Hp;
      (split; [reflexivity |]); (split; [reflexivity |]); (split; [reflexivity |]);
      (split; [reflexivity |]); (split; [reflexivity |]); (split; [reflexivity |]);
      (split; [reflexivity | discriminate]).
Qed.

(** The first block of [tick]. *)
Lemma updateIfChanged_spec (this : Game) :
  cursorInRange this ->
  ((match lastTimeElapsedMs this with
    | None => true
    | Some last => negb (Qeq_bool last (timeElapsedMs this))
    end) = false ->
   updateIfChanged this = Normal (this, [])) /\
  ((match lastTimeElapsedMs this with
    | None => true
    | Some last => negb (Qeq_bool last (timeElapsedMs this))
    end) = true ->
   (CursorAutoplay.hitObjects (cursorAutoplay this) = [] ->
    updateIfChanged this = TypeError) /\
   (CursorAutoplay.hitObjects (cursorAutoplay this) <> [] ->
    exists cursor cursorState,
      updateIfChanged this
      = Normal (setCursorAutoplay this cursor,
                Update HitObjects (timeElapsedMs this) :: MoveCursor cursorState
                :: Update CursorAuto (timeElapsedMs this)
                :: map (fun target => Update target (timeElapsedMs this))
                       updatedAfterCursor) /\
      CursorAutoplay.hitObjects cursor = CursorAutoplay.hitObjects (cursorAutoplay this) /\
      (0 <= CursorAutoplay.nextHitObjectIndex cursor
       <= len (CursorAutoplay.hitObjects cursor))%Z)).
Proof.
  intros Hrange. unfold updateIfChanged, cursorInRange in *.
  split; [intros ->; reflexivity |].
  intros ->. destruct (cursorAutoplay this) as [objects index].
  cbn [CursorAutoplay.hitObjects CursorAutoplay.nextHitObjectIndex] in *.
  split.
  - intros ->. unfold len in Hrange. simpl in Hrange.
    assert (index = 0%Z) by lia. subst. reflexivity.
  - intros Hne.
    destruct (getCursorState_spec objects index (timeElapsedMs this) Hne Hrange)
      as (index' & state & Hrun & _ & Hir & _).
    unfold CursorAutoplay.update. rewrite Hrun.
    eexists. exists state. split; [reflexivity |].
    cbn [CursorAutoplay.hitObjects CursorAutoplay.nextHitObjectIndex].
    split; [reflexivity | exact Hir].
Qed.

(** The second block. *)
Lemma startAudioIfDue_spec (this : Game) :
  cursorAutoplay (fst (startAudioIfDue this)) = cursorAutoplay this /\
  isPaused (fst (startAudioIfDue this)) = isPaused this /\
  timeElapsedMs (fst (startAudioIfDue this)) = timeElapsedMs this /\
  unfocusedTimeMs (fst (startAudioIfDue this)) = unfocusedTimeMs this /\
  existsb isUpdate (snd (startAudioIfDue this)) = false /\
  (isPaused this = true -> startAudioIfDue this = (this, [])).
Proof.
  unfold startAudioIfDue.
  destruct (negb (isPaused this) && negb (isAudioStarted this)
            && Qle_bool 0 (timeElapsedMs this))%bool eqn:E; simpl.
  - split; [reflexivity |]. split; [reflexivity |]. split; [reflexivity |].
    split; [reflexivity |]. split; [reflexivity |].
    intros Hp. rewrite Hp in E. discriminate.
  - tauto.
Qed.

(** The third block always completes: [summarize] is called on recorded
    frame times only. *)
Lemma recordFrameTime_spec (this : Game) (frame : Frame) :
  exists this' calls,
    recordFrameTime this frame = Normal (this', calls) /\
    cursorAutoplay this' = cursorAutoplay this /\
    isAudioStarted this' = isAudioStarted this /\
    isPaused this' = isPaused this /\
    timeElapsedMs this' = timeElapsedMs this /\
    unfocusedTimeMs this' = unfocusedTimeMs this /\
    existsb isUpdate calls = false /\
    ~ In AudioPlay calls /\
    (isPaused this = true ->
     frameTimes this' = frameTimes this \/ frameTimes this' = []).
Proof.
  unfold recordFrameTime.
  destruct (negb (Qle_bool (endTimeMs this) (timeElapsedMs this))).
  - eexists. eexists. split; [reflexivity |].
    destruct (isPaused this) eqn:Hp; simpl; rewrite ?Hp.
    + split; [reflexivity |]. split; [reflexivity |]. split; [reflexivity |].
      split; [reflexivity |]. split; [reflexivity |]. split; [reflexivity |].
      split; [intros [] | now left].
    + split; [reflexivity |]. split; [reflexivity |]. split; [reflexivity |].
      split; [reflexivity |]. split; [reflexivity |]. split; [reflexivity |].
      split; [intros [] | discriminate].
  - destruct (frameTimes this) as [| x rest] eqn:Hframes.
    + eexists. eexists. split; [reflexivity |].
      split; [reflexivity |]. split; [reflexivity |]. split; [reflexivity |].
      split; [reflexivity |]. split; [reflexivity |]. split; [reflexivity |].
      split; [intros [] | now left].
    + destruct (summarize_spec this) as [_ Hsome].
      destruct Hsome as (percentiles & mn & mx & mean & Hrun & _); [congruence |].
      rewrite Hrun. eexists. eexists. split; [reflexivity |]. simpl.
      split; [reflexivity |]. split; [reflexivity |]. split; [reflexivity |].
      split; [reflexivity |]. split; [reflexivity |]. split; [reflexivity |].
      split; [intros [H | []]; discriminate | now right].
Qed.

(** One tick, taken apart. *)
Lemma tick_spec (this : Game) (audio : Audio) (frame : Frame) :
  cursorInRange this ->
  (timeChanged this frame = true ->
   CursorAutoplay.hitObjects (cursorAutoplay this) = [] ->
   tick this audio frame = TypeError) /\
  (timeChanged this frame = false \/
   CursorAutoplay.hitObjects (cursorAutoplay this) <> [] ->
   exists this' calls,
     tick this audio frame = Normal (this', calls) /\
     timeElapsedMs this' = reachedTime this frame /\
     lastTimeElapsedMs this' = Some (reachedTime this frame) /\
     cursorInRange this' /\
     CursorAutoplay.hitObjects (cursorAutoplay this')
     = CursorAutoplay.hitObjects (cursorAutoplay this) /\
     isPaused this' = isPaused this /\
     (timeChanged this frame = false ->
      cursorAutoplay this' = cursorAutoplay this /\ existsb isUpdate calls = false) /\
     (isPaused this = true ->
      isAudioStarted this' = isAudioStarted this /\
      unfocusedTimeMs this' = unfocusedTimeMs this /\
      (frameTimes this' = frameTimes this \/ frameTimes this' = []) /\
      ~ In AudioPlay calls)).
Proof.
  intros Hrange. unfold tick, timeChanged, reachedTime.
  destruct (getElapsedMs_spec this frame) as (Hc1 & Hs1 & Hp1 & Ht1 & Hl1 & _ & Hf1 & Hpaused1).
  destruct (getElapsedMs this frame) as [elapsed this1]. cbn [fst snd] in *.
  remember (setTime this1 (timeElapsedMs this1 + elapsed)) as this2 eqn:Hthis2.
  assert (Hc2 : cursorAutoplay this2 = cursorAutoplay this) by (subst this2; exact Hc1).
  assert (Hs2 : isAudioStarted this2 = isAudioStarted this) by (subst this2; exact Hs1).
  assert (Hp2 : isPaused this2 = isPaused this) by (subst this2; exact Hp1).
  assert (Ht2 : timeElapsedMs this2 = timeElapsedMs this + elapsed).
  { subst this2. cbn [setTime timeElapsedMs]. now rewrite Ht1. }
  assert (Hl2 : lastTimeElapsedMs this2 = lastTimeElapsedMs this) by (subst this2; exact Hl1).
  assert (Hu2 : unfocusedTimeMs this2 = unfocusedTimeMs this1) by (subst this2; reflexivity).
  assert (Hf2 : frameTimes this2 = frameTimes this) by (subst this2; exact Hf1).
  clear Hthis2.
  assert (Hrange2 : cursorInRange this2).
  { unfold cursorInRange. rewrite Hc2. exact Hrange. }
  destruct (updateIfChanged_spec this2 Hrange2) as [Hsame Hchanged].
  rewrite Hl2, Ht2 in Hsame, Hchanged. rewrite Hc2 in Hchanged.
  split.
  - intros Hch Hempty. destruct (Hchanged Hch) as [Hfail _]. now rewrite (Hfail Hempty).
  - intros Hcase.
    assert (Hupd : exists this3 calls1,
               updateIfChanged this2 = Normal (this3, calls1) /\
               CursorAutoplay.hitObjects (cursorAutoplay this3)
               = CursorAutoplay.hitObjects (cursorAutoplay this) /\
               cursorInRange this3 /\
               isAudioStarted this3 = isAudioStarted this /\
               isPaused this3 = isPaused this /\
               timeElapsedMs this3 = timeElapsedMs this + elapsed /\
               unfocusedTimeMs this3 = unfocusedTimeMs this1 /\
               frameTimes this3 = frameTimes this /\
               ((match lastTimeElapsedMs this with
                 | None => true
                 | Some last => negb (Qeq_bool last (timeElapsedMs this + elapsed))
                 end) = false ->
                cursorAutoplay this3 = cursorAutoplay this /\ calls1 = [])).
    { destruct (match lastTimeElapsedMs this with
                | None => true
                | Some last => negb (Qeq_bool last (timeElapsedMs this + elapsed))
                end) eqn:Hch.
      - destruct Hcase as [Hf | Hne]; [discriminate |].
        destruct (Hchanged eq_refl) as [_ Hok].
        destruct (Hok Hne) as (cursor & cursorState & Hrun & Hobjects & Hir).
        eexists. eexists. split; [exact Hrun |].
        unfold cursorInRange.
        cbn [setCursorAutoplay cursorAutoplay isAudioStarted isPaused
             timeElapsedMs unfocusedTimeMs frameTimes].
        repeat apply conj; auto; try apply Hir; discriminate.
      - exists this2, []. split; [exact (Hsame eq_refl) |].
        rewrite Hc2. repeat apply conj; auto; apply Hrange2. }
    destruct Hupd as (this3 & calls1 & Hrun3 & Hobj3 & Hrange3 & Hs3 & Hp3 & Ht3 & Hu3
                      & Hf3 & Hquiet).
    rewrite Hrun3.
    destruct (startAudioIfDue_spec this3) as (Hc4 & Hp4 & Ht4 & Hu4 & Hnu4 & Hpaused4).
    destruct (startAudioIfDue this3) as [this4 calls2]. cbn [fst snd] in *.
    destruct (recordFrameTime_spec this4 frame)
      as (this5 & calls3 & Hrun5 & Hc5 & Hs5 & Hp5 & Ht5 & Hu5 & Hnu5 & Hna5 & Hfr5).
    rewrite Hrun5. eexists. eexists. split; [reflexivity |].
    cbn [setLastTime timeElapsedMs lastTimeElapsedMs cursorAutoplay isPaused
         isAudioStarted unfocusedTimeMs frameTimes].
    unfold cursorInRange in *. cbn [setLastTime cursorAutoplay].
    rewrite Ht5, Ht4, Ht3, Hc5, Hc4, Hp5, Hp4, Hp3.
    split; [reflexivity |]. split; [reflexivity |]. split; [exact Hrange3 |].
    split; [exact Hobj3 |]. split; [reflexivity |]. split.
    + intros Hch. destruct (Hquiet Hch) as [Hcur ->]. split; [exact Hcur |].
      simpl. rewrite existsb_app, Hnu4, Hnu5. reflexivity.
    + intros Hpaused. rewrite Hpaused in *.
      injection (Hpaused4 ltac:(congruence)) as -> ->.
      injection (Hpaused1 eq_refl) as -> ->.
      rewrite Hs5, Hu5, Hs3, Hu3.
      split; [reflexivity |]. split; [reflexivity |].
      split.
      * destruct (Hfr5 ltac:(congruence)) as [E | E]; [left; congruence | now right].
      * intros [H | H]; [discriminate |].
        apply in_app_or in H. destruct H as [H | H].
        -- destruct (match lastTimeElapsedMs this with
                     | None => true
                     | Some last => negb (Qeq_bool last (timeElapsedMs this + 0))
                     end) eqn:Hch.
           ++ destruct Hcase as [Hf | Hne]; [discriminate |].
              destruct (Hchanged eq_refl) as [_ Hok].
              destruct (Hok Hne) as (cursor & cursorState & Hrun & _).
              rewrite Hrun in Hrun3. injection Hrun3 as _ <-.
              simpl in H. intuition discriminate.
           ++ destruct (Hquiet eq_refl) as [_ ->]. destruct H.
        -- simpl in H. contradiction.
Qed.

End ClockFacts.

(** X17.  [tick] fails only in the update of the cursor.  With the
    cursor inside the array of the hit objects, a tick whose time differs
    from the last time noted raises a [TypeError] when there is no hit
    object; in every other case it completes ([summarize] is called on
    recorded frame times only), notes the time it has reached as the last
    time and leaves the cursor inside the array.  On a paused game it then
    leaves the clock where it was, starts no audio, records no frame time,
    leaves the marker of the lost focus alone, and, if the time had already
    been noted, updates no collaborator. *)
Theorem X17_tick_fails_only_in_the_cursor_update
        (this : StandardGame.Game) (audio : StandardGame.Audio)
        (frame : StandardGame.Frame) :
  StandardGame.cursorInRange this ->
  (StandardGame.timeChanged this frame = true ->
   CursorAutoplay.hitObjects (StandardGame.cursorAutoplay this) = [] ->
   StandardGame.tick this audio frame = TypeError) /\
  (StandardGame.timeChanged this frame = false \/
   CursorAutoplay.hitObjects (StandardGame.cursorAutoplay this) <> [] ->
   exists this' calls,
     StandardGame.tick this audio frame = Normal (this', calls) /\
     StandardGame.lastTimeElapsedMs this' = Some (StandardGame.timeElapsedMs this') /\
     StandardGame.cursorInRange this' /\
     (StandardGame.isPaused this = true ->
      (StandardGame.timeElapsedMs this' == StandardGame.timeElapsedMs this)%Q /\
      StandardGame.isPaused this' = true /\
      StandardGame.isAudioStarted this' = StandardGame.isAudioStarted this /\
      StandardGame.unfocusedTimeMs this' = StandardGame.unfocusedTimeMs this /\
      (StandardGame.frameTimes this' = StandardGame.frameTimes this \/
       StandardGame.frameTimes this' = []) /\
      ~ In StandardGame.AudioPlay calls /\
      (forall last,
          StandardGame.lastTimeElapsedMs this = Some last ->
          (last == StandardGame.timeElapsedMs this)%Q ->
          existsb StandardGame.isUpdate calls = false))).
Proof.
  intros Hrange.
  destruct (tick_spec this audio frame Hrange) as [Hfail Hok].
  split; [exact Hfail |].
  intros Hcase.
  destruct (Hok Hcase)
    as (this' & calls & Hrun & Htime & Hlast & Hrange' & _ & Hp & Hquiet & Hpaused).
  exists this', calls. split; [exact Hrun |].
  split; [rewrite Hlast, Htime; reflexivity |]. split; [exact Hrange' |].
  intros Hp0.
  assert (Hreached : (StandardGame.reachedTime this frame
                      == StandardGame.timeElapsedMs this)%Q).
  { unfold StandardGame.reachedTime, StandardGame.getElapsedMs. rewrite Hp0. simpl. lra. }
  destruct (Hpaused Hp0) as (H1 & H2 & H3 & H4).
  split; [rewrite Htime; exact Hreached |].
  split; [congruence |]. split; [exact H1 |]. split; [exact H2 |].
  split; [exact H3 |]. split; [exact H4 |].
  intros last Hl Heq. apply Hquiet.
  unfold StandardGame.timeChanged. rewrite Hl.
  rewrite (Qeq_eq_bool last (StandardGame.reachedTime this frame));
    [reflexivity | rewrite Hreached; exact Heq].
Qed.

(** A frame of the sample game; and the first frame of a game without hit
    objects, which raises. *)
Lemma X17_witness :
  StandardGame.cursorInRange StandardGame.sampleGame /\
  StandardGame.cursorInRange StandardGame.emptyGame /\
  (exists this' calls,
     StandardGame.tick StandardGame.sampleGame StandardGame.sampleAudio
                       StandardGame.sampleFrame = Normal (this', calls)) /\
  StandardGame.tick StandardGame.emptyGame StandardGame.sampleAudio
                    StandardGame.sampleFrame = TypeError.
Proof.
  assert (H1 : StandardGame.cursorInRange StandardGame.sampleGame).
  { vm_compute. split; discriminate. }
  assert (H2 : StandardGame.cursorInRange StandardGame.emptyGame).
  { vm_compute. split; discriminate. }
  split; [exact H1 |]. split; [exact H2 |]. split.
  - destruct (X17_tick_fails_only_in_the_cursor_update
                StandardGame.sampleGame StandardGame.sampleAudio StandardGame.sampleFrame H1)
      as [_ Hok].
    destruct (Hok ltac:(right; discriminate)) as (this' & calls & Hrun & _).
    exists this', calls. exact Hrun.
  - apply (X17_tick_fails_only_in_the_cursor_update
             StandardGame.emptyGame StandardGame.sampleAudio StandardGame.sampleFrame H2);
      reflexivity.
Defined.

Section SeekAndPlay.

Import StandardGame.
Local Open Scope Q_scope.

Lemma qMin_le_l (a b : Q) : qMin a b <= a.
Proof.
  unfold qMin. destruct (Qle_bool a b) eqn:E; [lra |].
  assert (~ a <= b) by (rewrite <- Qle_bool_iff; congruence). lra.
Qed.

Lemma qMin_le_r (a b : Q) : qMin a b <= b.
Proof.
  unfold qMin. destruct (Qle_bool a b) eqn:E; [now apply Qle_bool_iff | lra].
Qed.

Lemma qMax_ge_l (a b : Q) : a <= qMax a b.
Proof.
  unfold qMax. destruct (Qle_bool a b) eqn:E; [now apply Qle_bool_iff | lra].
Qed.

Lemma qMax_ge_r (a b : Q) : b <= qMax a b.
Proof.
  unfold qMax. destruct (Qle_bool a b) eqn:E; [lra |].
  assert (~ a <= b) by (rewrite <- Qle_bool_iff; congruence). lra.
Qed.

Lemma clampBetween_clamps : clamps clampBetween.
Proof.
  intros value lo hi Hle. unfold clampBetween. split; [apply qMax_ge_l |].
  unfold qMax. destruct (Qle_bool lo (qMin hi value)); [apply qMin_le_l | exact Hle].
Qed.

(** The bounds that the constructor computes are in order when the
    duration of the audio is not negative. *)
Lemma bounds_in_order (audio : Audio) (totalLength : Q) (earliest latest : option Q) :
  0 <= duration audio ->
  startBound earliest <= 0 /\
  duration audio * 1000 <= endBound audio totalLength latest /\
  startBound earliest <= endBound audio totalLength latest.
Proof.
  intros Hd. unfold startBound, endBound.
  pose proof (qMin_le_l 0 (match earliest with Some t => t | None => 0 end)) as H1.
  pose proof (qMax_ge_l (duration audio * 1000)
                (qMax totalLength (match latest with Some t => t | None => 0 end))) as H2.
  repeat split; lra.
Qed.

Lemma seek_spec (clamp : Q -> Q -> Q -> Q) (this : Game) (audio : Audio) (timeMs : option Q) :
  clamps clamp ->
  startTimeMs this <= endTimeMs this ->
  let clamped := clamp (match timeMs with Some t => t | None => timeElapsedMs this end)
                       (startTimeMs this) (endTimeMs this) in
  timeElapsedMs (fst (seek clamp this audio timeMs)) = clamped /\
  startTimeMs this <= clamped /\ clamped <= endTimeMs this /\
  startTimeMs (fst (seek clamp this audio timeMs)) = startTimeMs this /\
  endTimeMs (fst (seek clamp this audio timeMs)) = endTimeMs this /\
  isPaused (fst (seek clamp this audio timeMs)) = isPaused this /\
  (forall target, In target layers ->
                  In (Seek target clamped) (snd (seek clamp this audio timeMs))) /\
  (forall target t, In (Seek target t) (snd (seek clamp this audio timeMs)) -> t = clamped) /\
  (In AudioStop (snd (seek clamp this audio timeMs)) <->
   clamped < 0 \/ duration audio * 1000 <= clamped) /\
  ((exists s, In (AudioSeek s) (snd (seek clamp this audio timeMs))) <->
   0 <= clamped /\ clamped < duration audio * 1000) /\
  (forall s, In (AudioSeek s) (snd (seek clamp this audio timeMs)) -> s = clamped / 1000) /\
  (In AudioStop (snd (seek clamp this audio timeMs)) ->
   (isAudioStarted (fst (seek clamp this audio timeMs)) = true <->
    duration audio * 1000 <= clamped)).
Proof.
  intros Hclamp Hbounds clamped.
  destruct (Hclamp (match timeMs with Some t => t | None => timeElapsedMs this end)
                   (startTimeMs this) (endTimeMs this) Hbounds) as [Hlo Hhi].
  fold clamped in Hlo, Hhi.
  unfold seek. fold clamped.
  assert (Hbefore : negb (Qle_bool 0 clamped) = true <-> clamped < 0).
  { rewrite negb_true_iff. split.
    - intros E. apply Qnot_le_lt. rewrite <- Qle_bool_iff. congruence.
    - intros Hlt. destruct (Qle_bool 0 clamped) eqn:E; [| reflexivity].
      apply Qle_bool_iff in E. lra. }
  assert (Hafter : Qle_bool (duration audio * 1000) clamped = true
                   <-> duration audio * 1000 <= clamped) by apply Qle_bool_iff.
  assert (Hlayers : forall target t,
             In (Seek target t) (map (fun target => Seek target clamped) layers) ->
             t = clamped).
  { intros target t Hin. apply in_map_iff in Hin. destruct Hin as [x [Heq _]].
    now injection Heq as _ <-. }
  assert (Hnostop : ~ In AudioStop (map (fun target => Seek target clamped) layers)).
  { intros Hin. apply in_map_iff in Hin. destruct Hin as [x [Heq _]]. discriminate. }
  assert (Hnoseek : forall s, ~ In (AudioSeek s)
                                   (map (fun target => Seek target clamped) layers)).
  { intros s Hin. apply in_map_iff in Hin. destruct Hin as [x [Heq _]]. discriminate. }
  destruct (negb (Qle_bool 0 clamped) || Qle_bool (duration audio * 1000) clamped)%bool
    eqn:Hout; cbn [fst snd setAudioStarted setTime timeElapsedMs startTimeMs endTimeMs
                   isPaused isAudioStarted app].
  - apply orb_true_iff in Hout. rewrite Hbefore, Hafter in Hout.
    repeat apply conj.
    + reflexivity.
    + exact Hlo.
    + exact Hhi.
    + reflexivity.
    + reflexivity.
    + reflexivity.
    + intros target Hin. right. apply in_map_iff. eauto.
    + intros target t [H | H]; [discriminate | eauto].
    + intros _; exact Hout.
    + intros _; now left.
    + intros [s [H | H]]; [discriminate | destruct (Hnoseek s H)].
    + intros [H0 H1]. destruct Hout; lra.
    + intros s [H | H]; [discriminate | destruct (Hnoseek s H)].
    + intros _. exact Hafter.
  - apply orb_false_iff in Hout. destruct Hout as [Hb Ha].
    assert (Hin0 : 0 <= clamped).
    { destruct (Qle_bool 0 clamped) eqn:E; [now apply Qle_bool_iff | discriminate]. }
    assert (Hin1 : clamped < duration audio * 1000).
    { apply Qnot_le_lt. rewrite <- Qle_bool_iff. congruence. }
    repeat apply conj.
    + reflexivity.
    + exact Hlo.
    + exact Hhi.
    + reflexivity.
    + reflexivity.
    + reflexivity.
    + intros target Hin. right. apply in_map_iff. eauto.
    + intros target t [H | H]; [discriminate | eauto].
    + intros [H | H]; [discriminate | destruct (Hnostop H)].
    + intros [H | H]; lra.
    + intros _; split; assumption.
    + intros _. eexists. now left.
    + intros s [H | H]; [now injection H as <- | destruct (Hnoseek s H)].
    + intros [H | H]; [discriminate | destruct (Hnostop H)].
Qed.

(** The time that a tick reaches. *)
End SeekAndPlay.

(** X18.  For a game whose bounds are those the constructor computes
    ([startTimeMs = min(0, earliestEventTime ?? 0)], [endTimeMs] the maximum
    of the audio length, the beatmap length and [latestEventTime ?? 0]),
    with an audio of a duration that is not negative and a clamp that
    returns a value between its bounds: [seek] leaves the clock between
    [startTimeMs] and [endTimeMs], seeks the video and the four storyboard
    layers to that same time, and stops the audio exactly when the time is
    before 0 or not before the end of the audio (then the audio counts as
    started exactly when the time is not before its end); otherwise it
    seeks the audio to the time in seconds. *)
Theorem X18_seek_keeps_the_clock_inside_the_song
        (clamp : Q -> Q -> Q -> Q) (this : StandardGame.Game) (audio : StandardGame.Audio)
        (totalLength : Q) (earliest latest : option Q) (timeMs : option Q) :
  StandardGame.clamps clamp ->
  (0 <= StandardGame.duration audio)%Q ->
  StandardGame.startTimeMs this = StandardGame.startBound earliest ->
  StandardGame.endTimeMs this = StandardGame.endBound audio totalLength latest ->
  exists this' calls time,
    StandardGame.seek clamp this audio timeMs = (this', calls) /\
    StandardGame.timeElapsedMs this' = time /\
    (StandardGame.startTimeMs this <= time)%Q /\
    (time <= StandardGame.endTimeMs this)%Q /\
    StandardGame.startTimeMs this' = StandardGame.startTimeMs this /\
    StandardGame.endTimeMs this' = StandardGame.endTimeMs this /\
    (forall target, In target StandardGame.layers ->
                    In (StandardGame.Seek target time) calls) /\
    (forall target t, In (StandardGame.Seek target t) calls -> t = time) /\
    (In StandardGame.AudioStop calls <->
     (time < 0)%Q \/ (StandardGame.duration audio * 1000 <= time)%Q) /\
    ((exists s, In (StandardGame.AudioSeek s) calls) <->
     (0 <= time)%Q /\ (time < StandardGame.duration audio * 1000)%Q) /\
    (forall s, In (StandardGame.AudioSeek s) calls -> s = (time / 1000)%Q) /\
    (In StandardGame.AudioStop calls ->
     (StandardGame.isAudioStarted this' = true <->
      (StandardGame.duration audio * 1000 <= time)%Q)).
Proof.
  intros Hclamp Hduration Hstart Hend.
  assert (Hbounds : (StandardGame.startTimeMs this <= StandardGame.endTimeMs this)%Q).
  { rewrite Hstart, Hend. now apply bounds_in_order. }
  pose proof (seek_spec clamp this audio timeMs Hclamp Hbounds) as Hspec.
  cbv zeta in Hspec.
  destruct (StandardGame.seek clamp this audio timeMs) as [this' calls].
  cbn [fst snd] in Hspec.
  destruct Hspec as (H1 & H2 & H3 & H4 & H5 & _ & H7 & H8 & H9 & H10 & H11 & H12).
  exists this', calls, (StandardGame.timeElapsedMs this').
  rewrite H1. repeat (split; [assumption || reflexivity |]). assumption.
Qed.

(** The sample game, sought far beyond the end of its song. *)
Lemma X18_witness :
  StandardGame.clamps StandardGame.clampBetween /\
  (0 <= StandardGame.duration StandardGame.sampleAudio)%Q /\
  exists this' calls time,
    StandardGame.seek StandardGame.clampBetween StandardGame.sampleGame
                      StandardGame.sampleAudio (Some 99000%Q) = (this', calls) /\
    StandardGame.timeElapsedMs this' = time /\
    (time <= StandardGame.endTimeMs StandardGame.sampleGame)%Q.
Proof.
  split; [exact clampBetween_clamps |].
  assert (Hd : (0 <= StandardGame.duration StandardGame.sampleAudio)%Q)
    by (unfold Qle; simpl; lia).
  split; [exact Hd |].
  destruct (X18_seek_keeps_the_clock_inside_the_song StandardGame.clampBetween
              StandardGame.sampleGame StandardGame.sampleAudio 9000 (Some (-500)%Q) None
              (Some 99000%Q) clampBetween_clamps Hd eq_refl eq_refl)
    as (this' & calls & time & Hrun & Htime & _ & Hhi & _).
  exists this', calls, time. split; [exact Hrun |]. split; [exact Htime | exact Hhi].
Defined.

(** X19.  [play] works as a repeat when the playback has ended: on a game
    whose clock has reached [endTimeMs] it puts the clock back to
    [startTimeMs] and lifts the pause, plays the audio exactly when the
    audio is not playing, and leaves the cursor alone; when there are hit
    objects, the next tick (if the window did not lose the focus)
    completes and advances the clock from [startTimeMs] by the frame time
    times the speed of the ticker. *)
Theorem X19_play_after_the_end_starts_over
        (this : StandardGame.Game) (audio audio' : StandardGame.Audio)
        (frame : StandardGame.Frame) :
  (StandardGame.endTimeMs this <= StandardGame.timeElapsedMs this)%Q ->
  StandardGame.unfocusedTimeMs this = None ->
  StandardGame.cursorInRange this ->
  CursorAutoplay.hitObjects (StandardGame.cursorAutoplay this) <> [] ->
  exists played calls this' calls',
    StandardGame.play this audio = (played, calls) /\
    StandardGame.timeElapsedMs played = StandardGame.startTimeMs this /\
    StandardGame.isPaused played = false /\
    StandardGame.cursorAutoplay played = StandardGame.cursorAutoplay this /\
    (In StandardGame.AudioPlay calls <-> StandardGame.playing audio = false) /\
    In StandardGame.ScheduleSeek calls /\
    StandardGame.tick played audio' frame = Normal (this', calls') /\
    StandardGame.timeElapsedMs this'
    = (StandardGame.startTimeMs this
       + StandardGame.elapsedMS frame * StandardGame.tickerSpeed this)%Q.
Proof.
  intros Hended Hfocus Hrange Hne.
  apply Qle_bool_iff in Hended.
  destruct (StandardGame.play this audio) as [played calls] eqn:Hplay.
  assert (Hplayed : StandardGame.timeElapsedMs played = StandardGame.startTimeMs this /\
                    StandardGame.isPaused played = false /\
                    StandardGame.cursorAutoplay played = StandardGame.cursorAutoplay this /\
                    StandardGame.unfocusedTimeMs played = None /\
                    StandardGame.tickerSpeed played = StandardGame.tickerSpeed this /\
                    (In StandardGame.AudioPlay calls <-> StandardGame.playing audio = false) /\
                    In StandardGame.ScheduleSeek calls).
  { unfold StandardGame.play in Hplay. rewrite Hended in Hplay.
    destruct (StandardGame.playing audio) eqn:Hplaying; cbn [negb] in Hplay;
      injection Hplay as <- <-; cbn; rewrite Hfocus.
    - repeat apply conj; try reflexivity; try tauto; intuition discriminate.
    - repeat apply conj; try reflexivity; try tauto; intuition discriminate. }
  destruct Hplayed as (Htime & Hpause & Hcursor & Hunfocused & Hspeed & Haudio & Hseek).
  assert (Hrange' : StandardGame.cursorInRange played).
  { unfold StandardGame.cursorInRange. rewrite Hcursor. exact Hrange. }
  destruct (tick_spec played audio' frame Hrange') as [_ Hok].
  destruct (Hok ltac:(right; rewrite Hcursor; exact Hne))
    as (this' & calls' & Hrun & Hreached & _).
  exists played, calls, this', calls'.
  split; [reflexivity |]. split; [exact Htime |]. split; [exact Hpause |].
  split; [exact Hcursor |]. split; [exact Haudio |]. split; [exact Hseek |].
  split; [exact Hrun |].
  rewrite Hreached. unfold StandardGame.reachedTime, StandardGame.getElapsedMs.
  rewrite Hpause, Hunfocused, Htime, Hspeed. reflexivity.
Qed.

Lemma X19_witness :
  (StandardGame.endTimeMs StandardGame.sampleGame
   <= StandardGame.timeElapsedMs
        (StandardGame.setTime StandardGame.sampleGame 10000))%Q /\
  StandardGame.cursorInRange (StandardGame.setTime StandardGame.sampleGame 10000) /\
  exists played calls,
    StandardGame.play (StandardGame.setTime StandardGame.sampleGame 10000)
                      StandardGame.sampleAudio = (played, calls) /\
    StandardGame.timeElapsedMs played = StandardGame.startTimeMs StandardGame.sampleGame.
Proof.
  assert (Hended : (StandardGame.endTimeMs StandardGame.sampleGame
                    <= StandardGame.timeElapsedMs
                         (StandardGame.setTime StandardGame.sampleGame 10000))%Q).
  { vm_compute. discriminate. }
  assert (Hrange : StandardGame.cursorInRange
                     (StandardGame.setTime StandardGame.sampleGame 10000)).
  { vm_compute. split; discriminate. }
  split; [exact Hended |]. split; [exact Hrange |].
  destruct (X19_play_after_the_end_starts_over
              (StandardGame.setTime StandardGame.sampleGame 10000)
              StandardGame.sampleAudio StandardGame.sampleAudio StandardGame.sampleFrame
              Hended eq_refl Hrange ltac:(discriminate))
    as (played & calls & _ & _ & Hplay & Htime & _).
  exists played, calls. split; [exact Hplay | exact Htime].
Defined.

(** * The display-object layer *)

Section DisplayObjectFacts.

Variable Instance : Type.

Lemma createdKeys_app (l1 l2 : list (Event Instance)) :
  DisplayObjects.createdKeys (l1 ++ l2)
  = DisplayObjects.createdKeys l1 ++ DisplayObjects.createdKeys l2.
Proof.
  induction l1 as [| ev l1 IH]; simpl; [reflexivity |].
  destruct ev; simpl; now rewrite IH.
Qed.

Lemma In_createdKeys (k : Z) (l : list (Event Instance)) :
  In k (DisplayObjects.createdKeys l) <-> exists x t, In (CreateElement k x t) l.
Proof.
  induction l as [| ev l IH]; simpl.
  - split; [intros [] | intros (x & t & [])].
  - destruct ev as [j | j y s | j y s | j y s]; simpl; rewrite ?IH.
    + split; [intros (x & t & H); eauto | intros (x & t & [H | H]); [discriminate | eauto]].
    + split.
      * intros [<- | (x & t & H)]; eauto.
      * intros (x & t & [H | H]); [injection H as -> _ _; now left | right; eauto].
    + split; [intros (x & t & H); eauto | intros (x & t & [H | H]); [discriminate | eauto]].
    + split; [intros (x & t & H); eauto | intros (x & t & [H | H]); [discriminate | eauto]].
Qed.

(** With the on-activate hook installed, the hook is called once for
    every call of a factory, in the same order. *)
Lemma update_createdKeys (this this' : Timeline Instance) (timeMs : Z) (forward : bool)
      (events : list (Event Instance)) :
  update this timeMs forward = Normal (this', events) ->
  createElement this = true ->
  DisplayObjects.createdKeys events = builtIndices events.
Proof.
  unfold update. intros Hupd Hcreate.
  set (first := setInitialElementIndex this _ timeMs forward) in Hupd.
  destruct (scanLoop this (S (length (elements this))) first timeMs forward
                     (activeElements this) []) as [[[index active] log1] | |] eqn:Hscan;
    try discriminate.
  destruct (reconcileLoop this active timeMs active []) as [active' log2] eqn:Hrec.
  injection Hupd as _ <-.
  assert (Hlog1 : DisplayObjects.createdKeys log1 = builtIndices log1).
  { apply (scanLoop_invariant Instance this
             (fun _ _ log => DisplayObjects.createdKeys log = builtIndices log)
             timeMs forward)
      with (fuel := S (length (elements this))) (index := first)
           (active := activeElements this) (log := []) (index' := index) (active' := active);
      [| reflexivity | exact Hscan].
    intros i a log a' evs Hlog _ Hbody.
    destruct (scanBody_spec Instance this i timeMs a a' evs Hbody)
      as [e [_ [(_ & _ & ->) | (_ & _ & ->)]]].
    - rewrite createdKeys_app, builtIndices_app, Hlog, Hcreate. reflexivity.
    - now rewrite app_nil_r. }
  destruct (reconcileLoop_log Instance this timeMs active active []) as [evs [Hlog Hevs]].
  rewrite Hrec in Hlog. simpl in Hlog. subst log2.
  assert (Hnone : forall l : list (Event Instance),
             (forall ev, In ev l -> reconcileEvent this timeMs active ev) ->
             DisplayObjects.createdKeys l = [] /\ builtIndices l = []).
  { induction l as [| ev l IH]; intros Hl; [now split |].
    destruct (IH (fun ev' H => Hl ev' (or_intror H))) as [IH1 IH2].
    pose proof (Hl ev (or_introl eq_refl)) as Hev.
    destruct ev; simpl in *; try contradiction; now split. }
  destruct (Hnone evs (fun ev H => proj1 (Hevs ev) H)) as [H1 H2].
  rewrite createdKeys_app, builtIndices_app, Hlog1, H1, H2. reflexivity.
Qed.

Lemma In_removeChild (k j : Z) (c : list Z) :
  NoDup c -> (In k (DisplayObjects.removeChild j c) <-> In k c /\ k <> j).
Proof.
  induction 1 as [| x c Hx Hnd IH]; simpl; [tauto |].
  destruct (Z.eqb_spec x j) as [-> | Hne].
  - split.
    + intros H. split; [now right |]. intros ->. contradiction.
    + intros [[-> | H] Hkj]; [contradiction | exact H].
  - simpl. rewrite IH. split.
    + intros [-> | [H1 H2]]; auto.
    + intros [[-> | H1] H2]; auto.
Qed.

Lemma removeChild_incl (k j : Z) (c : list Z) :
  In k (DisplayObjects.removeChild j c) -> In k c.
Proof.
  induction c as [| x c IH]; simpl; [tauto |].
  destruct (x =? j); simpl; intuition.
Qed.

Lemma NoDup_removeChild (j : Z) (c : list Z) :
  NoDup c -> NoDup (DisplayObjects.removeChild j c).
Proof.
  induction 1 as [| x c Hx Hnd IH]; simpl; [constructor |].
  destruct (x =? j); [exact Hnd |]. constructor; [| exact IH].
  intros H. apply Hx. now apply removeChild_incl in H.
Qed.

(** The on-activate calls put their payloads in front, the last one
    first. *)
Lemma applyHooks_activation (l : list (Event Instance)) :
  forallb (@isActivation Instance) l = true ->
  forall c, fold_left (@DisplayObjects.applyHook Instance) l c
            = rev (DisplayObjects.createdKeys l) ++ c.
Proof.
  induction l as [| ev l IH]; simpl; intros Hall c; [reflexivity |].
  apply andb_true_iff in Hall. destruct Hall as [Hev Hall].
  rewrite (IH Hall).
  destruct ev as [j | j y s | j y s | j y s]; simpl in *; try discriminate; [reflexivity |].
  now rewrite <- app_assoc.
Qed.

Lemma applyHooks_reconciliation (l : list (Event Instance)) :
  forallb (@isReconciliation Instance) l = true ->
  forall c, NoDup c ->
    NoDup (fold_left (@DisplayObjects.applyHook Instance) l c) /\
    forall k, In k (fold_left (@DisplayObjects.applyHook Instance) l c) <->
              In k c /\ ~ exists x t, In (DestroyElement k x t) l.
Proof.
  induction l as [| ev l IH]; simpl; intros Hall c Hnd.
  - split; [exact Hnd |]. intros k.
    split; [intros H; split; [exact H | intros (x & t & [])] | tauto].
  - apply andb_true_iff in Hall. destruct Hall as [Hev Hall].
    destruct ev as [j | j y s | j y s | j y s]; simpl in *; try discriminate.
    + destruct (IH Hall c Hnd) as [IH1 IH2]. split; [exact IH1 |].
      intros k. rewrite IH2. split.
      * intros [H1 H2]. split; [exact H1 |].
        intros (x & t & [H | H]); [discriminate | apply H2; eauto].
      * intros [H1 H2]. split; [exact H1 |]. intros (x & t & H). apply H2. eauto.
    + destruct (IH Hall _ (NoDup_removeChild j c Hnd)) as [IH1 IH2]. split; [exact IH1 |].
      intros k. rewrite IH2, (In_removeChild k j c Hnd). split.
      * intros [[H1 Hne] H2]. split; [exact H1 |].
        intros (x & t & [H | H]); [injection H as -> _ _; contradiction | apply H2; eauto].
      * intros [H1 H2]. split; [split; [exact H1 |] |].
        -- intros ->. apply H2. exists y, s. now left.
        -- intros (x & t & H). apply H2. eauto.
Qed.

(** One call keeps the children and the active set in step. *)
Lemma update_inSync (this : DisplayObjects.DisplayObjectTimeline Instance) (timeMs : Z) :
  DisplayObjects.inSync this ->
  exists this' events,
    DisplayObjects.update this timeMs = Normal (this', events) /\
    DisplayObjects.inSync this'.
Proof.
  intros (Hskip & Hcreate & Hdestroy & Hagree & Hnd & Hsync).
  unfold DisplayObjects.update.
  destruct (update_total Instance (DisplayObjects.timeline this) timeMs true)
    as [engine [events Hupd]].
  rewrite Hupd. eexists. exists events. split; [reflexivity |].
  destruct (update_summary Instance _ timeMs true engine events Hupd)
    as (first & index & active & l1 & l2 & _ & _ & _ & _ & _ & _
        & _ & _ & _ & Hc' & _ & Hd' & Hs').
  destruct (update_event_order Instance _ engine timeMs true events Hupd)
    as (scanned & reconciled & Hsplit & Hact & Hrec & _).
  pose proof (update_createdKeys _ engine timeMs true events Hupd Hcreate) as Hkeys.
  pose proof (update_built_once Instance _ engine timeMs true events Hupd) as Honce.
  assert (Hreckeys : DisplayObjects.createdKeys reconciled = []).
  { clear - Hrec. induction reconciled as [| ev l IH]; [reflexivity |].
    simpl in Hrec. apply andb_true_iff in Hrec. destruct Hrec as [Hev Hl].
    destruct ev; simpl in *; try discriminate; auto. }
  assert (Hscanned : DisplayObjects.createdKeys scanned = builtIndices events).
  { rewrite <- Hkeys, Hsplit, createdKeys_app, Hreckeys. now rewrite app_nil_r. }
  assert (Hmid : NoDup (rev (DisplayObjects.createdKeys scanned)
                        ++ DisplayObjects.children this)).
  { rewrite Hscanned.
    apply NoDup_app; [apply NoDup_rev; exact Honce | exact Hnd |].
    intros k Hin Hchild. apply in_rev in Hin. apply In_Build_builtIndices in Hin.
    destruct (update_build Instance _ engine timeMs true events Hupd k Hin)
      as [e [_ [_ [Hf | [_ Hfree]]]]]; [congruence |].
    apply Hsync in Hchild. congruence. }
  unfold DisplayObjects.inSync. cbn [DisplayObjects.timeline DisplayObjects.children].
  split; [congruence |]. split; [congruence |]. split; [congruence |].
  split; [exact (update_entriesAgree Instance _ engine timeMs true events Hupd Hagree) |].
  assert (Hfold : fold_left (@DisplayObjects.applyHook Instance) events
                            (DisplayObjects.children this)
                  = fold_left (@DisplayObjects.applyHook Instance) reconciled
                              (rev (DisplayObjects.createdKeys scanned)
                               ++ DisplayObjects.children this)).
  { rewrite Hsplit, fold_left_app. now rewrite (applyHooks_activation scanned Hact). }
  rewrite Hfold.
  destruct (applyHooks_reconciliation reconciled Hrec _ Hmid) as [Hnd' Hin'].
  split; [exact Hnd' |].
  intros k. rewrite Hin'.
  pose proof (update_has Instance _ engine timeMs true events Hupd k Hagree) as Hhas'.
  pose proof (update_destroy_leaves Instance _ engine timeMs true events Hupd k Hagree)
    as Hleave.
  assert (Hdestroyed : (exists x t, In (DestroyElement k x t) reconciled) <->
                       (exists x t, In (DestroyElement k x t) events)).
  { split.
    - intros (x & t & Hin). exists x, t. rewrite Hsplit. apply in_or_app. now right.
    - intros (x & t & Hin). rewrite Hsplit in Hin. apply in_app_or in Hin.
      destruct Hin as [Hin | Hin]; [| eauto].
      rewrite forallb_forall in Hact. specialize (Hact _ Hin). discriminate. }
  assert (Hbefore : In k (rev (DisplayObjects.createdKeys scanned)
                          ++ DisplayObjects.children this) <->
                    JsMap.has k (activeElements (DisplayObjects.timeline this)) = true \/
                    In (Build k) events).
  { rewrite in_app_iff, <- in_rev, Hscanned, <- In_Build_builtIndices, Hsync. tauto. }
  rewrite Hbefore, Hdestroyed, Hleave.
  split.
  - intros [Hor Hnot].
    destruct (JsMap.has k (activeElements engine)) eqn:E; [reflexivity |].
    destruct Hnot. auto.
  - intros Hhas. pose proof (proj1 Hhas' Hhas) as [Hor _]. split; [exact Hor |].
    intros (_ & _ & Hgone). congruence.
Qed.

Lemma constructor_inSync (elements : list (TimelineElement Instance)) :
  exists this,
    DisplayObjects.constructor elements = Normal this /\
    DisplayObjects.inSync this.
Proof.
  eexists. split; [reflexivity |].
  unfold DisplayObjects.inSync. simpl.
  split; [reflexivity |]. split; [reflexivity |]. split; [reflexivity |].
  split; [intros k st [] |]. split; [constructor |].
  intros k. split; [intros [] | discriminate].
Qed.

End DisplayObjectFacts.

(** X20.  The display-object layer keeps its container in step with the
    engine.  When the children of the container are the payloads of the
    active entries, each of them once, as they are in a new layer, an
    [update] at any time completes and leaves them so: no payload stays
    in the container after its entry has gone, and none is there twice. *)
Theorem X20_children_are_the_active_entries
        (Instance : Type) (this : DisplayObjects.DisplayObjectTimeline Instance)
        (timeMs : Z) :
  DisplayObjects.inSync this ->
  exists this' events,
    DisplayObjects.update this timeMs = Normal (this', events) /\
    DisplayObjects.inSync this' /\
    NoDup (DisplayObjects.children this') /\
    forall k, In k (DisplayObjects.children this') <->
              JsMap.has k (activeElements (DisplayObjects.timeline this')) = true.
Proof.
  intros Hsync.
  destruct (update_inSync Instance this timeMs Hsync) as [this' [events [Hupd Hsync']]].
  exists this', events. split; [exact Hupd |]. split; [exact Hsync' |].
  destruct Hsync' as (_ & _ & _ & _ & Hnd & Hiff). auto.
Qed.

(** A new layer over the scenario, at its first call. *)
Lemma X20_witness :
  exists this,
    DisplayObjects.constructor scenarioABC = Normal this /\
    DisplayObjects.inSync this /\
    exists this' events,
      DisplayObjects.update this 600 = Normal (this', events) /\
      DisplayObjects.inSync this'.
Proof.
  destruct (constructor_inSync nat scenarioABC) as [this [Hnew Hsync]].
  exists this. split; [exact Hnew |]. split; [exact Hsync |].
  destruct (X20_children_are_the_active_entries nat this 600 Hsync)
    as [this' [events [Hupd [Hsync' _]]]].
  exists this', events. split; [exact Hupd | exact Hsync'].
Defined.

(** * The sample loader *)

Lemma lastIndexOfFrom_spec (unit : Z) (s : SampleLoader.JsString) :
  forall index found,
    (~ In unit s /\ SampleLoader.lastIndexOfFrom unit s index found = found) \/
    (exists pre post,
        s = pre ++ unit :: post /\ ~ In unit post /\
        SampleLoader.lastIndexOfFrom unit s index found = index + len pre).
Proof.
  induction s as [| c rest IH]; intros index found; simpl.
  - left. split; [tauto | reflexivity].
  - destruct (IH (index + 1) (if c =? unit then index else found))
      as [[Hnone Hres] | (pre & post & -> & Hpost & Hres)].
    + destruct (Z.eqb_spec c unit) as [-> | Hne].
      * right. exists [], rest. simpl. unfold len. simpl.
        split; [reflexivity |]. split; [exact Hnone |]. rewrite Hres. lia.
      * left. split; [intros [H | H]; contradiction | exact Hres].
    + right. exists (c :: pre), post. simpl.
      split; [reflexivity |]. split; [exact Hpost |].
      rewrite Hres. unfold len. simpl length. lia.
Qed.

Lemma skipn_past (A : Type) (pre : list A) (x : A) (post : list A) :
  skipn (S (length pre)) (pre ++ x :: post) = post.
Proof.
  induction pre as [| y pre IH]; [reflexivity | exact IH].
Qed.

(** X21.  The format handed to [loadSound] is the text of the name after
    its last dot: it holds no dot, and the name is either the format
    itself, when there is no dot in it, or some text, a dot, and the
    format. *)
Theorem X21_format_is_the_text_after_the_last_dot (name : SampleLoader.JsString) :
  ~ In SampleLoader.dot (SampleLoader.formatOf name) /\
  ((~ In SampleLoader.dot name /\ SampleLoader.formatOf name = name) \/
   exists pre, name = pre ++ SampleLoader.dot :: SampleLoader.formatOf name).
Proof.
  unfold SampleLoader.formatOf, SampleLoader.lastIndexOf, SampleLoader.substring.
  destruct (lastIndexOfFrom_spec SampleLoader.dot name 0 (-1))
    as [[Hnone ->] | (pre & post & Hname & Hpost & ->)].
  - simpl. split; [exact Hnone |]. left. split; [exact Hnone | reflexivity].
  - replace (Z.to_nat (0 + len pre + 1)) with (S (length pre)) by (unfold len; lia).
    assert (Hskip : skipn (S (length pre)) name = post)
      by (rewrite Hname; apply skipn_past).
    rewrite Hskip.
    split; [exact Hpost |]. right. exists pre. exact Hname.
Qed.

Section LoaderFacts.

Variables Blob Howl : Type.
Variable createObjectURL : Blob -> SampleLoader.JsString.
Variable isUsingIOS : bool.
Variable loadSound : SampleLoader.SoundOptions -> option Howl.

Abbreviation loadLoop := (SampleLoader.loadLoop createObjectURL isUsingIOS loadSound).
Abbreviation optionsFor := (SampleLoader.optionsFor createObjectURL isUsingIOS).
Abbreviation loadedFrom := (SampleLoader.loadedFrom createObjectURL isUsingIOS loadSound).

Lemma setSample_new (name : SampleLoader.JsString) (howl : Howl)
      (samples : list (SampleLoader.JsString * Howl)) :
  ~ In name (map fst samples) ->
  SampleLoader.setSample name howl samples = samples ++ [(name, howl)].
Proof.
  induction samples as [| [n h] rest IH]; simpl; intros Hnew; [reflexivity |].
  destruct (list_eq_dec Z.eq_dec n name) as [-> | Hne]; [tauto |].
  rewrite IH; [reflexivity | tauto].
Qed.

(** The loop, from any pass on. *)
Lemma loadLoop_spec (size : Z) (entries : list (SampleLoader.JsString * Blob)) :
  forall samples decoded calls,
    NoDup (map fst entries) ->
    (forall name, In name (map fst entries) -> ~ In name (map fst samples)) ->
    exists calls',
      fst (loadLoop size entries samples decoded calls) = calls ++ calls' /\
      (length calls' <= length entries)%nat /\
      (forall i call, nth_error calls' i = Some call ->
         SampleLoader.fraction call
         = (inject_Z (decoded + Z.of_nat i) / inject_Z size)%Q /\
         SampleLoader.current call = decoded + Z.of_nat i + 1 /\
         SampleLoader.total call = size) /\
      match snd (loadLoop size entries samples decoded calls) with
      | Some result =>
          length calls' = length entries /\
          exists loaded, result = samples ++ loaded /\ Forall2 loadedFrom entries loaded
      | None =>
          exists entry, In entry entries /\ loadSound (optionsFor entry) = None
      end.
Proof.
  induction entries as [| entry rest IH]; intros samples decoded calls Hnd Hfresh.
  - exists []. simpl. rewrite !app_nil_r.
    split; [reflexivity |]. split; [lia |].
    split; [intros [| i] call H; discriminate |].
    split; [reflexivity |]. exists []. rewrite app_nil_r. split; [reflexivity | constructor].
  - simpl. inversion Hnd as [| name names Hname Hrest]; subst.
    set (call0 := {| SampleLoader.fraction := (inject_Z decoded / inject_Z size)%Q;
                     SampleLoader.current := decoded + 1;
                     SampleLoader.total := size |}).
    assert (Hcall0 : forall i call, nth_error [call0] i = Some call ->
               SampleLoader.fraction call
               = (inject_Z (decoded + Z.of_nat i) / inject_Z size)%Q /\
               SampleLoader.current call = decoded + Z.of_nat i + 1 /\
               SampleLoader.total call = size).
    { intros [| i] call H; [| destruct i; discriminate].
      injection H as <-. simpl. rewrite Z.add_0_r. repeat split; reflexivity. }
    destruct (loadSound (optionsFor entry)) as [howl |] eqn:Hload.
    + rewrite (setSample_new _ howl samples (Hfresh _ (or_introl eq_refl))).
      destruct (IH (samples ++ [(fst entry, howl)]) (decoded + 1) (calls ++ [call0]) Hrest)
        as (calls' & Hcalls & Hlen & Hnth & Hres).
      { intros n Hn. rewrite map_app, in_app_iff. simpl.
        intros [H | [H | []]]; [exact (Hfresh n (or_intror Hn) H) | congruence]. }
      exists (call0 :: calls'). rewrite Hcalls, <- app_assoc.
      split; [reflexivity |]. split; [simpl; lia |].
      split.
      * intros [| i] call H; [exact (Hcall0 0%nat call H) |].
        destruct (Hnth i call H) as (H1 & H2 & H3).
        rewrite H1, H2, H3.
        replace (decoded + Z.of_nat (S i)) with (decoded + 1 + Z.of_nat i) by lia.
        repeat split; reflexivity.
      * destruct (snd (loadLoop size rest _ (decoded + 1) (calls ++ [call0])))
          as [result |].
        -- destruct Hres as (Hlen' & loaded & -> & Hall).
           split; [simpl; lia |].
           exists ((fst entry, howl) :: loaded). rewrite <- app_assoc.
           split; [reflexivity |]. constructor; [| exact Hall].
           split; [reflexivity | exact Hload].
        -- destruct Hres as (bad & Hin & Hbad). exists bad. split; [now right | exact Hbad].
    + exists [call0]. simpl.
      split; [reflexivity |]. split; [lia |]. split; [exact Hcall0 |].
      exists entry. split; [now left | exact Hload].
Qed.

End LoaderFacts.

(** X22.  Loading the samples of an input whose names are distinct calls
    the callback once per sample tried, the call of rank [i] with the
    fraction [i / size], which is at least 0 and below 1, and with the
    numbers [i + 1] and [size] in its message.  When the promise is
    fulfilled, the callback has been called once per entry, and the map
    returned holds, in the order of the input and under the same names,
    the sounds loaded for the entries; when it is rejected, the load of
    some entry was. *)
Theorem X22_load_samples_reports_progress_below_one
        (Blob Howl : Type) (createObjectURL : Blob -> SampleLoader.JsString)
        (isUsingIOS : bool) (loadSound : SampleLoader.SoundOptions -> option Howl)
        (input : list (SampleLoader.JsString * Blob)) :
  NoDup (map fst input) ->
  exists calls result,
    SampleLoader.loadSamples createObjectURL isUsingIOS loadSound input = (calls, result) /\
    (length calls <= length input)%nat /\
    (forall i call, nth_error calls i = Some call ->
       SampleLoader.fraction call = (inject_Z (Z.of_nat i) / inject_Z (len input))%Q /\
       (0 <= SampleLoader.fraction call)%Q /\ (SampleLoader.fraction call < 1)%Q /\
       SampleLoader.current call = Z.of_nat i + 1 /\
       SampleLoader.total call = len input) /\
    match result with
    | Some samples =>
        length calls = length input /\
        Forall2 (SampleLoader.loadedFrom createObjectURL isUsingIOS loadSound) input samples
    | None =>
        exists entry, In entry input /\
          loadSound (SampleLoader.optionsFor createObjectURL isUsingIOS entry) = None
    end.
Proof.
  intros Hnd. unfold SampleLoader.loadSamples.
  destruct (loadLoop_spec Blob Howl createObjectURL isUsingIOS loadSound
              (len input) input [] 0 [] Hnd (fun _ _ H => H))
    as (calls' & Hcalls & Hlen & Hnth & Hres).
  destruct (SampleLoader.loadLoop createObjectURL isUsingIOS loadSound
              (len input) input [] 0 []) as [calls result].
  simpl in Hcalls, Hres. subst calls'.
  exists calls, result. split; [reflexivity |]. split; [exact Hlen |].
  split.
  - intros i call Hi. destruct (Hnth i call Hi) as (H1 & H2 & H3).
    assert (Hrange : (i < length calls)%nat) by (apply nth_error_Some; congruence).
    assert (Hpos : (0 < inject_Z (len input))%Q).
    { unfold Qlt, len. simpl. lia. }
    rewrite H1, H2, H3. simpl.
    split; [reflexivity |].
    split; [| split; [| split; reflexivity]].
    + apply Qle_shift_div_l; [exact Hpos |]. unfold Qle. simpl. lia.
    + apply Qlt_shift_div_r; [exact Hpos |].
      rewrite Qmult_1_l, <- Zlt_Qlt. unfold len. lia.
  - destruct result as [samples |]; [| exact Hres].
    destruct Hres as (Hlen' & loaded & Heq & Hall). simpl in Heq. subst loaded.
    split; [exact Hlen' | exact Hall].
Qed.

(** Two samples, both loaded. *)
Lemma X22_witness :
  NoDup (map fst [(SampleLoader.nameWav, 1%nat); (SampleLoader.nameBare, 2%nat)]) /\
  exists calls samples,
    SampleLoader.loadSamples (fun blob : nat => [Z.of_nat blob]) false
      (fun options => Some (SampleLoader.format options))
      [(SampleLoader.nameWav, 1%nat); (SampleLoader.nameBare, 2%nat)]
    = (calls, Some samples) /\
    length calls = 2%nat.
Proof.
  assert (Hnd : NoDup (map fst [(SampleLoader.nameWav, 1%nat);
                                (SampleLoader.nameBare, 2%nat)])).
  { simpl. constructor; [intros [H | []]; discriminate |].
    constructor; [intros [] | constructor]. }
  split; [exact Hnd |].
  destruct (X22_load_samples_reports_progress_below_one
              nat SampleLoader.JsString (fun blob : nat => [Z.of_nat blob]) false
              (fun options => Some (SampleLoader.format options)) _ Hnd)
    as (calls & result & Hrun & _ & _ & Hres).
  destruct result as [samples |].
  - exists calls, samples. split; [exact Hrun | exact (proj1 Hres)].
  - destruct Hres as (entry & _ & Hbad). discriminate.
Defined.
